(** * obsidian-p2p-sync: the peer synchronisation engine

    A shallow embedding of the TypeScript sources of the plugin
    ([sync-service.ts], [security-service.ts], [discovery-service.ts],
    [tcp-transport.ts]) and the properties of reconciliation, session
    tie-break, chunked transfer, pairing and discovery that its specification
    states, followed by further properties of the same code: stream framing
    and connections, sessions, the pairing code, the snapshot of a sync
    request.

    JavaScript [Map]s and plain objects used as dictionaries are finite maps
    ([gmap]), [Set]s are finite sets ([gset]); [BigInt]s and the integral
    numbers of time stamps and chunk indices are [Z].  The WASM module
    (journal, ciphers, signatures), the session part of the security service
    and [JSON.parse] are outside these sources: their functions are
    parameters, as classes or section variables, and what they answer is an
    argument where it depends on their own state. *)

From Stdlib Require Import ZArith String List Lia Permutation.
From Stdlib Require Import NArith.
From Stdlib Require Import Strings.Byte.
From stdpp Require Import base gmap sets list strings.

Local Open Scope string_scope.
Local Open Scope Z_scope.
Local Open Scope list_scope.

(** ** Reconciliation: [SyncService.handleSyncResponse] *)

Module Reconciliation.

(** What [app.vault.getAbstractFileByPath] can return besides [null]: a
    [TFile], of which the code reads [stat.mtime], or another
    [TAbstractFile] (a folder). *)
Inductive TAbstractFile :=
| TFile (stat_mtime : Z)
| TFolder.

(** The fields of the journal's [FileMetadata] that the service reads. *)
Record FileMetadata := { md_mtime : Z; is_deleted : bool }.

(** An entry of [SYNC_RESPONSE.files].  The wire carries [mtime] as the
    decimal string of the sender's number; [mtime] here is the value
    [BigInt(remoteFile.mtime)] of that string. *)
Record RemoteFile := { path : string; mtime : Z; isDeleted : bool }.

Inductive ChangeType := type_push | type_pull | type_delete.

Record SyncChange :=
  { change_path : string; change_type : ChangeType; change_reason : string }.

(** The local side as [handleSyncResponse] sees it: the WASM node, the
    session key of the peer, the vault, and the parsed journal state
    ([None] when [JSON.parse] throws or the object has no [files]). *)
Record Local := {
  node : bool;
  sessionKey : option string;
  vault : gmap string TAbstractFile;
  journal : option (gmap string FileMetadata)
}.

(** Truthiness of a JavaScript number read from JSON. *)
Definition truthy (n : Z) : bool := negb (n =? 0).

(** The property names a plain object inherits from [Object.prototype]. *)
Definition inheritedProperties : list string :=
  ["constructor"; "__defineGetter__"; "__defineSetter__"; "hasOwnProperty";
   "__lookupGetter__"; "__lookupSetter__"; "isPrototypeOf"; "propertyIsEnumerable";
   "toString"; "valueOf"; "__proto__"; "toLocaleString"].

(** [myDeletedFiles]: the own properties of the plain object that the
    loop over the journal fills, path to [mtime] for every journal entry
    with [is_deleted].  The assignment [myDeletedFiles["__proto__"] = mtime]
    of a number stores nothing. *)
Definition myDeletedFiles (j : option (gmap string FileMetadata)) : gmap string Z :=
  match j with
  | Some files =>
      base.delete "__proto__"
        (omap (λ md, if is_deleted md then Some (md_mtime md) else None) files)
  | None => ∅
  end.

(** What [myDeletedFiles[path]] reads: the number stored under the path,
    [undefined], or what the object inherits under that name (a function, or
    [Object.prototype] itself for [__proto__]). *)
Inductive PropertyRead :=
| OwnNumber (n : Z)
| Inherited
| Undefined.

Definition readProperty (object : gmap string Z) (key : string) : PropertyRead :=
  match object !! key with
  | Some n => OwnNumber n
  | None => if bool_decide (key ∈ inheritedProperties) then Inherited else Undefined
  end.

(** [app.vault.getFiles()]: every [TFile] of the vault. *)
Definition getFiles (v : gmap string TAbstractFile) : list (string * Z) :=
  omap (λ kv, match kv.2 with TFile m => Some (kv.1, m) | TFolder => None end)
       (map_to_list v).

(** The body of the loop over [remoteFiles]: the changes pushed for one
    entry, [None] when it throws.  [Number(remoteMtime - localMtime)] is
    compared with the exactly representable [2000] and [-2000]; rounding to a
    double is monotone, so the comparisons are those of the integers.  An
    inherited value read from [myDeletedFiles] is truthy, and [BigInt] of it
    throws a [SyntaxError]. *)
Definition reconcileEntry (v : gmap string TAbstractFile) (deleted : gmap string Z)
    (remoteFile : RemoteFile) : option (list SyncChange) :=
  let localFile := v !! path remoteFile in
  let remoteMtime := mtime remoteFile in
  if isDeleted remoteFile then
    match localFile with
    | Some f =>
        let localMtime := match f with TFile m => m | TFolder => 0 end in
        if localMtime <? remoteMtime
        then Some [ {| change_path := path remoteFile; change_type := type_delete;
                       change_reason := "Remote deletion is newer" |} ]
        else Some []
    | None => Some []
    end
  else
    match localFile with
    | None =>
        let pullIt := [ {| change_path := path remoteFile; change_type := type_pull;
                           change_reason := "New remote file" |} ] in
        match readProperty deleted (path remoteFile) with
        | OwnNumber myDeletionTime =>
            if truthy myDeletionTime && (remoteMtime <? myDeletionTime)
            then Some [ {| change_path := path remoteFile; change_type := type_push;
                           change_reason := "Local deletion is newer" |} ]
            else Some pullIt
        | Inherited => None
        | Undefined => Some pullIt
        end
    | Some (TFile localMtime) =>
        let diff := remoteMtime - localMtime in
        if 2000 <? diff
        then Some [ {| change_path := path remoteFile; change_type := type_pull;
                       change_reason := "Remote is newer" |} ]
        else if diff <? -2000
        then Some [ {| change_path := path remoteFile; change_type := type_push;
                       change_reason := "Local is newer" |} ]
        else Some []
    | Some TFolder => Some []
    end.

(** The first loop, with its two accumulators [remotePaths] and [changes];
    an exception ends it. *)
Definition remoteStep (v : gmap string TAbstractFile) (deleted : gmap string Z)
    (acc : option (gset string * list SyncChange)) (remoteFile : RemoteFile)
    : option (gset string * list SyncChange) :=
  match acc with
  | Some (remotePaths, changes) =>
      match reconcileEntry v deleted remoteFile with
      | Some pushed => Some ({[ path remoteFile ]} ∪ remotePaths, changes ++ pushed)
      | None => None
      end
  | None => None
  end.

Definition remoteLoop (v : gmap string TAbstractFile) (deleted : gmap string Z)
    (remoteFiles : list RemoteFile) : option (gset string * list SyncChange) :=
  foldl (remoteStep v deleted) (Some (∅, [])) remoteFiles.

(** The second loop: local files the remote snapshot does not mention. *)
Definition localLoop (remotePaths : gset string) (localFiles : list (string * Z))
    : list SyncChange :=
  omap (λ file, if decide (file.1 ∈ remotePaths) then None
                else Some {| change_path := file.1; change_type := type_push;
                             change_reason := "Remote missing file" |})
       localFiles.

(** The two loops: the plan, or [None] when the first loop throws. *)
Definition computeChanges (v : gmap string TAbstractFile)
    (j : option (gmap string FileMetadata)) (remoteFiles : list RemoteFile)
    : option (list SyncChange) :=
  match remoteLoop v (myDeletedFiles j) remoteFiles with
  | Some (remotePaths, changes) => Some (changes ++ localLoop remotePaths (getFiles v))
  | None => None
  end.

(** How [handleSyncResponse] ends: it returns early without a node or a
    session key, is left by the exception of the first loop (nothing is
    reported and nothing executed), reports "All files are up to date." for an
    empty plan, and otherwise runs [executeSync], behind the confirmation
    modal when the plan has more than ten changes. *)
Inductive SyncOutcome :=
| NoNode
| NoSessionKey
| Throws
| UpToDate
| Execute (changes : list SyncChange)
| Confirm (changes : list SyncChange).

Definition handleSyncResponse (st : Local) (remoteFiles : list RemoteFile) : SyncOutcome :=
  if negb (node st) then NoNode
  else match sessionKey st with
       | None => NoSessionKey
       | Some _ =>
           match computeChanges (vault st) (journal st) remoteFiles with
           | Some changes =>
               if (length changes =? 0)%nat then UpToDate
               else if (10 <? length changes)%nat then Confirm changes
               else Execute changes
           | None => Throws
           end
       end.

(** [handleSyncRequest]: the snapshot sent to a peer, every local file and,
    from the journal, every tombstone whose path is not among them.  (On the
    wire the [mtime]s are [String(...)] of the numbers.)  [None]: no node,
    nothing is sent. *)
Definition snapshotStep (responseFiles : list RemoteFile)
    (entry : string * FileMetadata) : list RemoteFile :=
  if is_deleted entry.2 then
    if bool_decide (entry.1 ∈ path <$> responseFiles) then responseFiles
    else responseFiles ++ [ {| path := entry.1; mtime := md_mtime entry.2;
                               isDeleted := true |} ]
  else responseFiles.

Definition handleSyncRequest (st : Local) : option (list RemoteFile) :=
  if negb (node st) then None
  else
    let journalFiles := default ∅ (journal st) in
    let responseFiles :=
      (λ f, {| path := f.1; mtime := f.2; isDeleted := false |}) <$> getFiles (vault st) in
    Some (foldl snapshotStep responseFiles (map_to_list journalFiles)).

(** The action list of an outcome. *)
Definition plan (o : SyncOutcome) : list SyncChange :=
  match o with
  | Execute changes | Confirm changes => changes
  | _ => []
  end.

(** Messages and vault operations issued by [executeSync]. *)
Inductive Message :=
| FILE_REQUEST (filePath : string)
| FILE_DELETE (filePath : string).

Inductive SyncEffect :=
| Send (peerId : string) (m : Message)
| VaultDelete (p : string)
| MarkFileDeleted (p : string)
| TransferFile (p peerId key : string).

(** One iteration of the loop of [executeSync], reading the vault as it is
    when the change is applied.  The marks in [remoteUpdateInProgress], which
    only silence the file watcher, are left out. *)
Definition executeChange (peerId key : string) (v : gmap string TAbstractFile)
    (change : SyncChange) : gmap string TAbstractFile * list SyncEffect :=
  let p := change_path change in
  match change_type change with
  | type_delete =>
      match v !! p with
      | Some _ => (base.delete p v, [VaultDelete p; MarkFileDeleted p])
      | None => (v, [])
      end
  | type_pull => (v, [Send peerId (FILE_REQUEST p)])
  | type_push =>
      if String.eqb (change_reason change) "Local deletion is newer"
      then (v, [Send peerId (FILE_DELETE p)])
      else match v !! p with
           | Some (TFile _) => (v, [TransferFile p peerId key])
           | _ => (v, [])
           end
  end.

Fixpoint executeSync (peerId key : string) (v : gmap string TAbstractFile)
    (changes : list SyncChange) : list SyncEffect :=
  match changes with
  | [] => []
  | change :: rest =>
      let '(v', effs) := executeChange peerId key v change in
      effs ++ executeSync peerId key v' rest
  end.

(** The changes the loop can push for a path [p]. *)
Definition deleteChange (p : string) : SyncChange :=
  {| change_path := p; change_type := type_delete;
     change_reason := "Remote deletion is newer" |}.
Definition pullNew (p : string) : SyncChange :=
  {| change_path := p; change_type := type_pull; change_reason := "New remote file" |}.
Definition pullNewer (p : string) : SyncChange :=
  {| change_path := p; change_type := type_pull; change_reason := "Remote is newer" |}.
Definition pushDelete (p : string) : SyncChange :=
  {| change_path := p; change_type := type_push;
     change_reason := "Local deletion is newer" |}.

(** [X] is in the action list and is its only action for the path [p]. *)
Definition only_action (p : string) (X : SyncChange) (changes : list SyncChange) : Prop :=
  X ∈ changes ∧ ∀ c, c ∈ changes → change_path c = p → c = X.

(** The action list holds nothing for the path [p]. *)
Definition no_action (p : string) (changes : list SyncChange) : Prop :=
  ∀ c, c ∈ changes → change_path c ≠ p.

(** The local journal holds a tombstone for [p] newer than time [t]. *)
Definition newerTombstone (j : option (gmap string FileMetadata)) (p : string) (t : Z)
    : Prop :=
  ∃ files md, j = Some files ∧ files !! p = Some md ∧
              is_deleted md = true ∧ t < md_mtime md.

(** The local side is in the state a snapshot describes: every live entry
    is a local file with the entry's [mtime], nothing exists locally at the
    path of a tombstone, and every local file has an entry. *)
Definition mirrors (st : Local) (remoteFiles : list RemoteFile) : Prop :=
  (∀ r, r ∈ remoteFiles →
        vault st !! path r = if isDeleted r then None else Some (TFile (mtime r))) ∧
  (∀ p m, vault st !! p = Some (TFile m) → p ∈ path <$> remoteFiles).

(** Device A of the specification's scenario: it holds note.md, last
    modified at 100, and a tombstone for gone.md, deleted at 900. *)
Definition deviceA : Local :=
  {| node := true;
     sessionKey := Some "session-key";
     vault := {[ "note.md" := TFile 100 ]};
     journal := Some (<[ "gone.md" := {| md_mtime := 900; is_deleted := true |} ]>
                      {[ "note.md" := {| md_mtime := 100; is_deleted := false |} ]}) |}.

(** A device on which the file drafts was deleted at 900 and a folder of
    that name made afterwards. *)
Definition folderDevice : Local :=
  {| node := true;
     sessionKey := Some "session-key";
     vault := {[ "drafts" := TFolder ]};
     journal := Some {[ "drafts" := {| md_mtime := 900; is_deleted := true |} ]} |}.

Definition remoteLive (p : string) (t : Z) : RemoteFile :=
  {| path := p; mtime := t; isDeleted := false |}.
Definition remoteTombstone (p : string) (t : Z) : RemoteFile :=
  {| path := p; mtime := t; isDeleted := true |}.

End Reconciliation.

(** ** Session handshake: the SESSION_OFFER case of [SyncService.handleMessage] *)

Module Handshake.

(** How a call into the security service ends. *)
Inductive Completion (A : Type) :=
| Throws
| Returns (a : A).
Arguments Throws {A}.
Arguments Returns {A} a.

(** A SESSION_OFFER message. *)
Record SessionOffer := {
  deviceId : string;
  ephemeralPublicKey : string;
  signature : string
}.

(** [a < b] on JavaScript strings: the lexicographic order of the code
    units. *)
Definition js_lt (a b : string) : bool := String.ltb a b.

Section SessionOfferHandling.

(** The pending key exchanges, the answers and the state of the security
    service belong to [SecurityService] and the WASM module. *)
Variables KeyExchange Answer SecurityState : Type.
Variable getDeviceId : SecurityState → string.
Variable handleSessionOffer :
  SecurityState → string → SessionOffer → SecurityState * Completion (option Answer).

Record State := {
  pendingSessionOffers : gmap string KeyExchange;
  securityService : SecurityState
}.

(** The tail of the handler: [securityService.handleSessionOffer], then
    [transport.send(peerId, answer)] when an answer comes back.  An
    exception is caught and logged. *)
Definition answerOffer (pending : gmap string KeyExchange) (sec : SecurityState)
    (peerId : string) (message : SessionOffer) : State * list (string * Answer) :=
  let '(sec', completion) := handleSessionOffer sec peerId message in
  ({| pendingSessionOffers := pending; securityService := sec' |},
   match completion with
   | Returns (Some answer) => [(peerId, answer)]
   | Returns None | Throws => []
   end).

(** The handler of a SESSION_OFFER: the new state and the messages sent. *)
Definition handleSessionOfferMessage (st : State) (peerId : string)
    (message : SessionOffer) : State * list (string * Answer) :=
  match pendingSessionOffers st !! peerId with
  | Some _ =>
      let myDeviceId := getDeviceId (securityService st) in
      let peerDeviceId := deviceId message in
      if js_lt myDeviceId peerDeviceId
      then (st, [])
      else answerOffer (base.delete peerId (pendingSessionOffers st))
                       (securityService st) peerId message
  | None => answerOffer (pendingSessionOffers st) (securityService st) peerId message
  end.

End SessionOfferHandling.

Arguments pendingSessionOffers {KeyExchange SecurityState} s.
Arguments securityService {KeyExchange SecurityState} s.

(** A security service that knows its device id and answers every offer
    with the peer's ephemeral key. *)
Definition echoService (sec : string) (peerId : string) (message : SessionOffer)
    : string * Completion (option string) :=
  (sec, Returns (Some (ephemeralPublicKey message))).

Definition raceState (me : string) : State unit string :=
  {| pendingSessionOffers := {[ "peer-1" := tt ]}; securityService := me |}.

Definition offerFrom (dev : string) : SessionOffer :=
  {| deviceId := dev; ephemeralPublicKey := "epk"; signature := "sig" |}.

End Handshake.

(** ** Chunked transfer: [transferFile], the FILE_CHUNK case of
    [handleMessage], and [reassembleAndWrite] *)

Module Transfer.

(** A FILE_CHUNK message; [data] and [nonce] are JSON arrays of numbers. *)
Record FileChunk := {
  filePath : string;
  chunkIndex : Z;
  totalChunks : Z;
  data : list Z;
  nonce : list Z
}.

(** The chunk object the WASM side produces and consumes (as JSON). *)
Record Chunk := {
  file_path : string;
  chunk_index : Z;
  total_chunks : Z;
  chunk_data : list Z;
  chunk_nonce : list Z
}.

(** The part of the [WasmModule] interface of [types.ts] that transfers
    use.  [None] stands for a call that throws. *)
Class WasmModule := {
  prepare_transfer : string → list byte → string → option (list Chunk);
  decrypt_chunk : Chunk → string → option (list byte);
  encrypt_data : string → list byte → option (list Z * list Z)
}.

Inductive TransferDirection := incoming | outgoing.
Inductive TransferState := pending | transferring | completed | failed.

(** A [progress] value: the two operands of the division that computes
    it ([progress: 0] is [0/1] and [progress = 1] is [1/1]). *)
Record Ratio := { numerator : Z; denominator : Z }.

(** Two quotients have the same value. *)
Definition same_quotient (a b : Ratio) : Prop :=
  denominator a ≠ 0 ∧ denominator b ≠ 0 ∧
  numerator a * denominator b = numerator b * denominator a.

Record TransferStatus := {
  id : string;
  status_filePath : string;
  status_peerId : string;
  direction : TransferDirection;
  progress : Ratio;
  totalSize : option Z;
  state : TransferState;
  error : option string
}.

Definition set_progress (r : Ratio) (s : TransferStatus) : TransferStatus :=
  {| id := id s; status_filePath := status_filePath s; status_peerId := status_peerId s;
     direction := direction s; progress := r; totalSize := totalSize s;
     state := state s; error := error s |}.
Definition set_state (x : TransferState) (s : TransferStatus) : TransferStatus :=
  {| id := id s; status_filePath := status_filePath s; status_peerId := status_peerId s;
     direction := direction s; progress := progress s; totalSize := totalSize s;
     state := x; error := error s |}.
Definition set_totalSize (n : Z) (s : TransferStatus) : TransferStatus :=
  {| id := id s; status_filePath := status_filePath s; status_peerId := status_peerId s;
     direction := direction s; progress := progress s; totalSize := Some n;
     state := state s; error := error s |}.
Definition set_error (e : string) (s : TransferStatus) : TransferStatus :=
  {| id := id s; status_filePath := status_filePath s; status_peerId := status_peerId s;
     direction := direction s; progress := progress s; totalSize := totalSize s;
     state := state s; error := Some e |}.

(** An entry of [incomingChunks].  [chunks] is a JavaScript [Map]: its
    entries in insertion order. *)
Record IncomingTransfer := {
  chunks : list (Z * FileChunk);
  total : Z;
  path : string
}.

(** [Map.prototype.set]: an existing key keeps its place and takes the
    new value, a new key goes last. *)
Fixpoint mapSet {V : Type} (k : Z) (x : V) (m : list (Z * V)) : list (Z * V) :=
  match m with
  | [] => [(k, x)]
  | (k', y) :: m' => if k =? k' then (k, x) :: m' else (k', y) :: mapSet k x m'
  end.

(** [entries.sort((a, b) => a[0] - b[0])]: a stable sort on the keys. *)
Fixpoint insertEntry {V : Type} (e : Z * V) (l : list (Z * V)) : list (Z * V) :=
  match l with
  | [] => [e]
  | e' :: l' => if e.1 <=? e'.1 then e :: l else e' :: insertEntry e l'
  end.

Definition sortEntries {V : Type} (l : list (Z * V)) : list (Z * V) :=
  foldr insertEntry [] l.

(** The state of the service that transfers read and write. *)
Record SyncService := {
  transferManager : bool;
  wasmModule : bool;
  node : bool;
  sessionKeys : gmap string string;
  vaultContents : gmap string (list byte);
  incomingChunks : gmap string IncomingTransfer;
  activeTransfers : gmap string TransferStatus
}.

Definition set_transfers (inc : gmap string IncomingTransfer)
    (act : gmap string TransferStatus) (st : SyncService) : SyncService :=
  {| transferManager := transferManager st; wasmModule := wasmModule st;
     node := node st; sessionKeys := sessionKeys st;
     vaultContents := vaultContents st;
     incomingChunks := inc; activeTransfers := act |}.

Inductive TransferEffect :=
| Trigger (event : string) (status : TransferStatus)
| InitiateSession (peerId : string)
| Send (peerId : string) (message : FileChunk)
| WriteBinary (p : string) (fileContent : list byte)
| UpdateFile (p : string) (fileContent : list byte)
| Notice (text : string).

(** The files written, the chunks sent by a run. *)
Definition written (effs : list TransferEffect) : list (string * list byte) :=
  omap (λ e, match e with WriteBinary p content => Some (p, content) | _ => None end) effs.
Definition sent (effs : list TransferEffect) : list (string * FileChunk) :=
  omap (λ e, match e with Send peerId m => Some (peerId, m) | _ => None end) effs.

Definition fileKeyOf (peerId p : string) : string := peerId +:+ ":" +:+ p.

Section WithWasm.
Context `{WasmModule}.

(** The chunk object rebuilt from a received message. *)
Definition chunkObj (chunkMsg : FileChunk) : Chunk :=
  {| file_path := filePath chunkMsg; chunk_index := chunkIndex chunkMsg;
     total_chunks := totalChunks chunkMsg; chunk_data := data chunkMsg;
     chunk_nonce := nonce chunkMsg |}.

(** [reassembleAndWrite]: sort the entries by index, decrypt each chunk,
    concatenate, write, record in the journal.  A failing decryption (or a
    missing transfer manager) is caught: nothing is written. *)
Definition reassembleAndWrite (st : SyncService) (transfer : IncomingTransfer)
    (sessionKey : string) : list TransferEffect :=
  let sortedChunks := (sortEntries (chunks transfer)).*2 in
  let decryptedParts :=
    if transferManager st
    then mapM (λ chunkMsg, decrypt_chunk (chunkObj chunkMsg) sessionKey) sortedChunks
    else None in
  match decryptedParts with
  | Some parts =>
      let fileContent := concat parts in
      [WriteBinary (path transfer) fileContent]
        ++ (if node st then [UpdateFile (path transfer) fileContent] else [])
        ++ [Notice ("Received file: " +:+ path transfer)]
  | None => [Notice ("Failed to save received file: " +:+ path transfer)]
  end.

(** The FILE_CHUNK case of [handleMessage].  The status object stored in
    [activeTransfers] is the one mutated on completion; its removal five
    seconds later is left out. *)
Definition handleFileChunk (st : SyncService) (peerId : string) (message : FileChunk)
    : SyncService * list TransferEffect :=
  let fileKey := fileKeyOf peerId (filePath message) in
  let status0 :=
    default {| id := fileKey; status_filePath := filePath message;
               status_peerId := peerId; direction := incoming;
               progress := {| numerator := 0; denominator := 1 |};
               totalSize := Some (totalChunks message);
               state := transferring; error := None |}
            (activeTransfers st !! fileKey) in
  let status :=
    set_progress {| numerator := chunkIndex message + 1;
                    denominator := totalChunks message |} status0 in
  let active := <[fileKey := status]> (activeTransfers st) in
  match sessionKeys st !! peerId with
  | None =>
      (set_transfers (incomingChunks st) active st,
       [Trigger "transfer-progress" status; InitiateSession peerId])
  | Some sessionKey =>
      let '(transfer0, started) :=
        match incomingChunks st !! fileKey with
        | Some t => (t, [])
        | None => ({| chunks := []; total := totalChunks message;
                      path := filePath message |},
                   [Trigger "transfer-start" status])
        end in
      let transfer :=
        {| chunks := mapSet (chunkIndex message) message (chunks transfer0);
           total := total transfer0; path := path transfer0 |} in
      if Z.of_nat (length (chunks transfer)) =? total transfer
      then
        let status' :=
          set_progress {| numerator := 1; denominator := 1 |}
                       (set_state completed status) in
        (set_transfers (base.delete fileKey (incomingChunks st))
                       (<[fileKey := status']> active) st,
         [Trigger "transfer-progress" status] ++ started
           ++ [Trigger "transfer-complete" status']
           ++ reassembleAndWrite st transfer sessionKey)
      else
        (set_transfers (<[fileKey := transfer]> (incomingChunks st)) active st,
         [Trigger "transfer-progress" status] ++ started)
  end.

(** FILE_CHUNK messages of one peer handled one after the other. *)
Fixpoint deliver (st : SyncService) (peerId : string) (messages : list FileChunk)
    : SyncService * list TransferEffect :=
  match messages with
  | [] => (st, [])
  | message :: rest =>
      let '(st', effs) := handleFileChunk st peerId message in
      let '(st'', effs') := deliver st' peerId rest in
      (st'', effs ++ effs')
  end.

(** The message sent for a chunk object. *)
Definition chunkMessage (chunk : Chunk) : FileChunk :=
  {| filePath := file_path chunk; chunkIndex := chunk_index chunk;
     totalChunks := total_chunks chunk; data := chunk_data chunk;
     nonce := chunk_nonce chunk |}.

(** The loop of [transferFile] over the prepared chunks, [i] counting
    from [start]. *)
Fixpoint sendChunks (peerId : string) (status : TransferStatus) (len : Z)
    (start : Z) (cs : list Chunk) : list TransferEffect :=
  match cs with
  | [] => []
  | chunk :: rest =>
      [Send peerId (chunkMessage chunk);
       Trigger "transfer-progress"
         (set_progress {| numerator := start + 1; denominator := len |} status)]
        ++ sendChunks peerId status len (start + 1) rest
  end.

(** [transferFile(file, peerId, sessionKey)], for the file at path [p]. *)
Definition transferFile (st : SyncService) (p peerId sessionKey : string) : list TransferEffect :=
  if negb (transferManager st) then []
  else
    let fileKey := fileKeyOf peerId p in
    let status :=
      {| id := fileKey; status_filePath := p; status_peerId := peerId;
         direction := outgoing; progress := {| numerator := 0; denominator := 1 |};
         totalSize := None; state := pending; error := None |} in
    let failure (s : TransferStatus) :=
      [Trigger "transfer-error" (set_error "error" (set_state failed s));
       Notice "Transfer failed"] in
    [Trigger "transfer-start" status] ++
    match vaultContents st !! p with
    | None => failure status
    | Some contentArray =>
        match prepare_transfer p contentArray sessionKey with
        | None => failure status
        | Some cs =>
            let len := Z.of_nat (length cs) in
            let status := set_state transferring (set_totalSize len status) in
            let emptyFile :=
              if (len =? 0) && (Z.of_nat (length contentArray) =? 0) && wasmModule st
              then Some (encrypt_data sessionKey [])
              else None in
            match emptyFile with
            | Some None => failure status
            | Some (Some (encData, encNonce)) =>
                [Send peerId {| filePath := p; chunkIndex := 0; totalChunks := 1;
                                data := encData; nonce := encNonce |}]
                  ++ sendChunks peerId status len 0 cs
                  ++ [Trigger "transfer-complete"
                        (set_progress {| numerator := 1; denominator := 1 |}
                           (set_state completed status));
                      Notice ("Sent " +:+ p +:+ " to peer")]
            | None =>
                sendChunks peerId status len 0 cs
                  ++ [Trigger "transfer-complete"
                        (set_progress {| numerator := 1; denominator := 1 |}
                           (set_state completed status));
                      Notice ("Sent " +:+ p +:+ " to peer")]
            end
        end
    end.

End WithWasm.

(** The chunks buffered for a transfer, and their indices. *)
Definition buffered (st : SyncService) (fileKey : string) : list (Z * FileChunk) :=
  match incomingChunks st !! fileKey with
  | Some t => chunks t
  | None => []
  end.
Definition receivedChunks (st : SyncService) (fileKey : string) : Z :=
  Z.of_nat (length (buffered st fileKey)).

(** The [Map] entries that a list of messages, set in this order under
    pairwise distinct indices, makes. *)
Definition entries (ms : list FileChunk) : list (Z * FileChunk) :=
  (λ m, (chunkIndex m, m)) <$> ms.

(** The transfer of key [K] holds the entries [acc], for [n] chunks of the
    file [p]. *)
Definition holds (st : SyncService) (K : string) (acc : list (Z * FileChunk))
    (n : Z) (p : string) : Prop :=
  match incomingChunks st !! K with
  | Some t => t = {| chunks := acc; total := n; path := p |}
  | None => acc = []
  end.

(** The cipher gives back what was encrypted under the same key. *)
Definition decrypts_what_encrypts `{WasmModule} (key : string) : Prop :=
  ∀ content encData encNonce fp i n,
    encrypt_data key content = Some (encData, encNonce) →
    decrypt_chunk {| file_path := fp; chunk_index := i; total_chunks := n;
                     chunk_data := encData; chunk_nonce := encNonce |} key
    = Some content.

(** A transparent stand-in for the WASM module, to run the service on
    examples: the cipher text of a chunk is its plain text, and a content
    that is not empty goes in one chunk. *)
Definition plainData (content : list byte) : list Z :=
  (λ b, Z.of_N (Byte.to_N b)) <$> content.
Definition plainBytes (d : list Z) : option (list byte) :=
  mapM (λ z, Byte.of_N (Z.to_N z)) d.

Definition plainWasm : WasmModule :=
  {| prepare_transfer p content key :=
       Some (match content with
             | [] => []
             | _ => [ {| file_path := p; chunk_index := 0; total_chunks := 1;
                         chunk_data := plainData content; chunk_nonce := [] |} ]
             end);
     decrypt_chunk chunk key := plainBytes (chunk_data chunk);
     encrypt_data key content := Some (plainData content, []) |}.

(** A service with a session for peer-1, an empty file in its vault and no
    transfer under way; a chunk of the three-chunk file a.md. *)
Definition exampleService : SyncService :=
  {| transferManager := true; wasmModule := true; node := true;
     sessionKeys := {[ "peer-1" := "key" ]};
     vaultContents := {[ "empty.md" := [] ]};
     incomingChunks := ∅; activeTransfers := ∅ |}.

Definition exampleChunk (i : Z) (d : list Z) : FileChunk :=
  {| filePath := "a.md"; chunkIndex := i; totalChunks := 3; data := d; nonce := [] |}.

End Transfer.

(** ** Pairing: [SecurityService.handlePairingRequest] and
    [SecurityService.handlePairingResponse] *)

Module Pairing.

(** The signature functions of the WASM module and of its
    [DeviceIdentity]; an identity is its secret key. *)
Class WasmCrypto := {
  get_public_key : string → string;
  sign : string → string → string;
  verify_signature : string → string → string → bool
}.

Inductive Status := accepted | rejected.

Record PairingRequest := {
  req_requestId : string;
  initiatorDeviceId : string;
  initiatorName : string;
  initiatorPublicKey : string;
  pairingCode : string
}.

Record PairingResponse := {
  requestId : string;
  responderDeviceId : string;
  responderName : string;
  responderPublicKey : string;
  signature : string;
  status : Status
}.

(** The service: the WASM module and the identity may be missing;
    [pendingRequests] holds the request ids whose promise is not settled. *)
Record SecurityService := {
  wasm : bool;
  identity : option string;
  transport : bool;
  deviceId : string;
  pendingRequests : gset string;
  activePairingCode : option string
}.

Definition set_pendingRequests (pending : gset string) (st : SecurityService)
    : SecurityService :=
  {| wasm := wasm st; identity := identity st; transport := transport st;
     deviceId := deviceId st; pendingRequests := pending;
     activePairingCode := activePairingCode st |}.

Inductive PairingEffect :=
| Resolve (request : string)
| Reject (request : string) (message : string)
| SendResponse (response : PairingResponse) (ip : string)
| EmitPairingSuccess (device name : string).

Section WithCrypto.
Context `{WasmCrypto}.

(** [handlePairingRequest]: the responder signs
    [requestId + initiatorPublicKey] when the code is the active one. *)
Definition handlePairingRequest (st : SecurityService) (msg : PairingRequest)
    (senderIp : string) : list PairingEffect :=
  match activePairingCode st with
  | Some code =>
      if negb (String.eqb code EmptyString) && String.eqb code (pairingCode msg)
      then match identity st with
           | Some me =>
               if transport st
               then [SendResponse
                       {| requestId := req_requestId msg;
                          responderDeviceId := deviceId st;
                          responderName := "My Device";
                          responderPublicKey := get_public_key me;
                          signature :=
                            sign me (req_requestId msg +:+ initiatorPublicKey msg);
                          status := accepted |}
                       senderIp;
                     EmitPairingSuccess (initiatorDeviceId msg) (initiatorName msg)]
               else []
           | None => []
           end
      else []
  | None => []
  end.

(** [handlePairingResponse]: the initiator verifies the signature over
    [requestId + its own public key] with the responder's public key. *)
Definition handlePairingResponse (st : SecurityService) (msg : PairingResponse)
    : SecurityService * list PairingEffect :=
  if decide (requestId msg ∈ pendingRequests st) then
    let effs :=
      match status msg with
      | accepted =>
          if wasm st
          then match identity st with
               | Some me =>
                   let dataToVerify := requestId msg +:+ get_public_key me in
                   let isValid :=
                     verify_signature (responderPublicKey msg) dataToVerify
                                      (signature msg) in
                   if isValid
                   then [Resolve (requestId msg);
                         EmitPairingSuccess (responderDeviceId msg) (responderName msg)]
                   else [Reject (requestId msg) "Invalid signature from peer"]
               | None => []
               end
          else []
      | rejected => [Reject (requestId msg) "Pairing rejected by peer"]
      end in
    (set_pendingRequests (pendingRequests st ∖ {[ requestId msg ]}) st, effs)
  else (st, []).

(** Verification accepts a signature only for the message that was
    signed. *)
Definition signature_binds_message : Prop :=
  ∀ signer m m', verify_signature (get_public_key signer) m (sign signer m') = true →
                 m = m'.

(** The response was signed by the holder of the responder key, over the
    request id [other] and the public key of the initiator [me]. *)
Definition signed_over (msg : PairingResponse) (me other : string) : Prop :=
  ∃ responder, responderPublicKey msg = get_public_key responder ∧
               signature msg = sign responder (other +:+ get_public_key me).

End WithCrypto.

(** The trust records: the listener of [main.ts] on pairing_success adds
    the device to [settings.pairedDevices]. *)
Definition onPairingSuccess (paired : list string) (device : string) : list string :=
  if decide (device ∈ paired) then paired else paired ++ [device].

Definition pairedDevicesAfter (paired : list string) (effs : list PairingEffect) : list string :=
  foldl (λ acc e, match e with
                  | EmitPairingSuccess device _ => onPairingSuccess acc device
                  | _ => acc
                  end) paired effs.

(** A transparent stand-in for the signature functions: the public key is
    the secret key and a signature names its key and its message. *)
Definition plainCrypto : WasmCrypto :=
  {| get_public_key sk := sk;
     sign sk m := sk +:+ "|" +:+ m;
     verify_signature pk m sig := String.eqb sig (pk +:+ "|" +:+ m) |}.

(** An initiator waiting for the answer to request r1, and a response
    signed by the responder over the request id r2. *)
Definition initiator : SecurityService :=
  {| wasm := true; identity := Some "key-B"; transport := true; deviceId := "dB";
     pendingRequests := {[ "r1" ]}; activePairingCode := None |}.

Definition forgedResponse : PairingResponse :=
  {| requestId := "r1"; responderDeviceId := "dA"; responderName := "Laptop";
     responderPublicKey := "key-A";
     signature := "key-A|r2key-B";
     status := accepted |}.

End Pairing.

(** ** Discovery: [P2PDiscoveryService] *)

Module Discovery.

Record DiscoveredPeerData := {
  id : string;
  name : string;
  device_id : string;
  last_seen_timestamp : Z;
  addresses : list string;
  service_port : option Z
}.

(** The fields read from a parsed announcement. *)
Record Announcement := {
  peer_id : string;
  ann_device_name : string;
  ann_device_id : string;
  ann_service_port : option Z
}.

(** The service with the timers of the JavaScript runtime.  [ttlTimers]
    maps a peer id to the handle [setTimeout] returned; [scheduled] holds the
    timeouts that are set and neither cleared nor fired, each with the peer
    id its callback hands to [removePeer]; [nextTimer] is the next fresh
    handle. *)
Record DiscoveryService := {
  node : bool;
  isDiscovering : bool;
  peers : gmap string DiscoveredPeerData;
  ttlTimers : gmap string nat;
  scheduled : gmap nat string;
  nextTimer : nat
}.

Inductive Event :=
| discovery_started
| discovery_stopped
| discovery_error
| peer_discovered (peer : DiscoveredPeerData)
| peer_updated (peer : DiscoveredPeerData)
| peer_lost (peer : DiscoveredPeerData)
| peers_cleared.

(** The service after its constructor and [initialize]. *)
Definition initial (hasNode : bool) : DiscoveryService :=
  {| node := hasNode; isDiscovering := false; peers := ∅; ttlTimers := ∅;
     scheduled := ∅; nextTimer := 0 |}.

(** [clearPeerTTLTimer] *)
Definition clearPeerTTLTimer (st : DiscoveryService) (peerId : string) : DiscoveryService :=
  match ttlTimers st !! peerId with
  | Some timer =>
      {| node := node st; isDiscovering := isDiscovering st; peers := peers st;
         ttlTimers := base.delete peerId (ttlTimers st);
         scheduled := base.delete timer (scheduled st);
         nextTimer := nextTimer st |}
  | None => st
  end.

(** [resetPeerTTL]: clear the peer's timer, set a new one. *)
Definition resetPeerTTL (st : DiscoveryService) (peerId : string) : DiscoveryService :=
  let st := clearPeerTTLTimer st peerId in
  let timer := nextTimer st in
  {| node := node st; isDiscovering := isDiscovering st; peers := peers st;
     ttlTimers := <[peerId := timer]> (ttlTimers st);
     scheduled := <[timer := peerId]> (scheduled st);
     nextTimer := S timer |}.

(** [clearAllTTLTimers]: [clearTimeout] on every value, then
    [ttlTimers.clear()]. *)
Definition clearAllTTLTimers (st : DiscoveryService) : DiscoveryService :=
  {| node := node st; isDiscovering := isDiscovering st; peers := peers st;
     ttlTimers := ∅;
     scheduled := filter (λ kv, kv.1 ∉ (map_img (ttlTimers st) : gset nat))
                         (scheduled st);
     nextTimer := nextTimer st |}.

Definition set_peers (ps : gmap string DiscoveredPeerData) (st : DiscoveryService) : DiscoveryService :=
  {| node := node st; isDiscovering := isDiscovering st; peers := ps;
     ttlTimers := ttlTimers st; scheduled := scheduled st;
     nextTimer := nextTimer st |}.

Definition set_isDiscovering (b : bool) (st : DiscoveryService) : DiscoveryService :=
  {| node := node st; isDiscovering := b; peers := peers st;
     ttlTimers := ttlTimers st; scheduled := scheduled st;
     nextTimer := nextTimer st |}.

(** [addPeer] *)
Definition addPeer (st : DiscoveryService) (peer : DiscoveredPeerData) : DiscoveryService * list Event :=
  if negb (node st) then (st, [])
  else
    let isNewPeer := bool_decide (peers st !! id peer = None) in
    let st := set_peers (<[id peer := peer]> (peers st)) st in
    let st := resetPeerTTL st (id peer) in
    (st, [if isNewPeer then peer_discovered peer else peer_updated peer]).

(** [removePeer] *)
Definition removePeer (st : DiscoveryService) (peerId : string) : DiscoveryService * list Event :=
  match peers st !! peerId with
  | None => (st, [])
  | Some peer =>
      let st := set_peers (base.delete peerId (peers st)) st in
      let st := clearPeerTTLTimer st peerId in
      (st, [peer_lost peer])
  end.

(** [startDiscovery]: a second start only warns; without a node it
    throws.  [started] tells whether the node and the transport start
    without an exception. *)
Definition startDiscovery (st : DiscoveryService) (started : bool) : DiscoveryService * list Event :=
  if isDiscovering st then (st, [])
  else if negb (node st) then (st, [])
  else if started then (set_isDiscovering true st, [discovery_started])
  else (set_isDiscovering false st, [discovery_error]).

(** [stopDiscovery] *)
Definition stopDiscovery (st : DiscoveryService) : DiscoveryService * list Event :=
  if negb (isDiscovering st) then (st, [])
  else (clearAllTTLTimers (set_isDiscovering false st), [discovery_stopped]).

(** [clearPeers] *)
Definition clearPeers (st : DiscoveryService) : DiscoveryService * list Event :=
  (clearAllTTLTimers (set_peers ∅ st), [peers_cleared]).

Section WithParser.

(** [JSON.parse] of an announcement; [None] when it throws. *)
Variable parseAnnouncement : string → option Announcement.

(** [handleDiscoveryMessage].  [isNewOrUpdated] is what the node's
    [process_announcement] answers, [None] when it throws; [now] is
    [Date.now()]. *)
Definition handleDiscoveryMessage (st : DiscoveryService) (msg senderIp : string) (now : Z)
    (isNewOrUpdated : option bool) : DiscoveryService * list Event :=
  if negb (node st) then (st, [])
  else match isNewOrUpdated with
       | Some true =>
           match parseAnnouncement msg with
           | Some data =>
               let peer := {| id := peer_id data; name := ann_device_name data;
                              device_id := ann_device_id data;
                              last_seen_timestamp := now;
                              addresses := [senderIp];
                              service_port := ann_service_port data |} in
               let event := if bool_decide (peers st !! id peer = None)
                            then peer_discovered peer else peer_updated peer in
               let st := set_peers (<[id peer := peer]> (peers st)) st in
               (resetPeerTTL st (id peer), [event])
           | None => (st, [])
           end
       | Some false | None => (st, [])
       end.

(** What can happen to the service: its public operations, an
    announcement on the transport, and a timeout of the runtime firing. *)
Inductive Op :=
| OnAnnouncement (msg senderIp : string) (now : Z) (isNewOrUpdated : option bool)
| AddPeer (peer : DiscoveredPeerData)
| RemovePeer (peerId : string)
| StartDiscovery (started : bool)
| StopDiscovery
| ClearPeers
| TimerFires (timer : nat).

(** A pending timeout fires once: it leaves [scheduled] and its callback
    calls [removePeer].  A handle that is not pending does not fire. *)
Definition timerFires (st : DiscoveryService) (timer : nat) : DiscoveryService * list Event :=
  match scheduled st !! timer with
  | Some peerId =>
      removePeer
        {| node := node st; isDiscovering := isDiscovering st; peers := peers st;
           ttlTimers := ttlTimers st;
           scheduled := base.delete timer (scheduled st);
           nextTimer := nextTimer st |}
        peerId
  | None => (st, [])
  end.

Definition step (st : DiscoveryService) (op : Op) : DiscoveryService * list Event :=
  match op with
  | OnAnnouncement msg senderIp now answer =>
      handleDiscoveryMessage st msg senderIp now answer
  | AddPeer peer => addPeer st peer
  | RemovePeer peerId => removePeer st peerId
  | StartDiscovery started => startDiscovery st started
  | StopDiscovery => stopDiscovery st
  | ClearPeers => clearPeers st
  | TimerFires timer => timerFires st timer
  end.

Definition run (st : DiscoveryService) (ops : list Op) : DiscoveryService :=
  foldl (λ st op, (step st op).1) st ops.

End WithParser.

(** Every peer id with a TTL timer is a key of the peer table. *)
Definition timers_within_peers (st : DiscoveryService) : Prop :=
  ∀ peerId timer, ttlTimers st !! peerId = Some timer → is_Some (peers st !! peerId).

(** Every pending timeout is the one registered for its peer, and the
    handles in use are below the next fresh one. *)
Definition timeouts_registered (st : DiscoveryService) : Prop :=
  (∀ timer peerId, scheduled st !! timer = Some peerId →
                   ttlTimers st !! peerId = Some timer) ∧
  (∀ timer peerId, scheduled st !! timer = Some peerId → (timer < nextTimer st)%nat).

(** An announcement parser for examples: the message is the peer id. *)
Definition plainParser (msg : string) : option Announcement :=
  Some {| peer_id := msg; ann_device_name := "Laptop"; ann_device_id := "dA";
          ann_service_port := Some 7000 |}.

(** Device B after the announcement of peer a1, whose TTL timer runs. *)
Definition laptop : DiscoveredPeerData :=
  {| id := "a1"; name := "Laptop"; device_id := "dA"; last_seen_timestamp := 1000;
     addresses := ["10.0.0.2"]; service_port := Some 7000 |}.

Definition deviceB : DiscoveryService :=
  {| node := true; isDiscovering := true; peers := {[ "a1" := laptop ]};
     ttlTimers := {[ "a1" := 0%nat ]}; scheduled := {[ 0%nat := "a1" ]};
     nextTimer := 1 |}.

End Discovery.

(** ** Stream framing: [TcpTransport.sendToSocket] and the data handler of
    [TcpTransport.setupSocket] *)

Module Framing.

(** A byte of a number, as [Buffer] writes it, and back. *)
Definition byte_of_N (n : N) : byte := default x00 (Byte.of_N (n mod 256)%N).

(** [Buffer.prototype.writeUInt32BE(value, 0)] on a fresh four-byte buffer;
    [None] when the value is out of range and the call throws. *)
Definition writeUInt32BE (value : N) : option (list byte) :=
  if (value <=? 4294967295)%N
  then Some [byte_of_N (N.shiftr value 24); byte_of_N (N.shiftr value 16);
             byte_of_N (N.shiftr value 8); byte_of_N value]
  else None.

(** [Buffer.prototype.readUInt32BE(0)]; [None] with fewer than four bytes. *)
Definition readUInt32BE (buffer : list byte) : option N :=
  match buffer with
  | b0 :: b1 :: b2 :: b3 :: _ =>
      Some (N.lor (N.shiftl (Byte.to_N b0) 24)
             (N.lor (N.shiftl (Byte.to_N b1) 16)
                (N.lor (N.shiftl (Byte.to_N b2) 8) (Byte.to_N b3))))
  | _ => None
  end.

(** What [sendToSocket] writes for the bytes of a message: the length,
    then the bytes. *)
Definition frame (payload : list byte) : option (list byte) :=
  lengthBuffer ← writeUInt32BE (N.of_nat (length payload));
  Some (lengthBuffer ++ payload).

(** The two variables the data handler of [setupSocket] closes over. *)
Record Reader := { buffer : list byte; expectedLength : option N }.

Definition idle : Reader := {| buffer := []; expectedLength := None |}.

(** The [while (true)] loop of the data handler: the reader it leaves and
    the message buffers it cuts off, oldest first.  Every turn that does not
    break shortens the buffer or clears [expectedLength]; [fuel] bounds the
    turns. *)
Fixpoint readLoop (fuel : nat) (buf : list byte) (expected : option N)
    : Reader * list (list byte) :=
  match fuel with
  | O => ({| buffer := buf; expectedLength := expected |}, [])
  | S fuel =>
      let header :=
        match expected with
        | None =>
            match readUInt32BE buf with
            | Some n => Some (n, drop 4 buf)
            | None => None
            end
        | Some n => Some (n, buf)
        end in
      match header with
      | None => ({| buffer := buf; expectedLength := None |}, [])
      | Some (n, buf) =>
          if (N.to_nat n <=? length buf)%nat
          then let '(st, messages) := readLoop fuel (drop (N.to_nat n) buf) None in
               (st, take (N.to_nat n) buf :: messages)
          else ({| buffer := buf; expectedLength := Some n |}, [])
      end
  end.

(** The loop run to its [break]. *)
Definition readAll (buf : list byte) (expected : option N) : Reader * list (list byte) :=
  readLoop (S (S (length buf))) buf expected.

(** The data handler: append the chunk, run the loop. *)
Definition onData (st : Reader) (chunk : list byte) : Reader * list (list byte) :=
  readAll (buffer st ++ chunk) (expectedLength st).

(** The reader the loop leaves has nothing more to read. *)
Definition settled (st : Reader) : Prop :=
  readAll (buffer st) (expectedLength st) = (st, []).

(** Chunks arriving one after the other. *)
Fixpoint feed (st : Reader) (chunks : list (list byte)) : Reader * list (list byte) :=
  match chunks with
  | [] => (st, [])
  | chunk :: rest =>
      let '(st', messages) := onData st chunk in
      let '(st'', messages') := feed st' rest in
      (st'', messages ++ messages')
  end.

(** Two messages, the second empty, as [sendToSocket] writes them, and
    the chunks in which a stream may hand them over. *)
Definition twoMessages : list (list byte) := [[x7b; x7d]; []]%byte.
Definition twoFrames : list (list byte) :=
  [[x00; x00; x00; x02; x7b; x7d]; [x00; x00; x00; x00]]%byte.
Definition someChunks : list (list byte) :=
  [[x00; x00; x00]; [x02; x7b]; []; [x7d; x00; x00; x00; x00]]%byte.

End Framing.

(** ** Transfers: what the transfer manager is to give, and the transfers
    under way *)

Module TransferLaws.
Import Transfer.

(** What a transfer manager that works gives for a content: chunks of the
    file numbered from 0, each declaring how many there are, whose plain
    texts make up the content. *)
Definition prepares `{WasmModule} (p : string) (content : list byte) (key : string)
    (cs : list Chunk) : Prop :=
  Forall (λ c, file_path c = p ∧ total_chunks c = Z.of_nat (length cs)) cs ∧
  chunk_index <$> cs = seqZ 0 (Z.of_nat (length cs)) ∧
  ∃ parts, mapM (λ c, decrypt_chunk c key) cs = Some parts ∧ concat parts = content.


(** A second stand-in for the WASM module: transparent as [plainWasm],
    it puts every content, the empty one too, in one chunk. *)
Definition wholeWasm : WasmModule :=
  {| prepare_transfer p content key :=
       Some [ {| file_path := p; chunk_index := 0; total_chunks := 1;
                 chunk_data := plainData content; chunk_nonce := [] |} ];
     decrypt_chunk chunk key := plainBytes (chunk_data chunk);
     encrypt_data key content := Some (plainData content, []) |}.

(** A content of three bytes that the stand-in prepares as one chunk. *)
Definition senderService : SyncService :=
  {| transferManager := true; wasmModule := true; node := true;
     sessionKeys := {[ "peer-2" := "key" ]};
     vaultContents := <[ "a.md" := [x68; x69; x21]%byte ]> {[ "empty.md" := [] ]};
     incomingChunks := ∅; activeTransfers := ∅ |}.

(** The session requests of a run. *)
Definition sessionRequests (effs : list TransferEffect) : list string :=
  omap (λ e, match e with InitiateSession q => Some q | _ => None end) effs.

(** The example service after the chunk 0 of a.md arrived. *)
Definition oneChunkService : SyncService :=
  {| transferManager := true; wasmModule := true; node := true;
     sessionKeys := {[ "peer-1" := "key" ]};
     vaultContents := {[ "empty.md" := [] ]};
     incomingChunks :=
       {[ "peer-1:a.md" := {| chunks := [(0, exampleChunk 0 [104])];
                              total := 3; path := "a.md" |} ]};
     activeTransfers := ∅ |}.

End TransferLaws.

(** ** Reconciliation: the other changes of the plan, and what the snapshot
    of [handleSyncRequest] holds *)

Module ReconciliationLaws.
Import Reconciliation.

(** The two other changes the loops can push for a path [p]. *)
Definition pushNewer (p : string) : SyncChange :=
  {| change_path := p; change_type := type_push; change_reason := "Local is newer" |}.
Definition pushMissing (p : string) : SyncChange :=
  {| change_path := p; change_type := type_push;
     change_reason := "Remote missing file" |}.

(** The time the first loop reads from what it finds at a path:
    [localFile instanceof TFile ? BigInt(localFile.stat.mtime) : BigInt(0)]. *)
Definition localMtime (f : TAbstractFile) : Z :=
  match f with TFile m => m | TFolder => 0 end.

(** The journal marks [p] deleted, at time [t]. *)
Definition tombstoneAt (j : option (gmap string FileMetadata)) (p : string) (t : Z)
    : Prop :=
  ∃ files md, j = Some files ∧ files !! p = Some md ∧
              is_deleted md = true ∧ md_mtime md = t.

(** A second device: the same vault as device A, and a journal that knows nothing
    of gone.md but marks old.md deleted. *)
Definition sameVaultDevice : Local :=
  {| node := true;
     sessionKey := Some "session-key";
     vault := {[ "note.md" := TFile 100 ]};
     journal := Some {[ "old.md" := {| md_mtime := 40; is_deleted := true |} ]} |}.

End ReconciliationLaws.

(** ** Sessions: [SyncService.initiateSession], the SESSION_ANSWER case of
    [handleMessage] and [syncAllFilesToPeer] *)

Module Sessions.
Import Handshake.

(** What these handlers send. *)
Inductive Outgoing (Offer : Type) :=
| OfferMessage (offer : Offer)
| SYNC_REQUEST.
Arguments OfferMessage {Offer} offer.
Arguments SYNC_REQUEST {Offer}.

Section SessionHandling.

(** As for the offers, the key exchanges and the state of the security
    service belong to [SecurityService] and the WASM module.
    [getSessionKey] is read by truthiness: [None] is any falsy value.

    The handlers are [async] and nobody awaits them: a handler runs until
    its first [await], and its continuation runs later, after whatever else
    was dispatched meanwhile.  Each handler is therefore given in two parts,
    up to its [await] and from it on; what a call into the security service
    does to that service is taken to be done when the call is made. *)
Variables KeyExchange Offer Answer SecurityState : Type.
Variable createSessionOffer :
  SecurityState → string → SecurityState * Completion (Offer * KeyExchange).
Variable handleSessionAnswer :
  SecurityState → string → Answer → KeyExchange → SecurityState * Completion unit.
Variable getSessionKey : SecurityState → string → option string.

Local Abbreviation State := (State KeyExchange SecurityState).

(** [initiateSession(peerId)] up to [await createSessionOffer]: nothing
    while an offer is pending for the peer; otherwise the call is made.
    [Some] holds what the awaited call will give. *)
Definition initiateSessionStart (st : State) (peerId : string)
    : State * option (Completion (Offer * KeyExchange)) :=
  match pendingSessionOffers st !! peerId with
  | Some _ => (st, None)
  | None =>
      let '(sec', completion) := createSessionOffer (securityService st) peerId in
      ({| pendingSessionOffers := pendingSessionOffers st; securityService := sec' |},
       Some completion)
  end.

(** [initiateSession] from the [await] on, in the state of that moment:
    the offer is recorded and sent.  An exception of [createSessionOffer] is
    caught and logged. *)
Definition initiateSessionResume (st : State) (peerId : string)
    (completion : Completion (Offer * KeyExchange))
    : State * list (string * Outgoing Offer) :=
  match completion with
  | Returns (offer, keyExchange) =>
      ({| pendingSessionOffers := <[peerId := keyExchange]> (pendingSessionOffers st);
          securityService := securityService st |},
       [(peerId, OfferMessage offer)])
  | Throws => (st, [])
  end.

(** A call of [initiateSession] between whose two parts nothing else
    runs. *)
Definition initiateSession (st : State) (peerId : string)
    : State * list (string * Outgoing Offer) :=
  let '(st', awaited) := initiateSessionStart st peerId in
  match awaited with
  | Some completion => initiateSessionResume st' peerId completion
  | None => (st', [])
  end.

(** [syncAllFilesToPeer(peerId)] up to its [await]: with a session key the
    state exchange is asked for and the function ends; without one
    [initiateSession] is called and awaited. *)
Definition syncAllFilesToPeerStart (st : State) (peerId : string)
    : State * list (string * Outgoing Offer) * option (Completion (Offer * KeyExchange)) :=
  match getSessionKey (securityService st) peerId with
  | None =>
      let '(st', awaited) := initiateSessionStart st peerId in (st', [], awaited)
  | Some _ => (st, [(peerId, SYNC_REQUEST)], None)
  end.

(** [syncAllFilesToPeer] with nothing running in between. *)
Definition syncAllFilesToPeer (st : State) (peerId : string)
    : State * list (string * Outgoing Offer) :=
  match getSessionKey (securityService st) peerId with
  | None => initiateSession st peerId
  | Some _ => (st, [(peerId, SYNC_REQUEST)])
  end.

(** The handler of a SESSION_ANSWER up to [await handleSessionAnswer]: with
    a key exchange pending for the peer the call is made, the pending offer
    staying where it is. *)
Definition sessionAnswerStart (st : State) (peerId : string) (message : Answer)
    : State * option (Completion unit) :=
  match pendingSessionOffers st !! peerId with
  | Some keyExchange =>
      let '(sec', completion) :=
        handleSessionAnswer (securityService st) peerId message keyExchange in
      ({| pendingSessionOffers := pendingSessionOffers st; securityService := sec' |},
       Some completion)
  | None => (st, None)
  end.

(** The handler from the [await] on, in the state of that moment: the
    pending offer is deleted and [syncAllFilesToPeer] called, not awaited.
    When [handleSessionAnswer] has thrown, the exception is caught and the
    pending offer is not deleted. *)
Definition sessionAnswerResume (st : State) (peerId : string) (completion : Completion unit)
    : State * list (string * Outgoing Offer) * option (Completion (Offer * KeyExchange)) :=
  match completion with
  | Returns _ =>
      syncAllFilesToPeerStart
        {| pendingSessionOffers := base.delete peerId (pendingSessionOffers st);
           securityService := securityService st |} peerId
  | Throws => (st, [], None)
  end.

(** The handler of a SESSION_ANSWER, and what it calls, with nothing else
    running in between. *)
Definition handleSessionAnswerMessage (st : State) (peerId : string) (message : Answer)
    : State * list (string * Outgoing Offer) :=
  let '(st', awaited) := sessionAnswerStart st peerId message in
  match awaited with
  | Some (Returns _) =>
      syncAllFilesToPeer
        {| pendingSessionOffers := base.delete peerId (pendingSessionOffers st');
           securityService := securityService st' |} peerId
  | Some Throws | None => (st', [])
  end.

End SessionHandling.

(** A security service for examples: its state is the list of the peers it
    has a key with; it creates the offer "offer" with the exchange [tt],
    and accepts the answer "ok" only. *)
Definition exampleCreate (sec : list string) (peerId : string)
    : list string * Completion (string * unit) :=
  (sec, Returns ("offer", tt)).
Definition exampleAnswer (sec : list string) (peerId : string) (message : string)
    (keyExchange : unit) : list string * Completion unit :=
  if String.eqb message "ok" then (peerId :: sec, Returns tt) else (sec, Throws).
Definition exampleKey (sec : list string) (peerId : string) : option string :=
  if bool_decide (peerId ∈ sec) then Some "key" else None.

Definition waiting : State unit (list string) :=
  {| pendingSessionOffers := {[ "peer-1" := tt ]}; securityService := [] |}.

Definition noSession : State unit (list string) :=
  {| pendingSessionOffers := ∅; securityService := [] |}.

End Sessions.

(** ** Pairing: the pairing code, [SecurityService.initiatePairing] and the
    list of paired devices *)

Module PairingLaws.
Import Pairing.

Definition set_activePairingCode (code : option string) (st : SecurityService)
    : SecurityService :=
  {| wasm := wasm st; identity := identity st; transport := transport st;
     deviceId := deviceId st; pendingRequests := pendingRequests st;
     activePairingCode := code |}.

(** [generatePairingCode()], [code] being what [wasm.generate_pairing_code]
    returns.  [None]: it throws, WASM is not initialised. *)
Definition generatePairingCode (st : SecurityService) (code : string)
    : option SecurityService :=
  if wasm st then Some (set_activePairingCode (Some code) st) else None.

(** The callback of the timer that [generatePairingCode] sets for [code],
    60 seconds later. *)
Definition codeExpires (st : SecurityService) (code : string) : SecurityService :=
  match activePairingCode st with
  | Some active => if String.eqb active code then set_activePairingCode None st else st
  | None => st
  end.

(** [initiatePairing(peer, code)] up to the point where it waits, for a
    peer with these [addresses]; [requestId] is the random id it draws.  It
    gives the request and the address it is sent to.  [None]: it throws. *)
Definition initiatePairing `{WasmCrypto} (st : SecurityService) (addresses : list string)
    (code requestId : string) : option (SecurityService * PairingRequest * string) :=
  if transport st then
    match identity st with
    | Some me =>
        match addresses with
        | targetIp :: _ =>
            if String.eqb targetIp EmptyString then None
            else Some (set_pendingRequests ({[ requestId ]} ∪ pendingRequests st) st,
                       {| req_requestId := requestId;
                          initiatorDeviceId := deviceId st;
                          initiatorName := "My Device";
                          initiatorPublicKey := get_public_key me;
                          pairingCode := code |},
                       targetIp)
        | [] => None
        end
    | None => None
    end
  else None.

(** [isPaired] and [addPairedDevice]. *)
Definition isPaired (device : string) (pairedDevices : list string) : bool :=
  bool_decide (device ∈ pairedDevices).
Definition addPairedDevice (device : string) (pairedDevices : list string) : list string :=
  if negb (isPaired device pairedDevices) then pairedDevices ++ [device]
  else pairedDevices.

(** A signature verifies against the public key of its signer. *)
Definition signature_verifies `{WasmCrypto} : Prop :=
  ∀ signer m, verify_signature (get_public_key signer) m (sign signer m) = true.

(** A responder showing the code 123456, and an initiator about to pair. *)
Definition responder : SecurityService :=
  {| wasm := true; identity := Some "key-A"; transport := true; deviceId := "dA";
     pendingRequests := ∅; activePairingCode := Some "123456" |}.
Definition idleInitiator : SecurityService :=
  {| wasm := true; identity := Some "key-B"; transport := true; deviceId := "dB";
     pendingRequests := ∅; activePairingCode := None |}.
Definition requestWith (code : string) : PairingRequest :=
  {| req_requestId := "r1"; initiatorDeviceId := "dB"; initiatorName := "My Device";
     initiatorPublicKey := "key-B"; pairingCode := code |}.
Definition honestResponse : PairingResponse :=
  {| requestId := "r1"; responderDeviceId := "dA"; responderName := "My Device";
     responderPublicKey := "key-A"; signature := "key-A|r1key-B";
     status := accepted |}.

End PairingLaws.

(** ** Connections: [TcpTransport.handleMessage], [send], [disconnect] and
    [disconnectAll] *)

Module Connections.
Import Framing.

(** A message after [JSON.parse], as [handleMessage] reads it: a
    HANDSHAKE with its [peerId], or anything else. *)
Inductive Parsed :=
| HANDSHAKE (peerId : string)
| Payload (message : string).

(** Sockets are told apart by a number. *)
Inductive TcpEffect :=
| SocketWrite (socket : nat) (bytes : list byte)
| SocketEnd (socket : nat)
| SocketDestroy (socket : nat)
| EmitConnected (peerId : string)
| EmitDisconnected (peerId : string)
| EmitMessage (message : string) (senderId : string).

(** [connections] is a JavaScript [Map]: its entries in insertion order,
    with [get], [set] and [delete]. *)
Fixpoint connGet (peerId : string) (m : list (string * nat)) : option nat :=
  match m with
  | [] => None
  | (k, socket) :: m' => if String.eqb peerId k then Some socket else connGet peerId m'
  end.

Fixpoint connSet (peerId : string) (socket : nat) (m : list (string * nat))
    : list (string * nat) :=
  match m with
  | [] => [(peerId, socket)]
  | (k, s) :: m' =>
      if String.eqb peerId k then (k, socket) :: m' else (k, s) :: connSet peerId socket m'
  end.

Fixpoint connDelete (peerId : string) (m : list (string * nat)) : list (string * nat) :=
  match m with
  | [] => []
  | (k, s) :: m' => if String.eqb peerId k then m' else (k, s) :: connDelete peerId m'
  end.

(** The loop [for (const [id, s] of this.connections.entries())] that
    looks for the id a socket is registered under: the first one. *)
Fixpoint idOfSocket (socket : nat) (m : list (string * nat)) : option string :=
  match m with
  | [] => None
  | (k, s) :: m' => if Nat.eqb s socket then Some k else idOfSocket socket m'
  end.

(** Truthiness of an optional peer id: [undefined] and the empty string
    are falsy. *)
Definition truthyId (peerId : option string) : bool :=
  match peerId with
  | Some s => negb (String.eqb s EmptyString)
  | None => false
  end.

(** [handleMessage(socket, message, knownPeerId)] *)
Definition handleMessage (connections : list (string * nat)) (socket : nat)
    (message : Parsed) (knownPeerId : option string)
    : list (string * nat) * list TcpEffect :=
  match message with
  | HANDSHAKE remotePeerId =>
      (connSet remotePeerId socket connections,
       if truthyId knownPeerId then [] else [EmitConnected remotePeerId])
  | Payload m =>
      let senderId :=
        if truthyId knownPeerId then knownPeerId else idOfSocket socket connections in
      (connections,
       match senderId with
       | Some sender => if truthyId senderId then [EmitMessage m sender] else []
       | None => []
       end)
  end.

(** [sendToSocket], for the bytes of the JSON text: two writes.  [None]:
    [writeUInt32BE] throws. *)
Definition sendToSocket (socket : nat) (data : list byte) : option (list TcpEffect) :=
  lengthBuffer ← writeUInt32BE (N.of_nat (length data));
  Some [SocketWrite socket lengthBuffer; SocketWrite socket data].

(** [send(peerId, data)] *)
Definition send (connections : list (string * nat)) (peerId : string) (data : list byte)
    : option (list TcpEffect) :=
  match connGet peerId connections with
  | Some socket => sendToSocket socket data
  | None => Some []
  end.

(** [disconnect(peerId)] *)
Definition disconnect (connections : list (string * nat)) (peerId : string)
    : list (string * nat) * list TcpEffect :=
  match connGet peerId connections with
  | Some socket =>
      (connDelete peerId connections,
       [SocketEnd socket; SocketDestroy socket; EmitDisconnected peerId])
  | None => (connections, [])
  end.

(** The 'close' handler that [setupSocket(socket, peerId)] registers;
    [peerId] is given for the sockets that [connectToPeer] makes, and
    [undefined] for accepted ones. *)
Definition onClose (connections : list (string * nat)) (socket : nat)
    (peerId : option string) : list (string * nat) * list TcpEffect :=
  let disconnectedPeerId :=
    if truthyId peerId then peerId else idOfSocket socket connections in
  match disconnectedPeerId with
  | Some peer =>
      if truthyId disconnectedPeerId
      then (connDelete peer connections, [EmitDisconnected peer])
      else (connections, [])
  | None => (connections, [])
  end.

(** The loop of [disconnectAll()].  The iterator over the keys is live;
    [disconnect] deletes the entry being visited and no other, so the loop
    visits the keys the [Map] holds when it starts, in order.  The 'close'
    events that [socket.destroy()] raises come after the loop: see
    [disconnectAllThenClose]. *)
Fixpoint disconnectEach (connections : list (string * nat)) (peerIds : list string)
    : list (string * nat) * list TcpEffect :=
  match peerIds with
  | [] => (connections, [])
  | peerId :: rest =>
      let '(connections', effs) := disconnect connections peerId in
      let '(connections'', effs') := disconnectEach connections' rest in
      (connections'', effs ++ effs')
  end.

Definition disconnectAll (connections : list (string * nat))
    : list (string * nat) * list TcpEffect :=
  disconnectEach connections connections.*1.

(** The sockets a run destroys, each once. *)
Definition destroyed (effs : list TcpEffect) : list nat :=
  remove_dups (omap (λ e, match e with SocketDestroy s => Some s | _ => None end) effs).

(** The 'close' events of these sockets, one after the other; [peerIdOf]
    gives the peer id with which each socket was set up. *)
Fixpoint closeEach (connections : list (string * nat)) (sockets : list nat)
    (peerIdOf : nat → option string) : list (string * nat) * list TcpEffect :=
  match sockets with
  | [] => (connections, [])
  | socket :: rest =>
      let '(connections', effs) := onClose connections socket (peerIdOf socket) in
      let '(connections'', effs') := closeEach connections' rest peerIdOf in
      (connections'', effs ++ effs')
  end.

(** [disconnectAll()] and then the 'close' event of every socket it
    destroyed. *)
Definition disconnectAllThenClose (connections : list (string * nat))
    (peerIdOf : nat → option string) : list (string * nat) * list TcpEffect :=
  let '(connections', effs) := disconnectAll connections in
  let '(connections'', effs') := closeEach connections' (destroyed effs) peerIdOf in
  (connections'', effs ++ effs').

(** The peer ids reported disconnected. *)
Definition disconnectedPeers (effs : list TcpEffect) : list string :=
  omap (λ e, match e with EmitDisconnected peer => Some peer | _ => None end) effs.

(** Socket 1 was made by [connectToPeer] for p1, the others were
    accepted. *)
Definition dialledFirst (socket : nat) : option string :=
  if Nat.eqb socket 1 then Some "p1" else None.

(** The bytes written to a socket. *)
Definition bytesWritten (socket : nat) (effs : list TcpEffect) : list byte :=
  concat (omap (λ e, match e with
                     | SocketWrite s bytes => if Nat.eqb s socket then Some bytes else None
                     | _ => None
                     end) effs).

(** A transport with one connection, to p1 on socket 1. *)
Definition oneConnection : list (string * nat) := [("p1", 1%nat)].

End Connections.

(** * Properties *)

Module ReconciliationFacts.
Import Reconciliation.

Implicit Types (v : gmap string TAbstractFile) (d : gmap string Z)
  (j : option (gmap string FileMetadata)) (r : RemoteFile)
  (rs : list RemoteFile) (c : SyncChange) (cs : list SyncChange) (p : string).

(** *** The two loops *)

Lemma remoteLoop_thrown v d rs : foldl (remoteStep v d) None rs = None.
Proof. by induction rs. Qed.

(** An entry that throws ends the first loop. *)
Lemma remoteLoop_None v d rs r (acc : gset string * list SyncChange) :
  r ∈ rs → reconcileEntry v d r = None →
  foldl (remoteStep v d) (Some acc) rs = None.
Proof.
  revert acc. induction rs as [|r' rs IH]; intros [paths changes] Hr Hthrows;
    [by apply elem_of_nil in Hr|].
  simpl. apply elem_of_cons in Hr as [<-|Hr].
  - rewrite Hthrows. apply remoteLoop_thrown.
  - destruct (reconcileEntry v d r'); [by eapply IH | apply remoteLoop_thrown].
Qed.

(** When no entry throws, the loop collects the paths and the changes of
    the entries, in order. *)
Lemma remoteLoop_acc v d rs (acc : gset string * list SyncChange) :
  (∀ r, r ∈ rs → is_Some (reconcileEntry v d r)) →
  foldl (remoteStep v d) (Some acc) rs =
  Some (list_to_set (path <$> rs) ∪ acc.1,
        acc.2 ++ (rs ≫= λ r, default [] (reconcileEntry v d r))).
Proof.
  revert acc.
  induction rs as [|r rs IH]; intros [paths changes] Hall; simpl.
  - f_equal. f_equal; [by rewrite (left_id_L ∅ (∪)) | by rewrite app_nil_r].
  - destruct (Hall r ltac:(by left)) as [pushed Hr]. rewrite Hr.
    rewrite IH by (intros r' Hr'; apply Hall; by right). simpl.
    f_equal. f_equal; [|by rewrite app_assoc].
    rewrite (comm_L (∪) {[path r]} (list_to_set _)).
    by rewrite (assoc_L (∪)).
Qed.

Lemma computeChanges_None v j rs r :
  r ∈ rs → reconcileEntry v (myDeletedFiles j) r = None →
  computeChanges v j rs = None.
Proof.
  intros Hr Hthrows. unfold computeChanges, remoteLoop.
  by rewrite (remoteLoop_None _ _ _ r).
Qed.

Lemma computeChanges_eq v j rs :
  (∀ r, r ∈ rs → is_Some (reconcileEntry v (myDeletedFiles j) r)) →
  computeChanges v j rs =
  Some ((rs ≫= λ r, default [] (reconcileEntry v (myDeletedFiles j) r))
          ++ localLoop (list_to_set (path <$> rs)) (getFiles v)).
Proof.
  intros Hall. unfold computeChanges, remoteLoop. rewrite remoteLoop_acc by done.
  simpl. by rewrite (right_id_L ∅ (∪)).
Qed.

(** A plan exists exactly when no entry throws. *)
Lemma computeChanges_Some v j rs cs :
  computeChanges v j rs = Some cs →
  (∀ r, r ∈ rs → is_Some (reconcileEntry v (myDeletedFiles j) r)) ∧
  cs = (rs ≫= λ r, default [] (reconcileEntry v (myDeletedFiles j) r))
         ++ localLoop (list_to_set (path <$> rs)) (getFiles v).
Proof.
  intros Hcs.
  assert (Hall : ∀ r, r ∈ rs → is_Some (reconcileEntry v (myDeletedFiles j) r)).
  { intros r Hr.
    destruct (reconcileEntry v (myDeletedFiles j) r) as [pushed|] eqn:Hp; [by eexists|].
    by rewrite (computeChanges_None _ _ _ r Hr Hp) in Hcs. }
  split; [done|]. rewrite (computeChanges_eq _ _ _ Hall) in Hcs. congruence.
Qed.

(** The plan of [handleSyncResponse] is what the two loops compute, and
    is empty when the first loop throws. *)
Lemma plan_handleSyncResponse (st : Local) k rs :
  node st = true → sessionKey st = Some k →
  plan (handleSyncResponse st rs) = default [] (computeChanges (vault st) (journal st) rs).
Proof.
  intros Hn Hk. unfold handleSyncResponse. rewrite Hn, Hk. simpl.
  destruct (computeChanges _ _ _) as [[|c cs]|] eqn:E; [done| |done].
  simpl. by destruct (10 <? S (length cs))%nat.
Qed.

Lemma plan_cases (st : Local) rs :
  plan (handleSyncResponse st rs) = [] ∨
  computeChanges (vault st) (journal st) rs = Some (plan (handleSyncResponse st rs)).
Proof.
  unfold handleSyncResponse. destruct (negb (node st)); [by left|].
  destruct (sessionKey st); [|by left].
  destruct (computeChanges _ _ _) as [[|c cs]|]; [by left| |by left]. right.
  simpl. by destruct (10 <? S (length cs))%nat.
Qed.

(** A handler that has a node and a session key and does not throw has
    computed its plan. *)
Lemma completed_plan (st : Local) k rs :
  node st = true → sessionKey st = Some k →
  handleSyncResponse st rs ≠ Throws →
  computeChanges (vault st) (journal st) rs = Some (plan (handleSyncResponse st rs)).
Proof.
  intros Hn Hk. unfold handleSyncResponse. rewrite Hn, Hk. simpl.
  destruct (computeChanges _ _ _) as [[|c cs]|]; [done| |done]. intros _.
  simpl. by destruct (10 <? S (length cs))%nat.
Qed.

Lemma reconcileEntry_path v d r cs c :
  reconcileEntry v d r = Some cs → c ∈ cs → change_path c = path r.
Proof.
  unfold reconcileEntry.
  repeat case_match; intros [= <-] Hc;
    repeat match goal with
           | H : _ ∈ [] |- _ => by apply not_elem_of_nil in H
           | H : _ ∈ [_] |- _ => apply list_elem_of_singleton in H; subst
           end; done.
Qed.

Lemma elem_of_getFiles v p (m : Z) :
  (p, m) ∈ getFiles v ↔ v !! p = Some (TFile m).
Proof.
  unfold getFiles. rewrite list_elem_of_omap. split.
  - intros [[q f] [Hin Hf]]. apply elem_of_map_to_list in Hin.
    simpl in Hf. destruct f; simplify_eq. done.
  - intros Hv. exists (p, TFile m). split; [by apply elem_of_map_to_list | done].
Qed.

Lemma localLoop_path (paths : gset string) (files : list (string * Z)) c :
  c ∈ localLoop paths files → change_path c ∉ paths.
Proof.
  unfold localLoop. rewrite list_elem_of_omap.
  intros [[q m] [_ Hc]]. simpl in Hc. case_decide; simplify_eq. done.
Qed.

Lemma localLoop_nil (paths : gset string) (files : list (string * Z)) :
  (∀ p m, (p, m) ∈ files → p ∈ paths) → localLoop paths files = [].
Proof.
  intros Hall. unfold localLoop.
  induction files as [|[p m] files IH]; [done|]. simpl.
  rewrite decide_True by (eapply Hall; by left).
  apply IH. intros q n Hq. eapply Hall. by right.
Qed.

(** A change of the plan about a path of the remote snapshot was pushed
    for one of the snapshot's entries for that path. *)
Lemma computeChanges_inv v j rs cs c :
  computeChanges v j rs = Some cs →
  c ∈ cs →
  change_path c ∈ path <$> rs →
  ∃ r pushed, r ∈ rs ∧ path r = change_path c ∧
              reconcileEntry v (myDeletedFiles j) r = Some pushed ∧ c ∈ pushed.
Proof.
  intros [Hall ->]%computeChanges_Some [Hc|Hc]%elem_of_app Hp.
  - apply list_elem_of_bind in Hc as [r [Hc Hr]].
    destruct (Hall r Hr) as [pushed Hpushed]. rewrite Hpushed in Hc. simpl in Hc.
    exists r, pushed. split; [done|]. split; [|done].
    symmetry. by eapply reconcileEntry_path.
  - apply localLoop_path in Hc. exfalso. apply Hc.
    by apply elem_of_list_to_set.
Qed.

Lemma computeChanges_entry v j rs cs r pushed c :
  computeChanges v j rs = Some cs →
  r ∈ rs → reconcileEntry v (myDeletedFiles j) r = Some pushed → c ∈ pushed →
  c ∈ cs.
Proof.
  intros [Hall ->]%computeChanges_Some Hr Hpushed Hc.
  rewrite elem_of_app. left.
  apply list_elem_of_bind. exists r. split; [|done]. by rewrite Hpushed.
Qed.

(** When [r] is the snapshot's only entry for its path, the plan's changes
    for that path are those pushed for [r]. *)
Lemma computeChanges_only v j rs cs r c :
  computeChanges v j rs = Some cs →
  r ∈ rs → (∀ r', r' ∈ rs → path r' = path r → r' = r) →
  c ∈ cs → change_path c = path r →
  ∃ pushed, reconcileEntry v (myDeletedFiles j) r = Some pushed ∧ c ∈ pushed.
Proof.
  intros Hcs Hr Huniq Hc Hp.
  destruct (computeChanges_inv v j rs cs c Hcs Hc) as (r' & pushed & Hr' & Hp' & Hpushed & Hin).
  - rewrite Hp. by apply list_elem_of_fmap_2.
  - assert (r' = r) as -> by (apply Huniq; [done | congruence]). eauto.
Qed.

Lemma only_entry_singleton r r' :
  r' ∈ [r] → path r' = path r → r' = r.
Proof. by intros ->%list_elem_of_singleton _. Qed.

(** What one entry pushes makes the plan's actions for its path, when the
    handler completes and the entry is the only one of its path. *)
Lemma plan_of_entry (st : Local) k rs r pushed :
  node st = true → sessionKey st = Some k →
  handleSyncResponse st rs ≠ Throws →
  r ∈ rs →
  reconcileEntry (vault st) (myDeletedFiles (journal st)) r = Some pushed →
  (∀ c, c ∈ pushed → c ∈ plan (handleSyncResponse st rs)) ∧
  ((∀ r', r' ∈ rs → path r' = path r → r' = r) →
   ∀ c, c ∈ plan (handleSyncResponse st rs) → change_path c = path r → c ∈ pushed).
Proof.
  intros Hn Hk Hok Hr Hpushed.
  pose proof (completed_plan st k rs Hn Hk Hok) as Hcs. split.
  - intros c Hc. by eapply computeChanges_entry.
  - intros Huniq c Hc Hp.
    destruct (computeChanges_only _ _ _ _ r c Hcs Hr Huniq Hc Hp) as (pushed' & Hp' & Hin).
    congruence.
Qed.

(** *** The tombstone rule *)

(** A remote tombstone deleted at [mtime r], against a local file of the
    same path last modified at [t1], in a run of the handler that does not
    throw: when [t1 < mtime r] the plan holds the delete action for the path;
    when [mtime r < t1] (and the snapshot has this one entry for the path) the
    plan holds no action for the path. *)
Lemma tombstone_against_local_file (st : Local) k rs r (t1 : Z) :
  node st = true → sessionKey st = Some k →
  handleSyncResponse st rs ≠ Throws →
  r ∈ rs → isDeleted r = true →
  vault st !! path r = Some (TFile t1) →
  (t1 < mtime r → deleteChange (path r) ∈ plan (handleSyncResponse st rs)) ∧
  (mtime r < t1 → (∀ r', r' ∈ rs → path r' = path r → r' = r) →
   no_action (path r) (plan (handleSyncResponse st rs))).
Proof.
  intros Hn Hk Hok Hr Hdel Hv.
  assert (Hentry : reconcileEntry (vault st) (myDeletedFiles (journal st)) r =
                   Some (if t1 <? mtime r then [deleteChange (path r)] else [])).
  { unfold reconcileEntry. rewrite Hdel, Hv. by destruct (t1 <? mtime r). }
  destruct (plan_of_entry st k rs r _ Hn Hk Hok Hr Hentry) as [Hin Honly].
  split.
  - intros Hlt. apply Hin. apply Z.ltb_lt in Hlt. rewrite Hlt. by left.
  - intros Hlt Huniq c Hc Hp.
    pose proof (Honly Huniq c Hc Hp) as Hc'.
    assert ((t1 <? mtime r) = false) as Hf by (apply Z.ltb_ge; lia).
    rewrite Hf in Hc'. by apply not_elem_of_nil in Hc'.
Qed.

(** C1. The rule fails on the code when the snapshot also holds a live
    entry, without local file, whose path is a property name that plain
    objects inherit.  Device A holds note.md modified at 100; the snapshot
    holds a tombstone for note.md deleted at 500 and the live file
    constructor.  Reading [myDeletedFiles["constructor"]] gives an inherited
    function, [BigInt] of it throws, and the handler is left with no plan:
    the delete of note.md, which the tombstone alone yields, is not emitted. *)
Theorem C1_inherited_path_aborts_the_delete :
  vault deviceA !! "note.md" = Some (TFile 100) ∧
  handleSyncResponse deviceA
    [remoteLive "constructor" 50; remoteTombstone "note.md" 500] = Throws ∧
  plan (handleSyncResponse deviceA
          [remoteLive "constructor" 50; remoteTombstone "note.md" 500]) = [] ∧
  plan (handleSyncResponse deviceA [remoteTombstone "note.md" 500])
    = [deleteChange "note.md"].
Proof. by vm_compute. Qed.

Lemma myDeletedFiles_lookup j p :
  myDeletedFiles j !! p =
  if decide (p = "__proto__") then None
  else match j with
       | Some files =>
           match files !! p with
           | Some md => if is_deleted md then Some (md_mtime md) else None
           | None => None
           end
       | None => None
       end.
Proof.
  destruct j as [files|]; simpl; [|by rewrite lookup_empty; case_decide].
  case_decide as Hp.
  - subst. apply lookup_delete_eq.
  - rewrite lookup_delete_ne by done. rewrite lookup_omap. by destruct (files !! p).
Qed.

(** The test the loop makes on [myDeletedFiles] finds only tombstones
    that are newer, and finds every one that is newer than a time stamp that
    is not negative, except under the path [__proto__]. *)
Lemma newerTombstone_sound j p (t t' : Z) :
  myDeletedFiles j !! p = Some t' → (truthy t' && (t <? t')) = true →
  newerTombstone j p t.
Proof.
  rewrite myDeletedFiles_lookup. unfold newerTombstone.
  case_decide; [done|].
  intros Hl Htest. destruct j as [files|]; [|done].
  destruct (files !! p) as [md|] eqn:Hmd; [|done].
  destruct (is_deleted md) eqn:Hdel; [|done]. simplify_eq.
  apply andb_true_iff in Htest as [_ Hlt%Z.ltb_lt]. by exists files, md.
Qed.

Lemma newerTombstone_complete j p (t : Z) :
  p ≠ "__proto__" → 0 ≤ t → newerTombstone j p t →
  ∃ t', myDeletedFiles j !! p = Some t' ∧ (truthy t' && (t <? t')) = true.
Proof.
  intros Hp Ht (files & md & -> & Hmd & Hdel & Hlt).
  rewrite myDeletedFiles_lookup, decide_False, Hmd, Hdel by done.
  exists (md_mtime md). split; [done|]. unfold truthy.
  apply andb_true_iff. split; [apply negb_true_iff, Z.eqb_neq; lia | by apply Z.ltb_lt].
Qed.

Lemma readProperty_proto d :
  d !! "__proto__" = None → readProperty d "__proto__" = Inherited.
Proof. intros Hd. unfold readProperty. by rewrite Hd. Qed.

(** *** The rule for a live entry without local file *)

(** A live remote entry for a path with no local file, in a run of the
    handler that does not throw: the plan holds a pull for the path, unless
    the local journal holds a tombstone for the path strictly newer than the
    entry's time stamp; then it holds instead the push of a deletion, whose
    execution sends FILE_DELETE for the path to the peer.  When the snapshot
    has this one entry for the path, that action is the plan's only action
    for the path.  Time stamps are milliseconds since the epoch: the entry's
    is not negative. *)
Lemma live_remote_without_local_file (st : Local) k rs r peerId
    (v' : gmap string TAbstractFile) :
  node st = true → sessionKey st = Some k →
  handleSyncResponse st rs ≠ Throws →
  r ∈ rs → isDeleted r = false →
  vault st !! path r = None →
  let changes := plan (handleSyncResponse st rs) in
  let only_entry := ∀ r', r' ∈ rs → path r' = path r → r' = r in
  (0 ≤ mtime r → newerTombstone (journal st) (path r) (mtime r) →
   pushDelete (path r) ∈ changes ∧
   executeChange peerId k v' (pushDelete (path r)) =
     (v', [Send peerId (FILE_DELETE (path r))]) ∧
   (only_entry → only_action (path r) (pushDelete (path r)) changes)) ∧
  (¬ newerTombstone (journal st) (path r) (mtime r) →
   pullNew (path r) ∈ changes ∧
   (only_entry → only_action (path r) (pullNew (path r)) changes)).
Proof.
  intros Hn Hk Hok Hr Hlive Hv changes only_entry. subst changes only_entry.
  pose proof (completed_plan st k rs Hn Hk Hok) as Hcs.
  destruct (proj1 (computeChanges_Some _ _ _ _ Hcs) r Hr) as [pushed Hpushed].
  assert (Hentry : match readProperty (myDeletedFiles (journal st)) (path r) with
                   | OwnNumber t' => pushed = if truthy t' && (mtime r <? t')
                                              then [pushDelete (path r)]
                                              else [pullNew (path r)]
                   | Inherited => False
                   | Undefined => pushed = [pullNew (path r)]
                   end).
  { unfold reconcileEntry in Hpushed. rewrite Hlive, Hv in Hpushed.
    destruct (readProperty _ _) as [t'| |]; [|done|by injection Hpushed as <-].
    destruct (truthy t' && (mtime r <? t')); by injection Hpushed as <-. }
  destruct (plan_of_entry st k rs r _ Hn Hk Hok Hr Hpushed) as [Hin Honly].
  assert (Hone : ∀ X, pushed = [X] →
            X ∈ plan (handleSyncResponse st rs) ∧
            ((∀ r', r' ∈ rs → path r' = path r → r' = r) →
             only_action (path r) X (plan (handleSyncResponse st rs)))).
  { intros X ->.
    assert (HX : X ∈ plan (handleSyncResponse st rs)) by (apply Hin; by left).
    split; [done|]. intros Huniq. split; [done|].
    intros c Hc Hp. by apply list_elem_of_singleton, Honly. }
  unfold readProperty in Hentry. split.
  - intros Hpos Hnewer.
    assert (Hp : path r ≠ "__proto__").
    { intros Hp. rewrite Hp, myDeletedFiles_lookup, decide_True in Hentry by done.
      done. }
    apply (newerTombstone_complete _ _ _ Hp Hpos) in Hnewer as (t' & Ht' & Hb).
    rewrite Ht', Hb in Hentry.
    destruct (Hone _ Hentry) as [HX Honly'].
    split; [done|]. split; [done|]. done.
  - intros Hnot. apply Hone.
    destruct (myDeletedFiles (journal st) !! path r) as [t'|] eqn:Hl.
    + destruct (truthy t' && (mtime r <? t')) eqn:Hb; [|done].
      exfalso. apply Hnot. by eapply newerTombstone_sound.
    + by case_bool_decide.
Qed.

(** C3. The rule fails on the code for a live entry whose path is a
    property name that plain objects inherit.  Device A has no file
    constructor and no tombstone for it, and the snapshot holds constructor
    live: instead of planning the pull, the handler throws at
    [BigInt(myDeletedFiles["constructor"])] and is left with no plan.  The
    same happens for the path [__proto__] even when the journal holds a newer
    tombstone for it, since the assignment under that name stores nothing. *)
Theorem C3_inherited_path_is_not_pulled :
  vault deviceA !! "constructor" = None ∧
  myDeletedFiles (journal deviceA) !! "constructor" = None ∧
  handleSyncResponse deviceA [remoteLive "constructor" 500] = Throws ∧
  plan (handleSyncResponse deviceA [remoteLive "constructor" 500]) = [] ∧
  handleSyncResponse
    {| node := true; sessionKey := Some "session-key"; vault := ∅;
       journal := Some {[ "__proto__" := {| md_mtime := 900; is_deleted := true |} ]} |}
    [remoteLive "__proto__" 500] = Throws ∧
  plan (handleSyncResponse deviceA [remoteLive "new.md" 500; remoteLive "note.md" 100])
    = [pullNew "new.md"].
Proof. by vm_compute. Qed.

(** *** The tolerance window *)

Lemma reconcileEntry_live_file v d r (t1 : Z) :
  isDeleted r = false → v !! path r = Some (TFile t1) →
  reconcileEntry v d r =
  Some (if 2000 <? mtime r - t1 then [pullNewer (path r)]
        else if mtime r - t1 <? -2000
             then [ {| change_path := path r; change_type := type_push;
                       change_reason := "Local is newer" |} ]
             else []).
Proof.
  intros Hlive Hv. unfold reconcileEntry. rewrite Hlive, Hv.
  by repeat case_match.
Qed.

Lemma scenario_changes (t2 : Z) :
  computeChanges (vault deviceA) (journal deviceA) [remoteLive "note.md" t2] =
  reconcileEntry (vault deviceA) (myDeletedFiles (journal deviceA))
    (remoteLive "note.md" t2).
Proof.
  pose proof (reconcileEntry_live_file (vault deviceA) (myDeletedFiles (journal deviceA))
                (remoteLive "note.md" t2) 100 eq_refl eq_refl) as Hentry.
  rewrite computeChanges_eq
    by (intros r ->%list_elem_of_singleton; rewrite Hentry; by eexists).
  cbn [mbind list_bind]. rewrite !Hentry. cbn [default].
  replace (localLoop _ _) with (@nil SyncChange) by (by vm_compute).
  by rewrite !app_nil_r.
Qed.

(** C4, as stated, fails: with note.md at 100 locally and at 300 on the peer
    the two times differ by 200, inside the tolerance of 2000, and
    [handleSyncResponse] reports that all files are up to date. *)
Lemma C4_scenario_emits_no_pull :
  handleSyncResponse deviceA [remoteLive "note.md" 300] = UpToDate ∧
  ¬ ∃ c, c ∈ plan (handleSyncResponse deviceA [remoteLive "note.md" 300]) ∧
         change_path c = "note.md" ∧ change_type c = type_pull.
Proof.
  assert (H : handleSyncResponse deviceA [remoteLive "note.md" 300] = UpToDate)
    by (by vm_compute).
  split; [done|]. rewrite H. simpl.
  intros (c & Hc & _). by apply not_elem_of_nil in Hc.
Qed.

(** C4, amended. Device A holds note.md modified at 100 and the peer's
    snapshot holds it live at [t2]: when [t2] exceeds 100 by more than the
    tolerance of 2000 the plan is the pull of note.md; when the two times are
    within the tolerance of each other there is no action. *)
Theorem C4_scenario_pull_beyond_tolerance (t2 : Z) :
  (2000 < t2 - 100 →
   plan (handleSyncResponse deviceA [remoteLive "note.md" t2]) = [pullNewer "note.md"]) ∧
  (-2000 ≤ t2 - 100 ≤ 2000 →
   handleSyncResponse deviceA [remoteLive "note.md" t2] = UpToDate).
Proof.
  assert (Hc : computeChanges (vault deviceA) (journal deviceA)
                 [remoteLive "note.md" t2] =
               Some (if 2000 <? t2 - 100 then [pullNewer "note.md"]
                     else if t2 - 100 <? -2000
                          then [ {| change_path := "note.md"; change_type := type_push;
                                    change_reason := "Local is newer" |} ]
                          else [])).
  { rewrite scenario_changes.
    by rewrite (reconcileEntry_live_file _ _ _ 100). }
  split.
  - intros Hlt.
    rewrite (plan_handleSyncResponse deviceA "session-key") by done.
    rewrite Hc. apply Z.ltb_lt in Hlt. by rewrite Hlt.
  - intros [Hlo Hhi]. unfold handleSyncResponse. simpl node. simpl sessionKey.
    cbv beta iota zeta. simpl negb. cbv iota. rewrite Hc.
    assert ((2000 <? t2 - 100) = false) as -> by (apply Z.ltb_ge; lia).
    assert ((t2 - 100 <? -2000) = false) as -> by (apply Z.ltb_ge; lia).
    done.
Qed.

Lemma C4_witness :
  plan (handleSyncResponse deviceA [remoteLive "note.md" 3000]) = [pullNewer "note.md"] ∧
  handleSyncResponse deviceA [remoteLive "note.md" 300] = UpToDate.
Proof.
  split.
  - apply (C4_scenario_pull_beyond_tolerance 3000). lia.
  - apply (C4_scenario_pull_beyond_tolerance 300). lia.
Defined.

(** *** A snapshot against the state it describes *)

Lemma mirrors_no_changes (st : Local) rs :
  mirrors st rs → computeChanges (vault st) (journal st) rs = Some [].
Proof.
  intros [Hentries Hfiles].
  assert (Hnone : ∀ r, r ∈ rs →
            reconcileEntry (vault st) (myDeletedFiles (journal st)) r = Some []).
  { intros r Hr. pose proof (Hentries r Hr) as Hv.
    unfold reconcileEntry. rewrite Hv.
    destruct (isDeleted r); [done|]. by rewrite Z.sub_diag. }
  rewrite computeChanges_eq by (intros r Hr; rewrite Hnone by done; by eexists).
  f_equal. apply app_nil. split.
  - clear Hentries Hfiles. induction rs as [|r rs IH]; [done|]. simpl.
    rewrite (Hnone r) by (by left). simpl.
    apply IH. intros r' Hr'. apply Hnone. by right.
  - apply localLoop_nil. intros p m Hin%elem_of_getFiles.
    apply elem_of_list_to_set. by eapply Hfiles.
Qed.

(** C5, as stated, fails: a folder sits where the journal records a
    deleted file.  The snapshot the device sends holds the tombstone, as the
    journal does, and no file contradicts it; reconciled against that very
    snapshot, the device reads the folder as a file of time 0 and plans to
    delete it. *)
Lemma C5_folder_at_tombstoned_path :
  handleSyncRequest folderDevice = Some [remoteTombstone "drafts" 900] ∧
  getFiles (vault folderDevice) = [] ∧
  handleSyncResponse folderDevice [remoteTombstone "drafts" 900]
    = Execute [deleteChange "drafts"] ∧
  plan (handleSyncResponse folderDevice [remoteTombstone "drafts" 900]) ≠ [].
Proof. by vm_compute. Qed.

(** C5, amended. When the local side is in the very state a snapshot
    describes, with nothing at all, not even a folder, at the path of a
    tombstone, reconciling against that snapshot yields the empty action
    list: [handleSyncResponse] reports that all files are up to date, with no
    push, pull or delete. *)
Theorem C5_identical_snapshot_is_up_to_date (st : Local) rs :
  mirrors st rs →
  plan (handleSyncResponse st rs) = [] ∧
  (node st = true → is_Some (sessionKey st) → handleSyncResponse st rs = UpToDate).
Proof.
  intros Hc%mirrors_no_changes. split.
  - unfold handleSyncResponse. destruct (negb (node st)); [done|].
    destruct (sessionKey st); [|done]. by rewrite Hc.
  - intros Hn [k Hk]. unfold handleSyncResponse. by rewrite Hn, Hk, Hc.
Qed.

Lemma C5_witness :
  plan (handleSyncResponse deviceA
          [remoteLive "note.md" 100; remoteTombstone "gone.md" 900]) = [] ∧
  handleSyncResponse deviceA
    [remoteLive "note.md" 100; remoteTombstone "gone.md" 900] = UpToDate.
Proof.
  assert (Hm : mirrors deviceA [remoteLive "note.md" 100; remoteTombstone "gone.md" 900]).
  { split.
    - intros r Hr. apply elem_of_cons in Hr as [->|Hr]; [by vm_compute|].
      apply list_elem_of_singleton in Hr as ->. by vm_compute.
    - intros p m Hv. simpl in Hv. apply lookup_singleton_Some in Hv as [<- _].
      by left. }
  destruct (C5_identical_snapshot_is_up_to_date deviceA _ Hm) as [Hplan Hout].
  split; [exact Hplan | apply Hout; [reflexivity | by eexists]].
Defined.

Lemma snapshot_keeps (l : list (string * FileMetadata)) (acc : list RemoteFile) r :
  r ∈ acc → r ∈ foldl snapshotStep acc l.
Proof.
  revert acc. induction l as [|[p md] l IH]; intros acc Hr; [done|]. simpl.
  apply IH. unfold snapshotStep. simpl.
  destruct (is_deleted md); [|done]. case_bool_decide; [done|].
  apply elem_of_app. by left.
Qed.

Lemma snapshot_inv (l : list (string * FileMetadata)) (acc : list RemoteFile) r :
  r ∈ foldl snapshotStep acc l →
  r ∈ acc ∨
  (isDeleted r = true ∧ ¬ (path r ∈ path <$> acc) ∧
   ∃ md, (path r, md) ∈ l ∧ is_deleted md = true ∧ mtime r = md_mtime md).
Proof.
  revert acc. induction l as [|[p md] l IH]; intros acc Hr; [by left|].
  simpl in Hr. apply IH in Hr as [Hr|(Hdel & Hnot & md' & Hin & Hmd & Hm)].
  - unfold snapshotStep in Hr. simpl in Hr.
    destruct (is_deleted md) eqn:Hd; [|by left].
    case_bool_decide as Hp; [by left|].
    apply elem_of_app in Hr as [Hr|Hr%list_elem_of_singleton]; [by left|].
    right. subst r. simpl. split; [done|]. split; [done|].
    exists md. split; [by left | done].
  - right. split; [done|]. split.
    + intros Hacc. apply Hnot. unfold snapshotStep. simpl.
      destruct (is_deleted md); [|done]. case_bool_decide; [done|].
      rewrite fmap_app. apply elem_of_app. by left.
    + exists md'. split; [by right | done].
Qed.

(** The snapshot a device sends describes the device itself, as long as
    no folder sits at a path its journal marks deleted (the loop reads a
    folder as a file of [mtime] 0): reconciled against its own snapshot, the
    device is up to date. *)
Lemma own_snapshot_mirrors (st : Local) rs :
  (∀ files p md, journal st = Some files → files !! p = Some md →
                 is_deleted md = true → vault st !! p ≠ Some TFolder) →
  handleSyncRequest st = Some rs → mirrors st rs.
Proof.
  intros Hfolder. unfold handleSyncRequest.
  destruct (negb (node st)); [done|]. intros [= <-].
  set (files0 := (λ f : string * Z, {| path := f.1; mtime := f.2; isDeleted := false |})
                   <$> getFiles (vault st)).
  assert (Hlive : ∀ r, r ∈ files0 →
            isDeleted r = false ∧ vault st !! path r = Some (TFile (mtime r))).
  { intros r ([p m] & -> & Hin)%list_elem_of_fmap. simpl.
    split; [done|]. by apply elem_of_getFiles. }
  split.
  - intros r [Hr|(Hdel & Hnot & md & Hin & Hmd & _)]%snapshot_inv.
    + destruct (Hlive r Hr) as [-> ->]. done.
    + rewrite Hdel.
      destruct (journal st) as [files|] eqn:Hj; simpl in Hin;
        [|by rewrite map_to_list_empty in Hin; apply elem_of_nil in Hin].
      apply elem_of_map_to_list in Hin.
      destruct (vault st !! path r) as [[m|]|] eqn:Hv; [| |done].
      * exfalso. apply Hnot. apply list_elem_of_fmap.
        exists {| path := path r; mtime := m; isDeleted := false |}.
        split; [done|]. apply list_elem_of_fmap. exists (path r, m).
        split; [done|]. by apply elem_of_getFiles.
      * by destruct (Hfolder files (path r) md).
  - intros p m Hv. apply list_elem_of_fmap.
    exists {| path := p; mtime := m; isDeleted := false |}. split; [done|].
    apply snapshot_keeps. apply list_elem_of_fmap. exists (p, m).
    split; [done|]. by apply elem_of_getFiles.
Qed.

Example deviceA_snapshot :
  handleSyncRequest deviceA
  = Some [remoteLive "note.md" 100; remoteTombstone "gone.md" 900].
Proof. by vm_compute. Qed.

End ReconciliationFacts.

Module HandshakeFacts.
Import Handshake.

Lemma js_lt_asym (a b : string) : js_lt a b = true → js_lt b a = false.
Proof.
  unfold js_lt, String.ltb. rewrite (String.compare_antisym a b).
  by destruct (String.compare b a).
Qed.

Lemma js_lt_total (a b : string) : a ≠ b → js_lt a b = true ∨ js_lt b a = true.
Proof.
  intros Hne. unfold js_lt, String.ltb. rewrite (String.compare_antisym a b).
  destruct (String.compare b a) eqn:Hc; simpl; auto.
  by apply String.compare_eq_iff in Hc.
Qed.

Section Facts.
Context {KeyExchange Answer SecurityState : Type}.
Variable getDeviceId : SecurityState → string.
Variable handleSessionOffer :
  SecurityState → string → SessionOffer → SecurityState * Completion (option Answer).

Local Abbreviation handle := (handleSessionOfferMessage KeyExchange Answer SecurityState
                      getDeviceId handleSessionOffer).
Local Abbreviation answer := (answerOffer KeyExchange Answer SecurityState handleSessionOffer).

(** C2. A device with an outstanding offer for a peer receives a
    SESSION_OFFER from that peer, and the two device ids differ.  Then one of
    the ids is the smaller.  With the smaller id the device ignores the
    offer: nothing is sent and its state, pending offer included, is
    unchanged.  With the larger id it removes its pending offer and answers:
    it hands the offer to the security service and sends the answer that
    comes back. *)
Theorem C2_simultaneous_offer_tie_break (st : State KeyExchange SecurityState)
    (peerId : string) (message : SessionOffer) :
  let myDeviceId := getDeviceId (securityService st) in
  let peerDeviceId := deviceId message in
  is_Some (pendingSessionOffers st !! peerId) →
  myDeviceId ≠ peerDeviceId →
  (js_lt myDeviceId peerDeviceId = true ∨ js_lt peerDeviceId myDeviceId = true) ∧
  (js_lt myDeviceId peerDeviceId = true → handle st peerId message = (st, [])) ∧
  (js_lt peerDeviceId myDeviceId = true →
   handle st peerId message =
     answer (base.delete peerId (pendingSessionOffers st)) (securityService st)
            peerId message ∧
   pendingSessionOffers (handle st peerId message).1 !! peerId = None ∧
   (∀ q, q ≠ peerId →
      pendingSessionOffers (handle st peerId message).1 !! q
      = pendingSessionOffers st !! q) ∧
   (∀ sec' a, handleSessionOffer (securityService st) peerId message
                = (sec', Returns (Some a)) →
              (handle st peerId message).2 = [(peerId, a)])).
Proof.
  intros my peer [kx Hpending] Hne.
  split; [by apply js_lt_total|]. split.
  - intros Hlt. unfold handleSessionOfferMessage. rewrite Hpending.
    fold my peer. by rewrite Hlt.
  - intros Hgt.
    assert (Heq : handle st peerId message =
                  answer (base.delete peerId (pendingSessionOffers st))
                         (securityService st) peerId message).
    { unfold handleSessionOfferMessage. rewrite Hpending. fold my peer.
      by rewrite (js_lt_asym _ _ Hgt). }
    rewrite Heq. unfold answerOffer.
    destruct (handleSessionOffer (securityService st) peerId message)
      as [sec' completion] eqn:Hsec.
    simpl. repeat split.
    + apply lookup_delete_eq.
    + intros q Hq. by apply lookup_delete_ne.
    + intros sec'' a [= _ ->]. done.
Qed.

End Facts.

Lemma C2_witness :
  handleSessionOfferMessage unit string string id echoService
    (raceState "dA") "peer-1" (offerFrom "dB") = (raceState "dA", []) ∧
  (handleSessionOfferMessage unit string string id echoService
     (raceState "dB") "peer-1" (offerFrom "dA")).2 = [("peer-1", "epk")].
Proof.
  split.
  - apply (C2_simultaneous_offer_tie_break (KeyExchange:=unit) id echoService
             (raceState "dA") "peer-1" (offerFrom "dB"));
      [by eexists | discriminate | reflexivity].
  - eapply (C2_simultaneous_offer_tie_break (KeyExchange:=unit) id echoService
              (raceState "dB") "peer-1" (offerFrom "dA"));
      [by eexists | discriminate | reflexivity | reflexivity].
Defined.

End HandshakeFacts.

Module TransferFacts.
Import Transfer.

Section MapAndSort.
Context {V : Type}.
Implicit Types (l : list (Z * V)) (e : Z * V).

Lemma mapSet_fresh (k : Z) (x : V) l :
  k ∉ l.*1 → mapSet k x l = l ++ [(k, x)].
Proof.
  induction l as [|[k' y] l IH]; simpl; [done|].
  intros [Hne Hnot]%not_elem_of_cons.
  destruct (Z.eqb_spec k k') as [->|_]; [done|]. by rewrite IH.
Qed.

Lemma insertEntry_comm e1 e2 l :
  e1.1 ≠ e2.1 →
  insertEntry e1 (insertEntry e2 l) = insertEntry e2 (insertEntry e1 l).
Proof.
  intros Hne. induction l as [|e l IH]; simpl.
  - destruct (Z.leb_spec e1.1 e2.1), (Z.leb_spec e2.1 e1.1); try done; lia.
  - destruct (Z.leb_spec e2.1 e.1), (Z.leb_spec e1.1 e.1); simpl;
      repeat match goal with
             | |- context [?a <=? ?b] => destruct (Z.leb_spec a b)
             end; try done; try lia.
    by rewrite IH.
Qed.

(** The sorted entries do not depend on the insertion order when the keys
    are pairwise distinct. *)
Lemma sortEntries_Permutation l1 l2 :
  l1 ≡ₚ l2 → NoDup l1.*1 → sortEntries l1 = sortEntries l2.
Proof.
  unfold sortEntries. induction 1 as [|e l1 l2 Hp IH|e1 e2 l|l1 l2 l3 Hp1 IH1 Hp2 IH2];
    intros Hnd; simpl.
  - done.
  - apply NoDup_cons in Hnd as [_ Hnd]. by rewrite IH.
  - apply insertEntry_comm. simpl in Hnd.
    apply NoDup_cons in Hnd as [Hnot _]. apply not_elem_of_cons in Hnot as [Hne _].
    congruence.
  - rewrite IH1 by done. apply IH2. by rewrite <- Hp1.
Qed.

End MapAndSort.

Lemma written_app (e1 e2 : list TransferEffect) : written (e1 ++ e2) = written e1 ++ written e2.
Proof. apply omap_app. Qed.

Lemma written_trigger (event : string) (s : TransferStatus) (effs : list TransferEffect) :
  written (Trigger event s :: effs) = written effs.
Proof. done. Qed.

Section Facts.
Context `{WasmModule}.

Lemma entries_keys (ms : list FileChunk) : (entries ms).*1 = chunkIndex <$> ms.
Proof. unfold entries. rewrite <- list_fmap_compose. done. Qed.

(** What [reassembleAndWrite] writes. *)
Lemma written_reassemble (st : SyncService) (t : IncomingTransfer) (key : string) :
  written (reassembleAndWrite st t key) =
  match (if transferManager st
         then mapM (λ m, decrypt_chunk (chunkObj m) key) (sortEntries (chunks t)).*2
         else None) with
  | Some parts => [(path t, concat parts)]
  | None => []
  end.
Proof.
  unfold reassembleAndWrite.
  destruct (if transferManager st then _ else _); [|done].
  simpl. by destruct (node st).
Qed.

(** Delivering the missing chunks of a transfer, in any order, ends with
    the reassembly of all its entries. *)
Lemma deliver_completes (ms : list FileChunk) :
  ∀ (st : SyncService) (peerId key p : string) (acc : list (Z * FileChunk)),
    sessionKeys st !! peerId = Some key →
    holds st (fileKeyOf peerId p) acc (Z.of_nat (length acc + length ms)) p →
    NoDup (acc.*1 ++ (chunkIndex <$> ms)) →
    Forall (λ m, filePath m = p ∧
                 totalChunks m = Z.of_nat (length acc + length ms)) ms →
    ms ≠ [] →
    written (deliver st peerId ms).2 =
    written (reassembleAndWrite st
               {| chunks := acc ++ entries ms;
                  total := Z.of_nat (length acc + length ms); path := p |} key).
Proof.
  induction ms as [|m ms IH]; intros st peerId key p acc Hkey Hholds Hnd Hall Hne;
    [congruence|]. clear Hne.
  apply Forall_cons in Hall as [[Hp Htot] Hall].
  assert (Hfresh : chunkIndex m ∉ acc.*1).
  { apply NoDup_app in Hnd as (_ & Hdisj & _). intros Hin.
    apply (Hdisj _ Hin). by left. }
  simpl deliver.
  destruct (handleFileChunk st peerId m) as [st' effs] eqn:Hstep.
  destruct (deliver st' peerId ms) as [st'' effs'] eqn:Hrest.
  simpl. rewrite written_app.
  unfold handleFileChunk in Hstep. rewrite Hkey, Hp in Hstep.
  set (K := fileKeyOf peerId p) in *.
  set (n := Z.of_nat (length acc + length (m :: ms))) in *.
  assert (Ht0 : ∃ started,
             match incomingChunks st !! K with
             | Some t => (t, [])
             | None => ({| chunks := []; total := totalChunks m; path := p |},
                        [Trigger "transfer-start"
                           (set_progress {| numerator := chunkIndex m + 1;
                                            denominator := totalChunks m |}
                              (default
                                 {| id := K; status_filePath := p;
                                    status_peerId := peerId; direction := incoming;
                                    progress := {| numerator := 0; denominator := 1 |};
                                    totalSize := Some (totalChunks m);
                                    state := transferring; error := None |}
                                 (activeTransfers st !! K)))])
             end = ({| chunks := acc; total := n; path := p |}, started) ∧
             written started = []).
  { unfold holds in Hholds. destruct (incomingChunks st !! K) as [t|].
    - subst t. by exists [].
    - subst acc. rewrite Htot. by eexists. }
  destruct Ht0 as (started & Ht0 & Hstarted). rewrite Ht0 in Hstep.
  cbn [chunks total path] in Hstep.
  rewrite (mapSet_fresh _ _ _ Hfresh) in Hstep.
  rewrite length_app in Hstep. simpl length in Hstep.
  destruct ms as [|m' ms'].
  - (* the last chunk: the transfer is complete *)
    assert (Hn : (Z.of_nat (length acc + 1) =? n) = true)
      by (apply Z.eqb_eq; unfold n; simpl; lia).
    rewrite Hn in Hstep. injection Hstep as <- <-.
    simpl in Hrest. injection Hrest as <- <-.
    simpl app. rewrite written_app, Hstarted, written_trigger, app_nil_r. done.
  - (* more chunks are to come *)
    assert (Hn : (Z.of_nat (length acc + 1) =? n) = false)
      by (apply Z.eqb_neq; unfold n; simpl; lia).
    rewrite Hn in Hstep. injection Hstep as <- <-.
    simpl app. rewrite Hstarted. simpl app.
    replace effs' with (deliver
      (set_transfers
         (<[K := {| chunks := acc ++ [(chunkIndex m, m)]; total := n; path := p |}]>
            (incomingChunks st))
         (<[K := set_progress {| numerator := chunkIndex m + 1;
                                 denominator := totalChunks m |}
                   (default
                      {| id := K; status_filePath := p; status_peerId := peerId;
                         direction := incoming;
                         progress := {| numerator := 0; denominator := 1 |};
                         totalSize := Some (totalChunks m);
                         state := transferring; error := None |}
                      (activeTransfers st !! K))]> (activeTransfers st)) st)
      peerId (m' :: ms')).2 by (by rewrite Hrest).
    rewrite (IH _ peerId key p (acc ++ [(chunkIndex m, m)])).
    + rewrite !written_reassemble. cbn [chunks path]. simpl entries.
      by rewrite <- app_assoc.
    + done.
    + unfold holds. simpl. rewrite lookup_insert_eq. f_equal.
      unfold n. rewrite length_app. simpl. lia.
    + rewrite fmap_app. simpl. by rewrite <- app_assoc.
    + eapply Forall_impl; [exact Hall|]. intros x [Hx1 Hx2]. split; [done|].
      rewrite Hx2. unfold n. rewrite length_app. simpl. lia.
    + done.
Qed.

(** C7. The chunks of a transfer are pairwise distinct in index and as many
    as each declares.  Delivered to a service that holds the session key and
    no earlier chunk of the file, they lead to the same written file in every
    arrival order: the plain texts of the chunks, sorted by index,
    concatenated. *)
Theorem C7_reassembly_independent_of_arrival_order (st : SyncService)
    (peerId key p : string) (ms ms' : list FileChunk) :
  sessionKeys st !! peerId = Some key →
  incomingChunks st !! fileKeyOf peerId p = None →
  ms' ≡ₚ ms →
  NoDup (chunkIndex <$> ms) →
  Forall (λ m, filePath m = p ∧ totalChunks m = Z.of_nat (length ms)) ms →
  written (deliver st peerId ms').2 = written (deliver st peerId ms).2 ∧
  (ms ≠ [] →
   written (deliver st peerId ms).2 =
   match (if transferManager st
          then mapM (λ m, decrypt_chunk (chunkObj m) key)
                    (sortEntries (entries ms)).*2
          else None) with
   | Some parts => [(p, concat parts)]
   | None => []
   end).
Proof.
  intros Hkey Hnone Hperm Hnd Hall.
  assert (Hrun : ∀ l, l ≡ₚ ms → l ≠ [] →
            written (deliver st peerId l).2 =
            written (reassembleAndWrite st
                       {| chunks := entries ms;
                          total := Z.of_nat (length ms); path := p |} key)).
  { intros l Hl Hne.
    rewrite (deliver_completes l st peerId key p []).
    - simpl. rewrite !written_reassemble. cbn [chunks path].
      rewrite (sortEntries_Permutation (entries l) (entries ms)); [done| |].
      + unfold entries. by apply fmap_Permutation.
      + rewrite entries_keys. by rewrite Hl.
    - done.
    - unfold holds. by rewrite Hnone.
    - simpl. by rewrite Hl.
    - simpl. rewrite Hl. by rewrite (Permutation_length Hl).
    - done. }
  destruct ms as [|m ms].
  - apply Permutation_nil_r in Hperm as ->. done.
  - split.
    + rewrite (Hrun (m :: ms)) by done.
      apply Hrun; [done|]. intros ->.
      by apply Permutation_nil_cons in Hperm.
    + intros _. rewrite (Hrun (m :: ms)) by done.
      by rewrite written_reassemble.
Qed.

(** C8, amended. After a FILE_CHUNK is handled the status of its transfer
    is exposed in [activeTransfers], and its progress is (chunkIndex + 1) /
    totalChunks of that chunk, or 1 when the chunk completed the transfer.
    When the chunks buffered so far are those of the indices 0 to k - 1 and
    the chunk handled is the one of index k, this progress is
    receivedChunks / totalChunks. *)
Theorem C8_progress_after_chunk (st : SyncService) (peerId : string) (m : FileChunk) :
  let K := fileKeyOf peerId (filePath m) in
  let st' := (handleFileChunk st peerId m).1 in
  (∃ s, activeTransfers st' !! K = Some s ∧
        (progress s = {| numerator := chunkIndex m + 1;
                         denominator := totalChunks m |} ∨
         (state s = completed ∧ progress s = {| numerator := 1; denominator := 1 |}))) ∧
  (∀ k, is_Some (sessionKeys st !! peerId) →
        0 ≤ k → (buffered st K).*1 = seqZ 0 k →
        (∀ t, incomingChunks st !! K = Some t → total t = totalChunks m) →
        chunkIndex m = k → k + 1 < totalChunks m →
        (buffered st' K).*1 = seqZ 0 (k + 1) ∧
        receivedChunks st' K = k + 1 ∧
        ∃ s, activeTransfers st' !! K = Some s ∧
             progress s = {| numerator := receivedChunks st' K;
                             denominator := totalChunks m |}).
Proof.
  intros K st'. split.
  - subst st'. unfold handleFileChunk. fold K.
    destruct (sessionKeys st !! peerId) as [key|]; simpl.
    + destruct (match incomingChunks st !! K with Some _ => _ | None => _ end)
        as [t0 started].
      destruct (_ =? _); simpl; rewrite lookup_insert_eq; eauto.
    + rewrite lookup_insert_eq. eauto.
  - intros k [key Hkey] Hk Hbuf Htotal Hidx Hlt.
    assert (Hfresh : chunkIndex m ∉ (buffered st K).*1).
    { rewrite Hbuf, Hidx. rewrite elem_of_seqZ. lia. }
    assert (Hlen : Z.of_nat (length (buffered st K)) = k).
    { rewrite <- (length_fmap fst), Hbuf, length_seqZ. lia. }
    assert (Hstep : handleFileChunk st peerId m =
      (set_transfers
         (<[K := {| chunks := buffered st K ++ [(chunkIndex m, m)];
                    total := totalChunks m; path :=
                      match incomingChunks st !! K with
                      | Some t => path t | None => filePath m end |}]>
            (incomingChunks st))
         (<[K := set_progress {| numerator := chunkIndex m + 1;
                                 denominator := totalChunks m |}
                   (default
                      {| id := K; status_filePath := filePath m;
                         status_peerId := peerId; direction := incoming;
                         progress := {| numerator := 0; denominator := 1 |};
                         totalSize := Some (totalChunks m);
                         state := transferring; error := None |}
                      (activeTransfers st !! K))]> (activeTransfers st)) st,
       (handleFileChunk st peerId m).2)).
    { unfold handleFileChunk, buffered in *. fold K in Htotal, Hfresh, Hlen |- *.
      rewrite Hkey.
      destruct (incomingChunks st !! K) as [t|] eqn:Ht.
      - cbn [chunks total path]. rewrite (Htotal t eq_refl).
        rewrite (mapSet_fresh _ _ _ Hfresh), length_app. simpl length.
        assert ((Z.of_nat (length (chunks t) + 1) =? totalChunks m) = false) as ->
          by (apply Z.eqb_neq; lia).
        done.
      - cbn [chunks total path]. simpl mapSet. simpl length.
        assert ((Z.of_nat 1 =? totalChunks m) = false) as ->
          by (apply Z.eqb_neq; simpl in Hlen; lia).
        done. }
    subst st'. rewrite Hstep. cbn [fst].
    match goal with |- context [buffered ?s K] =>
      assert (Hbuf' : buffered s K = buffered st K ++ [(chunkIndex m, m)])
        by (unfold buffered at 1; simpl; by rewrite lookup_insert_eq);
      assert (Hact : ∃ st0, activeTransfers s !! K
                 = Some (set_progress {| numerator := chunkIndex m + 1;
                                         denominator := totalChunks m |} st0))
        by (simpl; rewrite lookup_insert_eq; eauto)
    end.
    unfold receivedChunks. rewrite Hbuf'.
    rewrite fmap_app, Hbuf, length_app. simpl.
    assert (Hk' : k = Z.of_nat (Z.to_nat k)) by lia.
    split; [|split].
    + rewrite Hidx. rewrite Hk' at 3. rewrite Hk' at 2.
      replace (Z.of_nat (Z.to_nat k) + 1) with (Z.of_nat (S (Z.to_nat k))) by lia.
      rewrite seqZ_S. by rewrite <- Hk'.
    + lia.
    + destruct Hact as [st0 Hact]. eexists. split; [exact Hact|].
      simpl. f_equal. lia.
Qed.

Lemma sent_send (peerId : string) (m : FileChunk) (effs : list TransferEffect) :
  sent (Send peerId m :: effs) = (peerId, m) :: sent effs.
Proof. done. Qed.

Lemma sent_trigger (event : string) (s : TransferStatus) (effs : list TransferEffect) :
  sent (Trigger event s :: effs) = sent effs.
Proof. done. Qed.

Lemma sent_app (e1 e2 : list TransferEffect) : sent (e1 ++ e2) = sent e1 ++ sent e2.
Proof. apply omap_app. Qed.

Lemma sent_sendChunks (peerId : string) (status : TransferStatus) (len start : Z)
    (cs : list Chunk) :
  sent (sendChunks peerId status len start cs) = (λ c, (peerId, chunkMessage c)) <$> cs.
Proof.
  revert start. induction cs as [|c cs IH]; intros start; [done|].
  cbn [sendChunks app]. rewrite sent_send, sent_trigger, IH. done.
Qed.

(** C6. An outbound transfer of an empty file sends exactly one
    FILE_CHUNK: it has index 0 and totalChunks 1, and its cipher text
    decrypts to zero bytes.  The transfer manager belongs to the WASM module;
    it is taken to cut a content into chunks numbered from 0 that declare
    their number and decrypt to the content, and not to cut zero bytes into
    more than one chunk.  When it gives no chunk, the chunk sent is the one
    that [transferFile] builds from [encrypt_data]; when it gives one, that
    chunk is sent as it is. *)
Theorem C6_empty_file_sends_one_chunk (st : SyncService) (p peerId key : string)
    (cs : list Chunk) :
  transferManager st = true → wasmModule st = true →
  vaultContents st !! p = Some [] →
  prepare_transfer p [] key = Some cs →
  TransferLaws.prepares p [] key cs → (length cs ≤ 1)%nat →
  is_Some (encrypt_data key []) →
  decrypts_what_encrypts key →
  ∃ m, sent (transferFile st p peerId key) = [(peerId, m)] ∧
       filePath m = p ∧ chunkIndex m = 0 ∧ totalChunks m = 1 ∧
       decrypt_chunk (chunkObj m) key = Some [].
Proof.
  intros Htm Hmod Hcontent Hprep (Hall & Hidx & parts & Hparts & Hcat) Hlen
    [[encData encNonce] Henc] Hcipher.
  assert (Hsent : sent (transferFile st p peerId key) =
            match cs with
            | [] => [(peerId, {| filePath := p; chunkIndex := 0; totalChunks := 1;
                                 data := encData; nonce := encNonce |})]
            | _ => (λ c, (peerId, chunkMessage c)) <$> cs
            end).
  { unfold transferFile. rewrite Htm, Hcontent, Hprep, Hmod.
    destruct cs as [|c cs']; [by rewrite Henc|].
    assert (Hne : (Z.of_nat (length (c :: cs')) =? 0) = false)
      by (apply Z.eqb_neq; simpl; lia).
    rewrite Hne. cbn [negb andb app].
    rewrite sent_trigger, sent_app, sent_sendChunks. simpl. by rewrite app_nil_r. }
  rewrite Hsent. destruct cs as [|c [|c' cs']]; [| |simpl in Hlen; lia].
  - eexists. split; [done|]. repeat split. by apply Hcipher.
  - exists (chunkMessage c). split; [done|].
    apply Forall_singleton in Hall as [Hp Htot].
    injection Hidx as Hidx.
    simpl in Hparts. destruct (decrypt_chunk c key) as [part|] eqn:Hdec; [|done].
    injection Hparts as <-. simpl in Hcat. rewrite app_nil_r in Hcat. subst part.
    destruct c. simpl in *. by subst.
Qed.

End Facts.

Lemma plainWasm_cipher (key : string) : decrypts_what_encrypts (H:=plainWasm) key.
Proof.
  intros content encData encNonce fp i n [= <- <-]. simpl.
  unfold plainBytes, plainData. apply mapM_fmap_Some.
  intros b. rewrite N2Z.id. apply Byte.of_to_N.
Qed.

Lemma C6_witness :
  (∃ m, sent (transferFile (H:=plainWasm) exampleService "empty.md" "peer-1" "key")
        = [("peer-1", m)] ∧
        filePath m = "empty.md" ∧ chunkIndex m = 0 ∧ totalChunks m = 1 ∧
        decrypt_chunk (WasmModule:=plainWasm) (chunkObj m) "key" = Some []) ∧
  (∃ m, sent (transferFile (H:=TransferLaws.wholeWasm) exampleService "empty.md"
                "peer-1" "key")
        = [("peer-1", m)] ∧
        filePath m = "empty.md" ∧ chunkIndex m = 0 ∧ totalChunks m = 1 ∧
        decrypt_chunk (WasmModule:=TransferLaws.wholeWasm) (chunkObj m) "key" = Some []).
Proof.
  split.
  - apply (C6_empty_file_sends_one_chunk (H:=plainWasm) exampleService
             "empty.md" "peer-1" "key" []);
      [reflexivity | reflexivity | reflexivity | reflexivity
      | | simpl; lia | by eexists | apply plainWasm_cipher].
    split; [by apply Forall_nil|]. split; [reflexivity|]. by exists [].
  - apply (C6_empty_file_sends_one_chunk (H:=TransferLaws.wholeWasm) exampleService
             "empty.md" "peer-1" "key"
             [ {| file_path := "empty.md"; chunk_index := 0; total_chunks := 1;
                  chunk_data := []; chunk_nonce := [] |} ]);
      [reflexivity | reflexivity | reflexivity | reflexivity
      | | simpl; lia | by eexists | ].
    + split; [by apply Forall_singleton|]. split; [reflexivity|]. by exists [[]].
    + intros content encData encNonce fp i n [= <- <-]. simpl.
      unfold plainBytes, plainData. apply mapM_fmap_Some.
      intros b. rewrite N2Z.id. apply Byte.of_to_N.
Defined.

Lemma C7_witness :
  written (deliver (H:=plainWasm) exampleService "peer-1"
             [exampleChunk 2 [33]; exampleChunk 0 [104]; exampleChunk 1 [105]]).2
  = written (deliver (H:=plainWasm) exampleService "peer-1"
               [exampleChunk 0 [104]; exampleChunk 1 [105]; exampleChunk 2 [33]]).2 ∧
  written (deliver (H:=plainWasm) exampleService "peer-1"
             [exampleChunk 2 [33]; exampleChunk 0 [104]; exampleChunk 1 [105]]).2
  = [("a.md", [x68; x69; x21]%byte)].
Proof.
  split; [|by vm_compute].
  apply (C7_reassembly_independent_of_arrival_order (H:=plainWasm) exampleService
           "peer-1" "key" "a.md").
  - reflexivity.
  - reflexivity.
  - etransitivity; [apply Permutation_swap|]. apply perm_skip, Permutation_swap.
  - compute_done.
  - repeat (apply Forall_cons; split; [done|]). by apply Forall_nil.
Defined.

(** C8, as stated, fails: the first chunk to arrive is the one of index 2
    out of 3.  One chunk is buffered, and the status shows 3/3. *)
Lemma C8_out_of_order_progress :
  let st' := (handleFileChunk (H:=plainWasm) exampleService "peer-1"
                (exampleChunk 2 [33])).1 in
  incomingChunks st' !! "peer-1:a.md"
    = Some {| chunks := [(2, exampleChunk 2 [33])]; total := 3; path := "a.md" |} ∧
  receivedChunks st' "peer-1:a.md" = 1 ∧
  ∃ s, activeTransfers st' !! "peer-1:a.md" = Some s ∧
       state s = transferring ∧
       progress s = {| numerator := 3; denominator := 3 |} ∧
       ¬ same_quotient (progress s)
           {| numerator := receivedChunks st' "peer-1:a.md"; denominator := 3 |}.
Proof.
  split; [by vm_compute|]. split; [by vm_compute|].
  eexists. split; [by vm_compute|]. split; [done|]. split; [done|].
  intros (_ & _ & Hq). vm_compute in Hq. discriminate.
Qed.

Lemma C8_witness :
  let st' := (handleFileChunk (H:=plainWasm) exampleService "peer-1"
                (exampleChunk 0 [104])).1 in
  receivedChunks st' "peer-1:a.md" = 1 ∧
  ∃ s, activeTransfers st' !! "peer-1:a.md" = Some s ∧
       progress s = {| numerator := receivedChunks st' "peer-1:a.md";
                       denominator := 3 |}.
Proof.
  destruct (C8_progress_after_chunk (H:=plainWasm) exampleService "peer-1"
              (exampleChunk 0 [104])) as [_ Hin].
  destruct (Hin 0) as (_ & Hrecv & Hs).
  - by eexists.
  - lia.
  - reflexivity.
  - intros t Ht. vm_compute in Ht. discriminate.
  - reflexivity.
  - simpl. lia.
  - split; [exact Hrecv | exact Hs].
Defined.

End TransferFacts.

Module PairingFacts.
Import Pairing.

Lemma string_length_app (s t : string) :
  String.length (s +:+ t) = (String.length s + String.length t)%nat.
Proof. induction s as [|a s IH]; simpl; [done | by rewrite IH]. Qed.

Lemma string_app_inv_tail (s1 s2 t : string) : s1 +:+ t = s2 +:+ t → s1 = s2.
Proof.
  revert s2. induction s1 as [|a s1 IH]; intros [|b s2] Heq; simpl in Heq.
  - done.
  - apply (f_equal String.length) in Heq.
    rewrite ?string_length_app in Heq. simpl in Heq.
    rewrite ?string_length_app in Heq. lia.
  - apply (f_equal String.length) in Heq.
    rewrite ?string_length_app in Heq. simpl in Heq.
    rewrite ?string_length_app in Heq. lia.
  - injection Heq as -> Heq. f_equal. by apply IH.
Qed.

Section Facts.
Context `{WasmCrypto}.

(** A signature over another request id does not verify. *)
Lemma signed_over_other_request (msg : PairingResponse) (me other : string) :
  signature_binds_message → signed_over msg me other → other ≠ requestId msg →
  verify_signature (responderPublicKey msg) (requestId msg +:+ get_public_key me)
                   (signature msg) = false.
Proof.
  intros Hbinds (responder & Hpk & Hsig) Hother.
  rewrite Hpk, Hsig.
  destruct (verify_signature _ _ _) eqn:Hv; [|done].
  apply Hbinds, string_app_inv_tail in Hv. congruence.
Qed.

(** C9. A PairingResponse whose signature was computed over a request id
    other than its own, or that in any other way fails to verify against the
    responder's public key over the request id followed by the initiator's
    public key, creates no trust: no pairing_success is emitted and the paired
    devices are as before.  When it is the accepted answer to a pending
    request, the pairing attempt fails with the error "Invalid signature from
    peer". *)
Theorem C9_invalid_signature_creates_no_trust (st : SecurityService)
    (msg : PairingResponse) (me : string) (paired : list string) :
  identity st = Some me →
  ((signature_binds_message ∧
    ∃ other, signed_over msg me other ∧ other ≠ requestId msg) ∨
   verify_signature (responderPublicKey msg) (requestId msg +:+ get_public_key me)
                    (signature msg) = false) →
  (∀ device name,
     EmitPairingSuccess device name ∉ (handlePairingResponse st msg).2) ∧
  pairedDevicesAfter paired (handlePairingResponse st msg).2 = paired ∧
  (requestId msg ∈ pendingRequests st → status msg = accepted → wasm st = true →
   handlePairingResponse st msg =
     (set_pendingRequests (pendingRequests st ∖ {[ requestId msg ]}) st,
      [Reject (requestId msg) "Invalid signature from peer"])).
Proof.
  intros Hid Hbad.
  assert (Hv : verify_signature (responderPublicKey msg)
                 (requestId msg +:+ get_public_key me) (signature msg) = false).
  { destruct Hbad as [[Hbinds (other & Hsigned & Hother)]|Hv]; [|done].
    by eapply signed_over_other_request. }
  assert (Heffs : (handlePairingResponse st msg).2 = [] ∨
                  ∃ text, (handlePairingResponse st msg).2 = [Reject (requestId msg) text]).
  { unfold handlePairingResponse. case_decide; [|by left]. simpl.
    destruct (status msg); [|by eauto].
    destruct (wasm st); [|by left]. rewrite Hid, Hv. eauto. }
  split; [|split].
  - intros device name Hin.
    destruct Heffs as [Heffs|[text Heffs]]; rewrite Heffs in Hin.
    + by apply elem_of_nil in Hin.
    + apply list_elem_of_singleton in Hin. discriminate.
  - by destruct Heffs as [->|[text ->]].
  - intros Hpending Hstatus Hwasm. unfold handlePairingResponse.
    rewrite decide_True by done. by rewrite Hstatus, Hwasm, Hid, Hv.
Qed.

End Facts.

Lemma plainCrypto_binds : signature_binds_message (H:=plainCrypto).
Proof.
  intros signer m m' Hv. simpl in Hv. apply String.eqb_eq in Hv.
  apply (inj (String.app signer)) in Hv.
  apply (inj (String.app "|")) in Hv. done.
Qed.

Lemma C9_witness :
  handlePairingResponse (H:=plainCrypto) initiator forgedResponse =
    (set_pendingRequests ({[ "r1" ]} ∖ {[ "r1" ]}) initiator,
     [Reject "r1" "Invalid signature from peer"]) ∧
  pairedDevicesAfter ["dC"]
    (handlePairingResponse (H:=plainCrypto) initiator forgedResponse).2 = ["dC"].
Proof.
  destruct (C9_invalid_signature_creates_no_trust (H:=plainCrypto)
              initiator forgedResponse "key-B" ["dC"]) as (_ & Hpaired & Heq).
  - reflexivity.
  - left. split; [apply plainCrypto_binds|].
    exists "r2". split; [by exists "key-A" | discriminate].
  - split; [|exact Hpaired].
    apply Heq; [|reflexivity|reflexivity].
    cbn. by apply (elem_of_singleton_2 (C:=gset string)).
Defined.

End PairingFacts.

Module DiscoveryFacts.
Import Discovery.

Implicit Types (st : DiscoveryService) (p q : string) (t h : nat).

(** *** The timers stay within the peer table *)

Lemma clearPeerTTLTimer_within st p :
  (∀ q t, ttlTimers st !! q = Some t → q ≠ p → is_Some (peers st !! q)) →
  timers_within_peers (clearPeerTTLTimer st p).
Proof.
  intros Hin q t. unfold clearPeerTTLTimer.
  destruct (ttlTimers st !! p) as [t0|] eqn:Hp; simpl.
  - intros [Hne Hq]%lookup_delete_Some. eauto.
  - intros Hq. apply (Hin q t Hq). congruence.
Qed.

Lemma clearPeerTTLTimer_peers st p : peers (clearPeerTTLTimer st p) = peers st.
Proof. unfold clearPeerTTLTimer. by destruct (ttlTimers st !! p). Qed.

Lemma clearPeerTTLTimer_timers st p q :
  ttlTimers (clearPeerTTLTimer st p) !! q =
  if decide (p = q) then None else ttlTimers st !! q.
Proof.
  unfold clearPeerTTLTimer. destruct (ttlTimers st !! p) as [t0|] eqn:Hp; simpl.
  - apply lookup_delete.
  - case_decide; congruence.
Qed.

Lemma resetPeerTTL_within st p :
  (∀ q t, ttlTimers st !! q = Some t → q ≠ p → is_Some (peers st !! q)) →
  is_Some (peers st !! p) →
  timers_within_peers (resetPeerTTL st p).
Proof.
  intros Hin Hp q t. unfold resetPeerTTL. simpl.
  rewrite clearPeerTTLTimer_peers.
  destruct (decide (p = q)) as [<-|Hne]; [done|].
  rewrite lookup_insert_ne by done.
  rewrite clearPeerTTLTimer_timers, decide_False by done.
  intros Hq. eapply Hin; [done | congruence].
Qed.

Lemma clearAllTTLTimers_within st : timers_within_peers (clearAllTTLTimers st).
Proof. intros q t. simpl. by rewrite lookup_empty. Qed.

Lemma set_peers_insert_within st (peer : DiscoveredPeerData) :
  timers_within_peers st →
  timers_within_peers
    (resetPeerTTL (set_peers (<[id peer := peer]> (peers st)) st) (id peer)).
Proof.
  intros Hin. apply resetPeerTTL_within; simpl.
  - intros q t Hq Hne. rewrite lookup_insert_ne by done. eauto.
  - rewrite lookup_insert_eq. eauto.
Qed.

Lemma removePeer_within st p :
  timers_within_peers st → timers_within_peers (removePeer st p).1.
Proof.
  intros Hin. unfold removePeer.
  destruct (peers st !! p) as [peer|] eqn:Hp; [|done]. simpl.
  apply clearPeerTTLTimer_within. simpl.
  intros q t Hq Hne. rewrite lookup_delete_ne by done. eauto.
Qed.

(** *** The pending timeouts are the registered ones *)

Lemma clearPeerTTLTimer_registered st p :
  timeouts_registered st →
  timeouts_registered (clearPeerTTLTimer st p) ∧
  (∀ h, scheduled (clearPeerTTLTimer st p) !! h ≠ Some p) ∧
  nextTimer (clearPeerTTLTimer st p) = nextTimer st.
Proof.
  intros [Hreg Hfresh]. unfold clearPeerTTLTimer, timeouts_registered.
  destruct (ttlTimers st !! p) as [t0|] eqn:Hp; simpl.
  - split; [split|split; [|done]].
    + intros h q [Hne Hq]%lookup_delete_Some.
      pose proof (Hreg h q Hq) as Hq'.
      rewrite lookup_delete_ne; [done|]. intros <-. congruence.
    + intros h q [Hne Hq]%lookup_delete_Some. eauto.
    + intros h [Hne Hq]%lookup_delete_Some.
      apply Hreg in Hq. congruence.
  - split; [done|]. split; [|done].
    intros h Hq. apply Hreg in Hq. congruence.
Qed.

Lemma resetPeerTTL_registered st p :
  timeouts_registered st → timeouts_registered (resetPeerTTL st p).
Proof.
  intros Hst.
  destruct (clearPeerTTLTimer_registered st p Hst) as ([Hreg Hfresh] & Hnone & Hnext).
  unfold resetPeerTTL. split; simpl.
  - intros h q Hq. apply lookup_insert_Some in Hq as [[<- <-]|[Hne Hq]].
    + by rewrite lookup_insert_eq.
    + rewrite lookup_insert_ne; [by apply Hreg|].
      intros <-. by apply (Hnone h).
  - intros h q Hq. apply lookup_insert_Some in Hq as [[<- <-]|[Hne Hq]]; [lia|].
    apply Hfresh in Hq. lia.
Qed.

Lemma clearAllTTLTimers_registered st :
  timeouts_registered st → timeouts_registered (clearAllTTLTimers st).
Proof.
  intros [Hreg Hfresh].
  assert (Hnone : ∀ h q, scheduled (clearAllTTLTimers st) !! h = Some q → False).
  { simpl. intros h q [Hq Hnot]%map_lookup_filter_Some. simpl in Hnot.
    apply Hnot, elem_of_map_img. eauto. }
  split; intros h q Hq; destruct (Hnone h q Hq).
Qed.

Lemma removePeer_registered st p :
  timeouts_registered st → timeouts_registered (removePeer st p).1.
Proof.
  intros Hst. unfold removePeer.
  destruct (peers st !! p) as [peer|]; [|done]. simpl.
  by apply clearPeerTTLTimer_registered.
Qed.

Lemma timer_removed_registered st h :
  timeouts_registered st →
  timeouts_registered
    {| node := node st; isDiscovering := isDiscovering st; peers := peers st;
       ttlTimers := ttlTimers st; scheduled := base.delete h (scheduled st);
       nextTimer := nextTimer st |}.
Proof.
  intros [Hreg Hfresh].
  split; simpl; intros h' q [_ Hq]%lookup_delete_Some; eauto.
Qed.

Section Facts.
Variable parseAnnouncement : string → option Announcement.

Lemma step_within st (op : Op) :
  timers_within_peers st → timers_within_peers (step parseAnnouncement st op).1.
Proof.
  intros Hin. destruct op as [msg ip now answer|peer|p|started| | |h]; simpl.
  - unfold handleDiscoveryMessage.
    destruct (negb (node st)); [done|].
    destruct answer as [[|]|]; [|done..].
    destruct (parseAnnouncement msg) as [ann|]; [|done]. simpl.
    by apply (set_peers_insert_within st
                {| id := peer_id ann; name := ann_device_name ann;
                   device_id := ann_device_id ann; last_seen_timestamp := now;
                   addresses := [ip]; service_port := ann_service_port ann |}).
  - unfold addPeer. destruct (negb (node st)); [done|]. simpl.
    by apply set_peers_insert_within.
  - by apply removePeer_within.
  - unfold startDiscovery.
    destruct (isDiscovering st); [done|]. destruct (negb (node st)); [done|].
    by destruct started.
  - unfold stopDiscovery. destruct (negb (isDiscovering st)); [done|].
    apply clearAllTTLTimers_within.
  - apply clearAllTTLTimers_within.
  - unfold timerFires. destruct (scheduled st !! h) as [p|]; [|done].
    by apply removePeer_within.
Qed.

Lemma step_registered st (op : Op) :
  timeouts_registered st → timeouts_registered (step parseAnnouncement st op).1.
Proof.
  intros Hst. destruct op as [msg ip now answer|peer|p|started| | |h]; simpl.
  - unfold handleDiscoveryMessage.
    destruct (negb (node st)); [done|].
    destruct answer as [[|]|]; [|done..].
    destruct (parseAnnouncement msg) as [ann|]; [|done]. simpl.
    by apply resetPeerTTL_registered.
  - unfold addPeer. destruct (negb (node st)); [done|]. simpl.
    by apply resetPeerTTL_registered.
  - by apply removePeer_registered.
  - unfold startDiscovery.
    destruct (isDiscovering st); [done|]. destruct (negb (node st)); [done|].
    by destruct started.
  - unfold stopDiscovery. destruct (negb (isDiscovering st)); [done|]. simpl.
    by apply clearAllTTLTimers_registered.
  - by apply clearAllTTLTimers_registered.
  - unfold timerFires. destruct (scheduled st !! h) as [p|]; [|done].
    by apply removePeer_registered, timer_removed_registered.
Qed.

(** C10. Every peer id with a TTL timer is a key of the peer table, and
    every operation of the service and every expiry keeps it so.  As the
    pending timeouts are the registered ones (which every operation keeps
    too), a timeout that fires finds its peer in the table: [removePeer]
    removes that peer and reports it lost. *)
Theorem C10_ttl_timers_within_peers st (op : Op) :
  timers_within_peers st →
  timers_within_peers (step parseAnnouncement st op).1 ∧
  (timeouts_registered st →
   timeouts_registered (step parseAnnouncement st op).1 ∧
   ∀ timer peerId, scheduled st !! timer = Some peerId →
     ∃ peer, peers st !! peerId = Some peer ∧
             (timerFires st timer).2 = [peer_lost peer]).
Proof.
  intros Hin. split; [by apply step_within|].
  intros Hreg. split; [by apply step_registered|].
  intros h p Hh.
  destruct Hreg as [Hreg _].
  destruct (Hin p h (Hreg h p Hh)) as [peer Hpeer].
  exists peer. split; [done|].
  unfold timerFires. rewrite Hh. unfold removePeer. simpl. by rewrite Hpeer.
Qed.

(** The two properties hold when the service is created, hence in every
    state it reaches. *)
Lemma reachable_consistent (hasNode : bool) (ops : list Op) :
  timers_within_peers (run parseAnnouncement (initial hasNode) ops) ∧
  timeouts_registered (run parseAnnouncement (initial hasNode) ops).
Proof.
  unfold run.
  assert (Hinit : timers_within_peers (initial hasNode) ∧
                  timeouts_registered (initial hasNode)).
  { split; [|split]; intros ? ?; simpl; by rewrite lookup_empty. }
  revert Hinit. generalize (initial hasNode).
  induction ops as [|op ops IH]; intros st [Hin Hreg]; [done|]. simpl.
  apply IH. split; [by apply step_within | by apply step_registered].
Qed.

End Facts.

Lemma deviceB_within : timers_within_peers deviceB.
Proof.
  intros q t Hq. simpl in Hq. apply lookup_singleton_Some in Hq as [<- _].
  by eexists.
Qed.

Lemma deviceB_registered : timeouts_registered deviceB.
Proof.
  split; intros h q Hq; simpl in Hq;
    apply lookup_singleton_Some in Hq as [<- <-]; [done | simpl; lia].
Qed.

Lemma C10_witness :
  timers_within_peers (step plainParser deviceB (TimerFires 0)).1 ∧
  (timerFires deviceB 0).2 = [peer_lost laptop].
Proof.
  destruct (C10_ttl_timers_within_peers plainParser deviceB (TimerFires 0)
              deviceB_within) as [Hin Hreg].
  split; [exact Hin|].
  destruct (Hreg deviceB_registered) as [_ Hfire].
  destruct (Hfire 0%nat "a1" eq_refl) as (peer & Hpeer & Hlost).
  vm_compute in Hpeer. injection Hpeer as <-. exact Hlost.
Defined.

(** The scenario of the specification: B records the announcement of a1
    as a discovery, and when the TTL timer expires reports a1 lost. *)
Example announcement_then_expiry :
  run plainParser (initial true)
      [StartDiscovery true; OnAnnouncement "a1" "10.0.0.2" 1000 (Some true)]
    = deviceB ∧
  (step plainParser (initial true)
        (OnAnnouncement "a1" "10.0.0.2" 1000 (Some true))).2
    = [peer_discovered laptop] ∧
  (step plainParser deviceB (TimerFires 0)).2 = [peer_lost laptop].
Proof. by vm_compute. Qed.

End DiscoveryFacts.

Module FramingFacts.
Import Framing.

Lemma byte_of_N_to_N (b : byte) : byte_of_N (Byte.to_N b) = b.
Proof.
  unfold byte_of_N. rewrite N.mod_small.
  - by rewrite Byte.of_to_N.
  - pose proof (Byte.to_N_bounded b). lia.
Qed.

Lemma to_N_byte_of_N (n : N) : Byte.to_N (byte_of_N n) = (n mod 256)%N.
Proof.
  unfold byte_of_N.
  destruct (Byte.of_N (n mod 256)) as [b|] eqn:Hb; simpl.
  - by apply Byte.to_of_N.
  - apply Byte.of_N_None_iff in Hb.
    pose proof (N.mod_upper_bound n 256). lia.
Qed.

Lemma testbit_low_byte (n i : N) :
  N.testbit (n mod 2 ^ 8) i = if (i <? 8)%N then N.testbit n i else false.
Proof.
  destruct (N.ltb_spec i 8).
  - by apply N.mod_pow2_bits_low.
  - by apply N.mod_pow2_bits_high.
Qed.

Lemma testbit_shiftl (a k i : N) :
  N.testbit (N.shiftl a k) i = if (i <? k)%N then false else N.testbit a (i - k).
Proof.
  destruct (N.ltb_spec i k).
  - by apply N.shiftl_spec_low.
  - by apply N.shiftl_spec_high'.
Qed.

Lemma read_write (n : N) (lengthBuffer rest : list byte) :
  writeUInt32BE n = Some lengthBuffer →
  readUInt32BE (lengthBuffer ++ rest) = Some n ∧ length lengthBuffer = 4%nat.
Proof.
  unfold writeUInt32BE. destruct (N.leb_spec n 4294967295) as [Hn|]; [|done].
  intros [= <-]. split; [|done]. cbn [readUInt32BE app]. f_equal.
  rewrite !to_N_byte_of_N.
  change 256%N with (2 ^ 8)%N.
  apply N.bits_inj_iff. intros i.
  rewrite !N.lor_spec, !testbit_shiftl, !testbit_low_byte, !N.shiftr_spec'.
  destruct (N.ltb_spec i 8); [|destruct (N.ltb_spec i 16);
    [|destruct (N.ltb_spec i 24); [|destruct (N.ltb_spec i 32)]]].
  - rewrite (proj2 (N.ltb_lt i 16)), (proj2 (N.ltb_lt i 24)) by lia. done.
  - rewrite (proj2 (N.ltb_lt i 24)), (proj2 (N.ltb_lt (i - 8) 8)) by lia.
    cbn [orb]. rewrite orb_false_r. f_equal. lia.
  - rewrite (proj2 (N.ltb_lt (i - 16) 8)), (proj2 (N.ltb_ge (i - 8) 8)) by lia.
    cbn [orb]. rewrite !orb_false_r. f_equal. lia.
  - rewrite (proj2 (N.ltb_lt (i - 24) 8)), (proj2 (N.ltb_ge (i - 8) 8)),
      (proj2 (N.ltb_ge (i - 16) 8)) by lia.
    rewrite !orb_false_r. f_equal. lia.
  - rewrite (proj2 (N.ltb_ge (i - 24) 8)), (proj2 (N.ltb_ge (i - 8) 8)),
      (proj2 (N.ltb_ge (i - 16) 8)) by lia.
    cbn [orb]. symmetry. apply N.bits_above_log2.
    destruct (N.eq_dec n 0%N) as [->|Hn0]; [cbn; lia|].
    apply N.log2_lt_pow2; [lia|].
    apply N.lt_le_trans with (2 ^ 32)%N; [cbn; lia|].
    apply N.pow_le_mono_r; lia.
Qed.

Lemma read_Some_length (buf : list byte) (n : N) :
  readUInt32BE buf = Some n → (4 ≤ length buf)%nat.
Proof. destruct buf as [|? [|? [|? [|? ?]]]]; simpl; intros; try done; lia. Qed.

Lemma read_None_length (buf : list byte) :
  readUInt32BE buf = None → (length buf < 4)%nat.
Proof. destruct buf as [|? [|? [|? [|? ?]]]]; simpl; intros; try done; lia. Qed.

Lemma read_app (buf chunk : list byte) (n : N) :
  readUInt32BE buf = Some n → readUInt32BE (buf ++ chunk) = Some n.
Proof. destruct buf as [|? [|? [|? [|? ?]]]]; simpl; intros; done. Qed.

Lemma readLoop_S (fuel : nat) (buf : list byte) (expected : option N) :
  readLoop (S fuel) buf expected =
  match (match expected with
         | None => match readUInt32BE buf with
                   | Some n => Some (n, drop 4 buf)
                   | None => None
                   end
         | Some n => Some (n, buf)
         end) with
  | None => ({| buffer := buf; expectedLength := None |}, [])
  | Some (n, buf) =>
      if (N.to_nat n <=? length buf)%nat
      then ((readLoop fuel (drop (N.to_nat n) buf) None).1,
            take (N.to_nat n) buf :: (readLoop fuel (drop (N.to_nat n) buf) None).2)
      else ({| buffer := buf; expectedLength := Some n |}, [])
  end.
Proof.
  cbn [readLoop]. destruct expected as [n|].
  - destruct (N.to_nat n <=? length buf)%nat; [|done]. by destruct (readLoop fuel _ None).
  - destruct (readUInt32BE buf) as [n|]; [|done].
    destruct (N.to_nat n <=? length (drop 4 buf))%nat; [|done].
    by destruct (readLoop fuel _ None).
Qed.

(** The loop has fuel to reach its [break]: more fuel changes nothing. *)
Lemma readLoop_fuel (fuel fuel' : nat) (buf : list byte) :
  (length buf < fuel)%nat → (length buf < fuel')%nat →
  readLoop fuel buf None = readLoop fuel' buf None.
Proof.
  revert fuel' buf. induction fuel as [|fuel IH]; intros [|fuel'] buf Hf Hf'; try lia.
  rewrite !readLoop_S. destruct (readUInt32BE buf) as [n|] eqn:Hread; [|done].
  apply read_Some_length in Hread.
  destruct (N.to_nat n <=? length (drop 4 buf))%nat; [|done].
  rewrite (IH fuel'); [done|rewrite !length_drop; lia..].
Qed.

Lemma readAll_None (buf : list byte) :
  readAll buf None =
  match readUInt32BE buf with
  | Some n => readAll (drop 4 buf) (Some n)
  | None => ({| buffer := buf; expectedLength := None |}, [])
  end.
Proof.
  unfold readAll. rewrite readLoop_S.
  destruct (readUInt32BE buf) as [n|] eqn:Hread; [|done].
  apply read_Some_length in Hread.
  rewrite (readLoop_S (S (length (drop 4 buf)))).
  destruct (N.to_nat n <=? length (drop 4 buf))%nat; [|done].
  rewrite (readLoop_fuel (S (length buf)) (S (length (drop 4 buf))));
    [done|rewrite !length_drop; lia..].
Qed.

Lemma readAll_Some (buf : list byte) (n : N) :
  readAll buf (Some n) =
  if (N.to_nat n <=? length buf)%nat
  then ((readAll (drop (N.to_nat n) buf) None).1,
        take (N.to_nat n) buf :: (readAll (drop (N.to_nat n) buf) None).2)
  else ({| buffer := buf; expectedLength := Some n |}, []).
Proof.
  unfold readAll. rewrite readLoop_S.
  destruct (N.to_nat n <=? length buf)%nat; [|done].
  rewrite (readLoop_fuel (S (length buf)) (S (S (length (drop (N.to_nat n) buf)))));
    [done|rewrite ?length_drop; lia..].
Qed.

(** Bytes that arrive later do not change what the loop made of the bytes
    it had: reading [buf ++ chunk] is reading [buf], then reading on with
    [chunk] appended to what was left. *)
Lemma readAll_app (buf chunk : list byte) (expected : option N) :
  readAll (buf ++ chunk) expected =
  let '(st1, ms1) := readAll buf expected in
  let '(st2, ms2) := readAll (buffer st1 ++ chunk) (expectedLength st1) in
  (st2, ms1 ++ ms2).
Proof.
  remember (2 * length buf + match expected with Some _ => 1 | None => 0 end)%nat
    as m eqn:Hm.
  revert buf expected Hm.
  induction (lt_wf m) as [m _ IH]. intros buf [n|] ->.
  - rewrite (readAll_Some buf), (readAll_Some (buf ++ chunk)).
    destruct (Nat.leb_spec (N.to_nat n) (length buf)) as [Hle|Hgt].
    + rewrite (proj2 (Nat.leb_le _ _)) by (rewrite length_app; lia).
      rewrite drop_app_le, take_app_le by done.
      rewrite (IH (2 * length (drop (N.to_nat n) buf) + 0)%nat
                 ltac:(rewrite length_drop; lia) (drop (N.to_nat n) buf) None eq_refl).
      destruct (readAll (drop (N.to_nat n) buf) None) as [st1 ms1]. simpl.
      by destruct (readAll (buffer st1 ++ chunk) (expectedLength st1)).
    + cbn [buffer expectedLength app]. rewrite (readAll_Some (buf ++ chunk)).
      by destruct (N.to_nat n <=? length (buf ++ chunk))%nat.
  - rewrite (readAll_None buf).
    destruct (readUInt32BE buf) as [n|] eqn:Hread.
    + rewrite (readAll_None (buf ++ chunk)), (read_app _ _ _ Hread).
      pose proof (read_Some_length _ _ Hread).
      rewrite drop_app_le by done.
      apply (IH (2 * length (drop 4 buf) + 1)%nat
               ltac:(rewrite length_drop; lia) (drop 4 buf) (Some n) eq_refl).
    + cbn [buffer expectedLength app].
      by destruct (readAll (buf ++ chunk) None).
Qed.

Lemma readAll_settled (buf : list byte) (expected : option N) :
  settled (readAll buf expected).1.
Proof.
  remember (2 * length buf + match expected with Some _ => 1 | None => 0 end)%nat
    as m eqn:Hm.
  revert buf expected Hm.
  induction (lt_wf m) as [m _ IH]. intros buf [n|] ->.
  - rewrite readAll_Some.
    destruct (Nat.leb_spec (N.to_nat n) (length buf)) as [Hle|Hgt]; simpl.
    + apply (IH (2 * length (drop (N.to_nat n) buf) + 0)%nat
                 ltac:(rewrite length_drop; lia) (drop (N.to_nat n) buf) None eq_refl).
    + unfold settled. simpl. rewrite readAll_Some.
      by rewrite (proj2 (Nat.leb_gt _ _)) by lia.
  - rewrite readAll_None. destruct (readUInt32BE buf) as [n|] eqn:Hread.
    + pose proof (read_Some_length _ _ Hread).
      apply (IH (2 * length (drop 4 buf) + 1)%nat
               ltac:(rewrite length_drop; lia) (drop 4 buf) (Some n) eq_refl).
    + unfold settled. simpl. by rewrite readAll_None, Hread.
Qed.

Lemma idle_settled : settled idle.
Proof. done. Qed.

(** A chunk handled in two parts leaves the same reader and delivers the
    same messages, in the same order, as the chunk handled at once. *)
Lemma onData_app (st : Reader) (c1 c2 : list byte) :
  onData st (c1 ++ c2) =
  ((onData (onData st c1).1 c2).1, (onData st c1).2 ++ (onData (onData st c1).1 c2).2).
Proof.
  unfold onData. rewrite app_assoc, readAll_app.
  destruct (readAll (buffer st ++ c1) (expectedLength st)) as [st1 ms1]. simpl.
  by destruct (readAll (buffer st1 ++ c2) (expectedLength st1)).
Qed.

Lemma feed_onData (st : Reader) (chunks : list (list byte)) :
  settled st → feed st chunks = onData st (concat chunks).
Proof.
  revert st. induction chunks as [|c chunks IH]; intros st Hst.
  - simpl. unfold onData. by rewrite app_nil_r.
  - cbn [feed concat]. rewrite onData_app.
    pose proof (readAll_settled (buffer st ++ c) (expectedLength st)) as Hst'.
    fold (onData st c) in Hst'.
    destruct (onData st c) as [st1 ms1]. simpl in *.
    rewrite (IH st1 Hst'). by destruct (onData st1 (concat chunks)).
Qed.

(** How the stream is cut into chunks does not matter: two sequences of
    chunks that carry the same bytes leave the same reader and deliver the
    same messages, in the same order, from any state in which the handler
    leaves the reader. *)
Theorem data_split_independent (st : Reader) (chunks1 chunks2 : list (list byte)) :
  settled st →
  concat chunks1 = concat chunks2 →
  feed st chunks1 = feed st chunks2.
Proof.
  intros Hst Hsame. rewrite !feed_onData by done. by rewrite Hsame.
Qed.

Lemma readAll_frame (payload framed rest : list byte) :
  frame payload = Some framed →
  readAll (framed ++ rest) None =
  ((readAll rest None).1, payload :: (readAll rest None).2).
Proof.
  unfold frame. destruct (writeUInt32BE _) as [hdr|] eqn:Hw; [|done].
  intros [= <-]. rewrite <- app_assoc.
  destruct (read_write _ _ (payload ++ rest) Hw) as [Hread Hlen].
  rewrite readAll_None, Hread.
  rewrite drop_app_length' by done.
  rewrite readAll_Some, Nat2N.id.
  rewrite (proj2 (Nat.leb_le _ _)) by (rewrite length_app; lia).
  by rewrite drop_app_length, take_app_length.
Qed.

(** Round trip of the framing.  Messages framed by [sendToSocket] and
    written one after the other reach the data handler in chunks cut anywhere:
    the handler delivers exactly the messages, in order, and is left with an
    empty buffer. *)
Theorem frames_round_trip (payloads frames : list (list byte))
    (chunks : list (list byte)) :
  mapM frame payloads = Some frames →
  concat chunks = concat frames →
  feed idle chunks = (idle, payloads).
Proof.
  intros Hframes Hcat.
  rewrite (feed_onData idle chunks idle_settled), Hcat.
  unfold onData. simpl. clear Hcat chunks.
  revert frames Hframes. induction payloads as [|p payloads IH]; intros frames Hframes.
  - injection Hframes as <-. done.
  - apply mapM_Some in Hframes.
    destruct frames as [|f frames]; [by inversion Hframes|].
    apply Forall2_cons in Hframes as [Hf Hframes].
    apply mapM_Some in Hframes. simpl.
    rewrite (readAll_frame p f _ Hf), (IH frames Hframes). done.
Qed.

(** The handler never delivers a message before its last byte has come:
    while the bytes received are a proper prefix of a frame, nothing is
    delivered. *)
Theorem partial_frame_delivers_nothing (payload framed : list byte)
    (chunks : list (list byte)) :
  frame payload = Some framed →
  concat chunks `prefix_of` framed →
  (length (concat chunks) < length framed)%nat →
  (feed idle chunks).2 = [].
Proof.
  intros Hframe [k Hk] Hlt.
  rewrite (feed_onData idle chunks idle_settled).
  unfold onData. simpl. set (pre := concat chunks) in *.
  unfold frame in Hframe. destruct (writeUInt32BE _) as [hdr|] eqn:Hw; [|done].
  injection Hframe as <-.
  destruct (read_write _ _ payload Hw) as [Hread Hlen].
  rewrite readAll_None. destruct (readUInt32BE pre) as [n|] eqn:Hpre; [|done].
  pose proof (read_Some_length _ _ Hpre) as H4.
  apply (read_app _ k) in Hpre. rewrite <- Hk, Hread in Hpre. injection Hpre as <-.
  rewrite readAll_Some, Nat2N.id.
  rewrite length_app in Hlt.
  by rewrite (proj2 (Nat.leb_gt _ _)) by (rewrite length_drop; lia).
Qed.

Lemma frames_round_trip_witness : feed idle someChunks = (idle, twoMessages).
Proof.
  apply (frames_round_trip twoMessages twoFrames someChunks); reflexivity.
Defined.

Lemma partial_frame_witness :
  (feed idle [[x00; x00; x00]; [x02; x7b]]%byte).2 = [].
Proof.
  apply (partial_frame_delivers_nothing [x7b; x7d]%byte
           [x00; x00; x00; x02; x7b; x7d]%byte).
  - reflexivity.
  - by exists [x7d]%byte.
  - simpl. lia.
Defined.

Lemma data_split_witness : feed idle someChunks = feed idle twoFrames.
Proof.
  apply (data_split_independent idle someChunks twoFrames);
    [apply idle_settled | reflexivity].
Defined.

End FramingFacts.

Module TransferMore.
Import Transfer TransferLaws TransferFacts.

Lemma sortEntries_sorted {V : Type} (l : list (Z * V)) (a : Z) :
  l.*1 = seqZ a (Z.of_nat (length l)) → sortEntries l = l.
Proof.
  revert a. induction l as [|e l IH]; intros a Hkeys; [done|].
  rewrite seqZ_cons in Hkeys by (simpl; lia).
  cbn [fmap list_fmap] in Hkeys. injection Hkeys as He Hkeys.
  replace (Z.pred (Z.of_nat (S (length l)))) with (Z.of_nat (length l)) in Hkeys
    by lia.
  unfold sortEntries in *. cbn [foldr]. rewrite (IH _ Hkeys).
  destruct l as [|e' l]; [done|].
  rewrite seqZ_cons in Hkeys by (simpl; lia).
  cbn [fmap list_fmap] in Hkeys. injection Hkeys as He' _.
  cbn [insertEntry]. by rewrite (proj2 (Z.leb_le _ _)) by lia.
Qed.

Lemma chunkObj_chunkMessage (c : Chunk) : chunkObj (chunkMessage c) = c.
Proof. by destruct c. Qed.


Lemma mapSet_keys_mem {V : Type} (k : Z) (x : V) (l : list (Z * V)) :
  k ∈ l.*1 → (mapSet k x l).*1 = l.*1.
Proof.
  induction l as [|[k' y] l IH]; [by intros ?%elem_of_nil|].
  cbn [mapSet]. destruct (Z.eqb_spec k k') as [->|Hne]; [done|].
  rewrite !fmap_cons. intros [?|Hin]%elem_of_cons; [done|]. by rewrite IH.
Qed.

Lemma mapSet_elem {V : Type} (k : Z) (x : V) (l : list (Z * V)) :
  (k, x) ∈ mapSet k x l.
Proof.
  induction l as [|[k' y] l IH]; simpl; [by left|].
  destruct (k =? k'); [by left|by right].
Qed.


Lemma mapSet_length {V : Type} (k : Z) (x : V) (l : list (Z * V)) :
  (length l ≤ length (mapSet k x l))%nat ∧ mapSet k x l ≠ [].
Proof.
  destruct (decide (k ∈ l.*1)) as [Hin|Hnot].
  - pose proof (mapSet_keys_mem k x l Hin) as Heq.
    apply (f_equal length) in Heq. rewrite !length_fmap in Heq.
    split; [lia|]. intros Hnil. rewrite Hnil in Heq. simpl in Heq.
    destruct l; [by apply elem_of_nil in Hin|done].
  - rewrite mapSet_fresh by done. rewrite length_app. simpl.
    split; [lia|]. by destruct l.
Qed.


Section Facts.
Context `{WasmModule}.

(** The chunks [transferFile] sends: the prepared ones in order, or the one
    empty chunk of the fallback. *)
Lemma sent_transferFile (st : SyncService) (p peerId key : string)
    (content : list byte) (cs : list Chunk) :
  transferManager st = true →
  vaultContents st !! p = Some content →
  prepare_transfer p content key = Some cs →
  sent (transferFile st p peerId key) =
  match cs with
  | [] => match content with
          | [] => if wasmModule st
                  then match encrypt_data key [] with
                       | Some (encData, encNonce) =>
                           [(peerId, {| filePath := p; chunkIndex := 0; totalChunks := 1;
                                        data := encData; nonce := encNonce |})]
                       | None => []
                       end
                  else []
          | _ => []
          end
  | _ => (λ c, (peerId, chunkMessage c)) <$> cs
  end.
Proof.
  intros Htm Hcontent Hprep. unfold transferFile. rewrite Htm, Hcontent, Hprep.
  cbn [negb]. destruct cs as [|c cs'].
  - destruct content as [|b content]; [|done]. cbn [length Z.of_nat Z.eqb andb].
    destruct (wasmModule st); [|done].
    by destruct (encrypt_data key []) as [[encData encNonce]|].
  - assert (Hlen : (Z.of_nat (length (c :: cs')) =? 0) = false)
      by (apply Z.eqb_neq; simpl; lia).
    rewrite Hlen. cbn [negb andb app].
    rewrite sent_trigger, sent_app, sent_sendChunks. simpl. by rewrite app_nil_r.
Qed.

Lemma entries_values (ms : list FileChunk) : (entries ms).*2 = ms.
Proof.
  unfold entries. rewrite <- list_fmap_compose. apply list_fmap_id.
Qed.

(** Round trip of a transfer.  What [transferFile] sends for a file, handed
    in order to the FILE_CHUNK handler of a peer that holds the same session
    key and no chunk of the file yet, ends in one write: the file, with the
    content the sender read.  This holds for the empty file too, which
    travels as the one chunk of the fallback. *)
Theorem transfer_round_trip (sender receiver : SyncService)
    (p toPeer fromPeer key : string) (content : list byte) (cs : list Chunk) :
  transferManager sender = true →
  vaultContents sender !! p = Some content →
  prepare_transfer p content key = Some cs →
  prepares p content key cs →
  (cs = [] → wasmModule sender = true ∧ is_Some (encrypt_data key []) ∧
             decrypts_what_encrypts key) →
  transferManager receiver = true →
  sessionKeys receiver !! fromPeer = Some key →
  incomingChunks receiver !! fileKeyOf fromPeer p = None →
  written (deliver receiver fromPeer
             (sent (transferFile sender p toPeer key)).*2).2 = [(p, content)].
Proof.
  intros Htm Hcontent Hprep (Hall & Hidx & parts & Hparts & Hcat) Hempty
    Hrtm Hkey Hnone.
  rewrite (sent_transferFile sender p toPeer key content cs Htm Hcontent Hprep).
  destruct cs as [|c cs'].
  - destruct (Hempty eq_refl) as (Hmod & [[encData encNonce] Henc] & Hcipher).
    simpl in Hparts. injection Hparts as <-. simpl in Hcat. subst content.
    rewrite Hmod, Henc. cbn [fmap list_fmap snd].
    set (m := {| filePath := p; chunkIndex := 0; totalChunks := 1;
                 data := encData; nonce := encNonce |}).
    rewrite (deliver_completes [m] receiver fromPeer key p []).
    + rewrite written_reassemble, Hrtm. cbn [chunks path app entries fmap list_fmap].
      assert (Hd : decrypt_chunk (chunkObj m) key = Some [])
        by (by apply Hcipher).
      unfold sortEntries. cbn [foldr insertEntry fmap list_fmap snd mapM].
      rewrite Hd. done.
    + done.
    + unfold holds. by rewrite Hnone.
    + simpl. apply NoDup_singleton.
    + by apply Forall_singleton.
    + done.
  - set (cs := c :: cs') in *.
    assert (Hms : ((λ c0, (toPeer, chunkMessage c0)) <$> cs).*2 = chunkMessage <$> cs).
    { rewrite <- list_fmap_compose. done. }
    rewrite Hms. set (ms := chunkMessage <$> cs).
    assert (Hlen : length ms = length cs) by apply length_fmap.
    assert (Hkeys : chunkIndex <$> ms = seqZ 0 (Z.of_nat (length ms))).
    { unfold ms at 1. rewrite <- list_fmap_compose, Hlen.
      rewrite <- Hidx. by apply list_fmap_ext. }
    rewrite (deliver_completes ms receiver fromPeer key p []).
    + rewrite written_reassemble, Hrtm. cbn [chunks path app].
      rewrite (sortEntries_sorted (entries ms) 0)
        by (rewrite entries_keys; unfold entries; by rewrite length_fmap).
      rewrite entries_values.
      assert (mapM (λ m, decrypt_chunk (chunkObj m) key) ms = Some parts) as ->.
      { unfold ms. rewrite <- Hparts. clear.
        induction cs as [|c0 cs IH]; [done|].
        cbn [fmap list_fmap mapM]. rewrite chunkObj_chunkMessage.
        fold (chunkMessage <$> cs). by rewrite IH. }
      by rewrite Hcat.
    + done.
    + unfold holds. by rewrite Hnone.
    + change (NoDup (chunkIndex <$> ms)). rewrite Hkeys. apply NoDup_seqZ.
    + change (Forall (λ m, filePath m = p ∧ totalChunks m = Z.of_nat (length ms)) ms).
      unfold ms. apply Forall_fmap. rewrite length_fmap.
      eapply Forall_impl; [exact Hall|]. intros c0 [Hp Ht]. by destruct c0.
    + unfold ms, cs. done.
Qed.

(** A FILE_CHUNK that arrives before a session key exists is lost: it is
    not buffered, nothing is written, and each such chunk asks for a
    session once. *)
Theorem chunks_without_session_are_dropped (st : SyncService) (peerId : string)
    (ms : list FileChunk) :
  sessionKeys st !! peerId = None →
  incomingChunks (deliver st peerId ms).1 = incomingChunks st ∧
  written (deliver st peerId ms).2 = [] ∧
  sessionRequests (deliver st peerId ms).2 = replicate (length ms) peerId.
Proof.
  revert st. induction ms as [|m ms IH]; intros st Hkey; [done|].
  simpl deliver. unfold handleFileChunk. rewrite Hkey.
  match goal with
  | |- context [deliver ?s peerId ms] =>
      destruct (IH s Hkey) as (Hinc & Hw & Hreq);
      destruct (deliver s peerId ms) as [st'' effs']
  end.
  simpl in *. by rewrite Hreq.
Qed.

(** A chunk sent again replaces the one stored under its index and is not
    counted twice: the indices buffered stay the same, the transfer stays
    open and nothing is written. *)
Theorem resent_chunk_is_not_counted (st : SyncService) (peerId key : string)
    (m : FileChunk) (t : IncomingTransfer) :
  sessionKeys st !! peerId = Some key →
  incomingChunks st !! fileKeyOf peerId (filePath m) = Some t →
  chunkIndex m ∈ (chunks t).*1 →
  Z.of_nat (length (chunks t)) ≠ total t →
  (buffered (handleFileChunk st peerId m).1 (fileKeyOf peerId (filePath m))).*1
    = (chunks t).*1 ∧
  (chunkIndex m, m) ∈ buffered (handleFileChunk st peerId m).1
                        (fileKeyOf peerId (filePath m)) ∧
  written (handleFileChunk st peerId m).2 = [].
Proof.
  intros Hkey Ht Hin Hopen. unfold handleFileChunk. rewrite Hkey, Ht.
  cbn [chunks total path].
  assert (Hlen : length (mapSet (chunkIndex m) m (chunks t)) = length (chunks t)).
  { rewrite <- (length_fmap fst), mapSet_keys_mem by done. apply length_fmap. }
  rewrite Hlen, (proj2 (Z.eqb_neq _ _) Hopen).
  unfold buffered. cbn [fst snd incomingChunks set_transfers].
  rewrite lookup_insert_eq. cbn [chunks].
  split_and!; [by apply mapSet_keys_mem|apply mapSet_elem|done].
Qed.


(** A transfer that holds more chunks than it declared stays so, and
    writes nothing, whatever chunks of the file follow. *)
Lemma deliver_overfull (ms : list FileChunk) :
  ∀ (st : SyncService) (peerId key p : string) (t : IncomingTransfer),
    sessionKeys st !! peerId = Some key →
    incomingChunks st !! fileKeyOf peerId p = Some t →
    total t < Z.of_nat (length (chunks t)) →
    Forall (λ m, filePath m = p) ms →
    written (deliver st peerId ms).2 = [].
Proof.
  induction ms as [|m ms IH]; intros st peerId key p t Hkey Ht Hover Hall; [done|].
  apply Forall_cons in Hall as [Hp Hall]. simpl deliver.
  destruct (handleFileChunk st peerId m) as [st' effs] eqn:Hstep.
  unfold handleFileChunk in Hstep. rewrite Hkey, Hp, Ht in Hstep.
  cbn [chunks total path] in Hstep.
  pose proof (mapSet_length (chunkIndex m) m (chunks t)) as [Hlen _].
  rewrite (proj2 (Z.eqb_neq _ _)) in Hstep by lia.
  injection Hstep as <- <-.
  match goal with
  | |- context [deliver ?s peerId ms] =>
      pose proof (IH s peerId key p
                    {| chunks := mapSet (chunkIndex m) m (chunks t);
                       total := total t; path := path t |}) as Hrest;
      destruct (deliver s peerId ms) as [st'' effs']
  end.
  cbn [snd]. rewrite written_app. simpl in Hrest |- *.
  apply Hrest; [done|by rewrite lookup_insert_eq|lia|done].
Qed.

(** A transfer whose first chunk declares no chunk at all ([totalChunks]
    zero or negative) never completes: whatever chunks of the file follow,
    nothing is written. *)
Theorem transfer_declared_empty_never_completes (st : SyncService)
    (peerId key p : string) (m0 : FileChunk) (ms : list FileChunk) :
  sessionKeys st !! peerId = Some key →
  incomingChunks st !! fileKeyOf peerId p = None →
  filePath m0 = p →
  totalChunks m0 ≤ 0 →
  Forall (λ m, filePath m = p) ms →
  written (deliver st peerId (m0 :: ms)).2 = [].
Proof.
  intros Hkey Hnone Hp Htot Hall. simpl deliver.
  destruct (handleFileChunk st peerId m0) as [st' effs] eqn:Hstep.
  unfold handleFileChunk in Hstep. rewrite Hkey, Hp, Hnone in Hstep.
  cbn [chunks total path mapSet length] in Hstep.
  rewrite (proj2 (Z.eqb_neq _ _)) in Hstep by lia.
  injection Hstep as <- <-.
  match goal with
  | |- context [deliver ?s peerId ms] =>
      pose proof (deliver_overfull ms s peerId key p
                    {| chunks := [(chunkIndex m0, m0)];
                       total := totalChunks m0; path := p |}) as Hrest;
      destruct (deliver s peerId ms) as [st'' effs']
  end.
  cbn [snd]. rewrite written_app. simpl in Hrest |- *.
  apply Hrest; [done|by rewrite lookup_insert_eq|simpl; lia|done].
Qed.

End Facts.

Lemma transfer_round_trip_witness :
  written (deliver (H:=plainWasm) exampleService "peer-1"
             (sent (transferFile (H:=plainWasm) senderService "a.md" "peer-2" "key")).*2).2
  = [("a.md", [x68; x69; x21]%byte)].
Proof.
  apply (transfer_round_trip (H:=plainWasm) senderService exampleService
           "a.md" "peer-2" "peer-1" "key" [x68; x69; x21]%byte
           [ {| file_path := "a.md"; chunk_index := 0; total_chunks := 1;
                chunk_data := [104; 105; 33]; chunk_nonce := [] |} ]).
  - reflexivity.
  - reflexivity.
  - reflexivity.
  - split; [by apply Forall_singleton|]. split; [reflexivity|].
    by exists [[x68; x69; x21]%byte].
  - discriminate.
  - reflexivity.
  - reflexivity.
  - reflexivity.
Defined.

Lemma chunks_without_session_witness :
  incomingChunks (deliver (H:=plainWasm) exampleService "peer-9"
                    [exampleChunk 0 [104]; exampleChunk 1 [105]]).1
    = incomingChunks exampleService ∧
  written (deliver (H:=plainWasm) exampleService "peer-9"
             [exampleChunk 0 [104]; exampleChunk 1 [105]]).2 = [] ∧
  sessionRequests (deliver (H:=plainWasm) exampleService "peer-9"
                     [exampleChunk 0 [104]; exampleChunk 1 [105]]).2
    = ["peer-9"; "peer-9"].
Proof.
  apply (chunks_without_session_are_dropped (H:=plainWasm) exampleService "peer-9"
           [exampleChunk 0 [104]; exampleChunk 1 [105]]).
  reflexivity.
Defined.

Lemma resent_chunk_witness :
  (buffered (handleFileChunk (H:=plainWasm) oneChunkService "peer-1"
               (exampleChunk 0 [72])).1 "peer-1:a.md").*1 = [0] ∧
  (0, exampleChunk 0 [72]) ∈ buffered (handleFileChunk (H:=plainWasm) oneChunkService
                                          "peer-1" (exampleChunk 0 [72])).1 "peer-1:a.md" ∧
  written (handleFileChunk (H:=plainWasm) oneChunkService "peer-1"
             (exampleChunk 0 [72])).2 = [].
Proof.
  apply (resent_chunk_is_not_counted (H:=plainWasm) oneChunkService "peer-1" "key"
           (exampleChunk 0 [72])
           {| chunks := [(0, exampleChunk 0 [104])]; total := 3; path := "a.md" |}).
  - reflexivity.
  - reflexivity.
  - simpl. by left.
  - simpl. lia.
Defined.


Lemma declared_empty_witness :
  written (deliver (H:=plainWasm) exampleService "peer-1"
             [ {| filePath := "a.md"; chunkIndex := 0; totalChunks := 0;
                  data := [104]; nonce := [] |};
               exampleChunk 1 [105] ]).2 = [].
Proof.
  apply (transfer_declared_empty_never_completes (H:=plainWasm) exampleService
           "peer-1" "key" "a.md").
  - reflexivity.
  - reflexivity.
  - reflexivity.
  - simpl. lia.
  - by apply Forall_singleton.
Defined.

End TransferMore.

Module ReconciliationMore.
Import Reconciliation ReconciliationLaws ReconciliationFacts.

Implicit Types (v : gmap string TAbstractFile) (d : gmap string Z)
  (j : option (gmap string FileMetadata)) (r : RemoteFile)
  (rs : list RemoteFile) (c : SyncChange) (p : string).

Lemma elem_of_localLoop (paths : gset string) (files : list (string * Z)) c :
  c ∈ localLoop paths files ↔
  ∃ p m, (p, m) ∈ files ∧ ¬ (p ∈ paths) ∧ c = pushMissing p.
Proof.
  unfold localLoop. rewrite list_elem_of_omap. split.
  - intros [[q m] [Hin Hc]]. simpl in Hc. case_decide; simplify_eq.
    by exists q, m.
  - intros (q & m & Hin & Hnot & ->). exists (q, m). split; [done|].
    simpl. by rewrite decide_False.
Qed.

(** A local file the snapshot does not mention is pushed, in a run of the
    handler that does not throw: the plan holds for its path the push with
    reason "Remote missing file" and nothing else, and executing that change
    transfers the file to the peer. *)
Theorem unmentioned_local_file_is_pushed (st : Local) k rs p (m : Z) peerId :
  node st = true → sessionKey st = Some k →
  handleSyncResponse st rs ≠ Throws →
  vault st !! p = Some (TFile m) →
  ¬ (p ∈ path <$> rs) →
  only_action p (pushMissing p) (plan (handleSyncResponse st rs)) ∧
  executeChange peerId k (vault st) (pushMissing p)
    = (vault st, [TransferFile p peerId k]).
Proof.
  intros Hn Hk Hok Hv Hnot.
  split; [|by unfold executeChange; simpl; rewrite Hv].
  pose proof (completed_plan st k rs Hn Hk Hok) as Hcs.
  destruct (computeChanges_Some _ _ _ _ Hcs) as [Hall Heq]. rewrite Heq. split.
  - apply elem_of_app. right. apply elem_of_localLoop.
    exists p, m. split; [by apply elem_of_getFiles|].
    split; [|done]. by rewrite elem_of_list_to_set.
  - intros c [Hc|Hc]%elem_of_app Hp.
    + apply list_elem_of_bind in Hc as [r [Hc Hr]].
      destruct (Hall r Hr) as [pushed Hpushed]. rewrite Hpushed in Hc. simpl in Hc.
      apply (reconcileEntry_path _ _ _ _ _ Hpushed) in Hc. exfalso. apply Hnot.
      rewrite <- Hp, Hc. by apply list_elem_of_fmap_2.
    + apply elem_of_localLoop in Hc as (q & m' & _ & _ & ->).
      simpl in Hp. by subst q.
Qed.

(** The tolerance window, for a live entry against a local file of the
    same path (the snapshot's one entry for it), in a run of the handler that
    does not throw: more than 2000 ms ahead, the file is pulled; more than
    2000 ms behind, it is pushed; within 2000 ms either way, the plan holds
    nothing for the path. *)
Theorem tolerance_window (st : Local) k rs r (t1 : Z) :
  node st = true → sessionKey st = Some k →
  handleSyncResponse st rs ≠ Throws →
  r ∈ rs → (∀ r', r' ∈ rs → path r' = path r → r' = r) →
  isDeleted r = false →
  vault st !! path r = Some (TFile t1) →
  let changes := plan (handleSyncResponse st rs) in
  (2000 < mtime r - t1 → only_action (path r) (pullNewer (path r)) changes) ∧
  (mtime r - t1 < -2000 → only_action (path r) (pushNewer (path r)) changes) ∧
  (-2000 ≤ mtime r - t1 ≤ 2000 → no_action (path r) changes).
Proof.
  intros Hn Hk Hok Hr Huniq Hlive Hv changes. subst changes.
  pose proof (reconcileEntry_live_file (vault st) (myDeletedFiles (journal st))
                r t1 Hlive Hv) as Hentry.
  destruct (plan_of_entry st k rs r _ Hn Hk Hok Hr Hentry) as [Hin Honly].
  specialize (Honly Huniq).
  split_and!.
  - intros Hlt. rewrite (proj2 (Z.ltb_lt _ _) Hlt) in Hin, Honly. split.
    + apply Hin. by left.
    + intros c Hc Hp. by apply list_elem_of_singleton, Honly.
  - intros Hlt.
    rewrite (proj2 (Z.ltb_ge _ _)) in Hin, Honly by lia.
    rewrite (proj2 (Z.ltb_lt _ _) Hlt) in Hin, Honly. split.
    + apply Hin. by left.
    + intros c Hc Hp. by apply list_elem_of_singleton, Honly.
  - intros [Hlo Hhi] c Hc Hp.
    rewrite (proj2 (Z.ltb_ge _ _)) in Honly by lia.
    rewrite (proj2 (Z.ltb_ge _ _)) in Honly by lia.
    pose proof (Honly c Hc Hp) as Hin'. by apply not_elem_of_nil in Hin'.
Qed.

Lemma executeSync_VaultDelete (peerId k : string) (cs : list SyncChange) :
  ∀ v p, VaultDelete p ∈ executeSync peerId k v cs →
         ∃ c, c ∈ cs ∧ change_type c = type_delete ∧ change_path c = p.
Proof.
  induction cs as [|c cs IH]; intros v p Hin; [by apply elem_of_nil in Hin|].
  simpl in Hin.
  destruct (executeChange peerId k v c) as [v' effs] eqn:Hstep.
  apply elem_of_app in Hin as [Hin|Hin].
  - exists c. split; [by left|]. unfold executeChange in Hstep.
    destruct (change_type c); repeat case_match; simplify_eq;
      repeat match goal with
             | H : _ ∈ [] |- _ => by apply not_elem_of_nil in H
             | H : _ ∈ _ :: _ |- _ => apply elem_of_cons in H as [H|H]; simplify_eq
             end; done.
  - destruct (IH _ _ Hin) as (c' & Hc' & Hty & Hp).
    exists c'. split; [by right|done].
Qed.

(** Reconciliation deletes nothing on its own account: every file that
    the execution of the plan removes from the vault is there when the
    snapshot arrives, with a tombstone in the snapshot that is newer than it
    (a folder counting as of time 0). *)
Theorem vault_delete_needs_newer_tombstone (st : Local) rs p (peerId k : string) :
  VaultDelete p ∈ executeSync peerId k (vault st) (plan (handleSyncResponse st rs)) →
  ∃ r f, r ∈ rs ∧ path r = p ∧ isDeleted r = true ∧
         vault st !! p = Some f ∧ localMtime f < mtime r.
Proof.
  intros (c & Hc & Hty & Hp)%executeSync_VaultDelete.
  destruct (plan_cases st rs) as [Hplan|Hplan];
    [rewrite Hplan in Hc; by apply elem_of_nil in Hc|].
  destruct (computeChanges_Some _ _ _ _ Hplan) as [Hall Heq].
  rewrite Heq in Hc. apply elem_of_app in Hc as [Hc|Hc].
  - apply list_elem_of_bind in Hc as [r [Hc Hr]].
    destruct (Hall r Hr) as [pushed Hpushed]. rewrite Hpushed in Hc. simpl in Hc.
    pose proof (reconcileEntry_path _ _ _ _ _ Hpushed Hc) as Hpath.
    unfold reconcileEntry in Hpushed.
    destruct (isDeleted r) eqn:Hdel.
    + destruct (vault st !! path r) as [f|] eqn:Hv;
        [|injection Hpushed as <-; by apply elem_of_nil in Hc].
      destruct (Z.ltb_spec (match f with TFile m => m | TFolder => 0 end) (mtime r))
        as [Hlt|_]; [|injection Hpushed as <-; by apply elem_of_nil in Hc].
      exists r, f. rewrite <- Hp, Hpath. done.
    + exfalso. repeat case_match; simplify_eq;
        repeat match goal with
               | H : _ ∈ [] |- _ => by apply not_elem_of_nil in H
               | H : _ ∈ [_] |- _ => apply list_elem_of_singleton in H; subst
               end; done.
  - apply elem_of_localLoop in Hc as (q & m & _ & _ & ->). done.
Qed.

Lemma getFiles_sublist (l : list (string * TAbstractFile)) :
  (omap (λ kv : string * TAbstractFile,
           match kv.2 with TFile m => Some (kv.1, m) | TFolder => None end) l).*1
  `sublist_of` l.*1.
Proof.
  induction l as [|[q f] l IH]; [done|]. simpl.
  destruct f; simpl; [by apply sublist_skip | by apply sublist_cons].
Qed.

Lemma getFiles_NoDup v : NoDup (getFiles v).*1.
Proof.
  eapply sublist_NoDup; [|apply getFiles_sublist]. apply NoDup_fst_map_to_list.
Qed.

Lemma snapshotStep_NoDup (l : list (string * FileMetadata)) (acc : list RemoteFile) :
  NoDup (path <$> acc) → NoDup (path <$> foldl snapshotStep acc l).
Proof.
  revert acc. induction l as [|[q md] l IH]; intros acc Hnd; [done|].
  simpl. apply IH. unfold snapshotStep. simpl.
  destruct (is_deleted md); [|done]. case_bool_decide as Hin; [done|].
  rewrite fmap_app. apply NoDup_app. split_and!; [done| |apply NoDup_singleton].
  intros q' Hq' ->%list_elem_of_singleton. done.
Qed.

(** The snapshot sent for a SYNC_REQUEST holds one entry for a path, never
    two. *)
Theorem snapshot_one_entry_per_path (st : Local) rs :
  handleSyncRequest st = Some rs → NoDup (path <$> rs).
Proof.
  unfold handleSyncRequest. destruct (negb (node st)); [done|]. intros [= <-].
  apply snapshotStep_NoDup. rewrite <- list_fmap_compose.
  apply (getFiles_NoDup (vault st)).
Qed.

Lemma snapshot_adds (l : list (string * FileMetadata)) :
  ∀ (acc : list RemoteFile) q md,
    NoDup l.*1 → (q, md) ∈ l → is_deleted md = true →
    ¬ (q ∈ path <$> acc) →
    {| path := q; mtime := md_mtime md; isDeleted := true |} ∈ foldl snapshotStep acc l.
Proof.
  induction l as [|[q' md'] l IH]; intros acc q md Hnd Hin Hdel Hnot;
    [by apply elem_of_nil in Hin|].
  simpl in Hnd. apply NoDup_cons in Hnd as [Hfresh Hnd].
  apply elem_of_cons in Hin as [[= <- <-]|Hin]; simpl.
  - apply snapshot_keeps. unfold snapshotStep. simpl. rewrite Hdel.
    rewrite bool_decide_eq_false_2 by done. apply elem_of_app. right. by left.
  - apply IH; [done|done|done|].
    assert (q ≠ q').
    { intros ->. apply Hfresh. by apply (list_elem_of_fmap_2 fst _ (q', md)). }
    unfold snapshotStep. simpl. destruct (is_deleted md'); [|done].
    case_bool_decide; [done|]. rewrite fmap_app.
    intros [?|?%list_elem_of_singleton]%elem_of_app; done.
Qed.

(** What the snapshot holds: a live entry for every file of the vault,
    with the file's time; a tombstone for every path the journal marks
    deleted and at which the vault has no file, with the journal's time;
    and nothing else. *)
Theorem snapshot_entries (st : Local) rs r :
  handleSyncRequest st = Some rs →
  r ∈ rs ↔
  (isDeleted r = false ∧ vault st !! path r = Some (TFile (mtime r))) ∨
  (isDeleted r = true ∧ tombstoneAt (journal st) (path r) (mtime r) ∧
   ∀ m, vault st !! path r ≠ Some (TFile m)).
Proof.
  unfold handleSyncRequest. destruct (negb (node st)); [done|]. intros [= <-].
  set (files0 := (λ f : string * Z, {| path := f.1; mtime := f.2; isDeleted := false |})
                   <$> getFiles (vault st)).
  assert (Hlive : ∀ r', r' ∈ files0 ↔
            isDeleted r' = false ∧ vault st !! path r' = Some (TFile (mtime r'))).
  { intros r'. unfold files0. rewrite list_elem_of_fmap. split.
    - intros ([q m] & -> & Hin). simpl. split; [done|]. by apply elem_of_getFiles.
    - intros [Hd Hv]. exists (path r', mtime r'). split.
      + destruct r'. simpl in *. by subst.
      + by apply elem_of_getFiles. }
  assert (Hpaths : ∀ q, q ∈ path <$> files0 ↔ ∃ m, vault st !! q = Some (TFile m)).
  { intros q. rewrite list_elem_of_fmap. split.
    - intros (r' & -> & [_ Hv]%Hlive). eauto.
    - intros [m Hv]. exists {| path := q; mtime := m; isDeleted := false |}.
      split; [done|]. by apply Hlive. }
  split.
  - intros [Hr|(Hdel & Hnot & md & Hin & Hmd & Hm)]%snapshot_inv.
    + left. by apply Hlive.
    + right. split; [done|]. split.
      * destruct (journal st) as [files|] eqn:Hj; simpl in Hin;
          [|by rewrite map_to_list_empty in Hin; apply elem_of_nil in Hin].
        apply elem_of_map_to_list in Hin. by exists files, md.
      * intros m Hv. apply Hnot, Hpaths. eauto.
  - intros [Hr|(Hdel & (files & md & Hj & Hmd & Hd & Ht) & Hnone)].
    + apply snapshot_keeps. by apply Hlive.
    + rewrite Hj. simpl.
      replace r with {| path := path r; mtime := md_mtime md; isDeleted := true |}
        by (destruct r; simpl in *; by subst).
      apply snapshot_adds; [apply NoDup_fst_map_to_list
                           |by apply elem_of_map_to_list|done|].
      intros [m Hv]%Hpaths. by apply (Hnone m).
Qed.

(** Two devices whose vaults hold the same files are in sync, whatever
    their journals say: the snapshot one sends makes the other report that
    all files are up to date (no folder sitting at a path the sender's
    journal marks deleted). *)
Theorem equal_vaults_are_up_to_date (a b : Local) k rs :
  vault a = vault b →
  (∀ files p md, journal b = Some files → files !! p = Some md →
                 is_deleted md = true → vault b !! p ≠ Some TFolder) →
  handleSyncRequest b = Some rs →
  node a = true → sessionKey a = Some k →
  handleSyncResponse a rs = UpToDate.
Proof.
  intros Hv Hfolder Hsnap Hn Hk.
  pose proof (own_snapshot_mirrors b rs Hfolder Hsnap) as [Hentries Hfiles].
  assert (Hm : mirrors a rs) by (split; rewrite Hv; done).
  unfold handleSyncResponse. by rewrite Hn, Hk, (mirrors_no_changes a rs Hm).
Qed.

Lemma unmentioned_local_file_witness :
  only_action "note.md" (pushMissing "note.md")
    (plan (handleSyncResponse deviceA [remoteLive "other.md" 7])) ∧
  executeChange "peer" "session-key" (vault deviceA) (pushMissing "note.md")
    = (vault deviceA, [TransferFile "note.md" "peer" "session-key"]).
Proof.
  apply (unmentioned_local_file_is_pushed deviceA "session-key"
           [remoteLive "other.md" 7] "note.md" 100 "peer");
    [reflexivity | reflexivity | by vm_compute | reflexivity |].
  simpl. intros [=]%list_elem_of_singleton.
Defined.

Lemma tolerance_window_witness :
  only_action "note.md" (pushNewer "note.md")
    (plan (handleSyncResponse deviceA [remoteLive "note.md" (-1901)])) ∧
  no_action "note.md"
    (plan (handleSyncResponse deviceA [remoteLive "note.md" 2100])).
Proof.
  split.
  - apply (tolerance_window deviceA "session-key" [remoteLive "note.md" (-1901)]
             (remoteLive "note.md" (-1901)) 100);
      [reflexivity | reflexivity | by vm_compute | by left | apply only_entry_singleton
      | reflexivity | reflexivity | simpl; lia].
  - apply (tolerance_window deviceA "session-key" [remoteLive "note.md" 2100]
             (remoteLive "note.md" 2100) 100);
      [reflexivity | reflexivity | by vm_compute | by left | apply only_entry_singleton
      | reflexivity | reflexivity | simpl; lia].
Defined.

Lemma vault_delete_witness :
  ∃ r f, r ∈ [remoteTombstone "note.md" 500] ∧ path r = "note.md" ∧
         isDeleted r = true ∧ vault deviceA !! "note.md" = Some f ∧
         localMtime f < mtime r.
Proof.
  apply (vault_delete_needs_newer_tombstone deviceA [remoteTombstone "note.md" 500]
           "note.md" "peer" "session-key").
  replace (executeSync _ _ _ _)
    with [VaultDelete "note.md"; MarkFileDeleted "note.md"] by (by vm_compute).
  by left.
Defined.

Lemma snapshot_one_entry_witness :
  NoDup (path <$> [remoteLive "note.md" 100; remoteTombstone "gone.md" 900]).
Proof.
  apply (snapshot_one_entry_per_path deviceA). by vm_compute.
Defined.

Lemma snapshot_entries_witness :
  remoteTombstone "gone.md" 900
    ∈ [remoteLive "note.md" 100; remoteTombstone "gone.md" 900] ↔
  (isDeleted (remoteTombstone "gone.md" 900) = false ∧
   vault deviceA !! "gone.md" = Some (TFile 900)) ∨
  (isDeleted (remoteTombstone "gone.md" 900) = true ∧
   tombstoneAt (journal deviceA) "gone.md" 900 ∧
   ∀ m, vault deviceA !! "gone.md" ≠ Some (TFile m)).
Proof.
  apply (snapshot_entries deviceA
           [remoteLive "note.md" 100; remoteTombstone "gone.md" 900]
           (remoteTombstone "gone.md" 900)).
  by vm_compute.
Defined.

Lemma equal_vaults_witness :
  handleSyncResponse deviceA [remoteLive "note.md" 100; remoteTombstone "old.md" 40]
  = UpToDate.
Proof.
  apply (equal_vaults_are_up_to_date deviceA sameVaultDevice "session-key").
  - reflexivity.
  - intros files p md _ _ _ Hv. simpl in Hv.
    apply lookup_singleton_Some in Hv as [_ [=]].
  - by vm_compute.
  - reflexivity.
  - reflexivity.
Defined.

End ReconciliationMore.

Module SessionFacts.
Import Handshake Sessions HandshakeFacts.

Section Facts.
Context {KeyExchange Offer Answer SecurityState : Type}.
Variable getDeviceId : SecurityState → string.
Variable handleSessionOffer :
  SecurityState → string → SessionOffer → SecurityState * Completion (option Answer).
Variable createSessionOffer :
  SecurityState → string → SecurityState * Completion (Offer * KeyExchange).
Variable handleSessionAnswer :
  SecurityState → string → Answer → KeyExchange → SecurityState * Completion unit.
Variable getSessionKey : SecurityState → string → option string.

Local Abbreviation onOffer := (handleSessionOfferMessage KeyExchange Answer SecurityState
                                 getDeviceId handleSessionOffer).
Local Abbreviation answerTo := (answerOffer KeyExchange Answer SecurityState
                                  handleSessionOffer).
Local Abbreviation initiate := (initiateSession KeyExchange Offer SecurityState
                                  createSessionOffer).
Local Abbreviation initiateStart := (initiateSessionStart KeyExchange Offer SecurityState
                                       createSessionOffer).
Local Abbreviation initiateResume := (initiateSessionResume KeyExchange Offer SecurityState).
Local Abbreviation onAnswer := (handleSessionAnswerMessage KeyExchange Offer Answer
                                  SecurityState createSessionOffer handleSessionAnswer
                                  getSessionKey).
Local Abbreviation answerStart := (sessionAnswerStart KeyExchange Answer SecurityState
                                     handleSessionAnswer).

Local Abbreviation answerResume := (sessionAnswerResume KeyExchange Offer SecurityState
                                      createSessionOffer getSessionKey).

(** The handler of a SESSION_ANSWER run with nothing in between is its
    parts run one after the other: the part up to the [await], the part
    after it, and the rest of the [initiateSession] that part may have
    started. *)
Lemma handleSessionAnswerMessage_parts (st : State KeyExchange SecurityState)
    (peerId : string) (message : Answer) :
  onAnswer st peerId message =
  match (answerStart st peerId message).2 with
  | Some completion =>
      let resumed := answerResume (answerStart st peerId message).1 peerId completion in
      match resumed.2 with
      | Some created =>
          ((initiateResume resumed.1.1 peerId created).1,
           resumed.1.2 ++ (initiateResume resumed.1.1 peerId created).2)
      | None => resumed.1
      end
  | None => ((answerStart st peerId message).1, [])
  end.
Proof.
  unfold handleSessionAnswerMessage, sessionAnswerStart.
  destruct (pendingSessionOffers st !! peerId) as [keyExchange|]; [|done].
  destruct (handleSessionAnswer _ _ _ _) as [sec' [|[]]]; [done|]. cbn.
  unfold syncAllFilesToPeer, syncAllFilesToPeerStart. cbn.
  destruct (getSessionKey sec' peerId); [done|].
  unfold initiateSession.
  destruct (initiateSessionStart _ _ _ _ _ _) as [st' [created|]]; [|done].
  cbn. by destruct (initiateSessionResume _ _ _ _ _ _).
Qed.

(** [initiateSession] guards against a second offer only from the moment
    a call has got past its [await].  A second call for the same peer that
    starts before the first has resumed creates an offer of its own; both
    offers are sent, and the key exchange left pending is the second one.  A
    call that starts after the first has run to its end does nothing. *)
Theorem offer_is_guarded_only_after_resume (st : State KeyExchange SecurityState)
    (peerId : string) (sec1 sec2 : SecurityState) (offer1 offer2 : Offer)
    (keyExchange1 keyExchange2 : KeyExchange) :
  pendingSessionOffers st !! peerId = None →
  createSessionOffer (securityService st) peerId
    = (sec1, Returns (offer1, keyExchange1)) →
  createSessionOffer sec1 peerId = (sec2, Returns (offer2, keyExchange2)) →
  let first := initiateStart st peerId in
  let second := initiateStart first.1 peerId in
  let resumed1 := initiateResume second.1 peerId (Returns (offer1, keyExchange1)) in
  let resumed2 := initiateResume resumed1.1 peerId (Returns (offer2, keyExchange2)) in
  first.2 = Some (Returns (offer1, keyExchange1)) ∧
  second.2 = Some (Returns (offer2, keyExchange2)) ∧
  resumed1.2 ++ resumed2.2
    = [(peerId, OfferMessage offer1); (peerId, OfferMessage offer2)] ∧
  pendingSessionOffers resumed2.1 !! peerId = Some keyExchange2 ∧
  (initiate st peerId).2 = [(peerId, OfferMessage offer1)] ∧
  initiateStart (initiate st peerId).1 peerId = ((initiate st peerId).1, None).
Proof.
  intros Hnone Hc1 Hc2 first second resumed1 resumed2.
  subst first second resumed1 resumed2.
  unfold initiateSession, initiateSessionStart. rewrite Hnone, Hc1. cbn.
  rewrite Hnone, Hc2. cbn. rewrite !lookup_insert_eq. done.
Qed.

(** An answer that the security service refuses leaves the offer pending:
    nothing is sent, and asking again for a session with that peer does
    nothing at all. *)
Theorem refused_answer_blocks_new_offers (st : State KeyExchange SecurityState)
    (peerId : string) (message : Answer) (keyExchange : KeyExchange)
    (sec' : SecurityState) :
  pendingSessionOffers st !! peerId = Some keyExchange →
  handleSessionAnswer (securityService st) peerId message keyExchange = (sec', Throws) →
  (onAnswer st peerId message).2 = [] ∧
  pendingSessionOffers (onAnswer st peerId message).1 !! peerId = Some keyExchange ∧
  initiate (onAnswer st peerId message).1 peerId = ((onAnswer st peerId message).1, []).
Proof.
  intros Hp Hthrows. unfold handleSessionAnswerMessage, sessionAnswerStart.
  rewrite Hp, Hthrows. cbn.
  unfold initiateSession, initiateSessionStart. cbn. by rewrite Hp.
Qed.

(** Two devices of distinct ids, each with an offer pending for the other,
    receive each other's offer: exactly one of them ignores what it
    receives and keeps its offer; the other drops its own and answers. *)
Theorem crossing_offers_one_yields (stA stB : State KeyExchange SecurityState)
    (peerA peerB : string) (offerA offerB : SessionOffer) :
  deviceId offerA = getDeviceId (securityService stA) →
  deviceId offerB = getDeviceId (securityService stB) →
  deviceId offerA ≠ deviceId offerB →
  is_Some (pendingSessionOffers stA !! peerB) →
  is_Some (pendingSessionOffers stB !! peerA) →
  (onOffer stA peerB offerB = (stA, []) ∧
   onOffer stB peerA offerA =
     answerTo (base.delete peerA (pendingSessionOffers stB)) (securityService stB)
              peerA offerA) ∨
  (onOffer stB peerA offerA = (stB, []) ∧
   onOffer stA peerB offerB =
     answerTo (base.delete peerB (pendingSessionOffers stA)) (securityService stA)
              peerB offerB).
Proof.
  intros HA HB Hne [kA HpA] [kB HpB].
  unfold handleSessionOfferMessage. rewrite HpA, HpB, <- HA, <- HB.
  destruct (js_lt_total _ _ Hne) as [Hlt|Hlt].
  - left. by rewrite Hlt, (js_lt_asym _ _ Hlt).
  - right. by rewrite Hlt, (js_lt_asym _ _ Hlt).
Qed.

(** The device that yields to the peer's offer has dropped its own: the
    answer the peer may still send to that offer is ignored. *)
Theorem answer_to_dropped_offer_is_ignored (st : State KeyExchange SecurityState)
    (peerId : string) (offer : SessionOffer) (message : Answer) :
  is_Some (pendingSessionOffers st !! peerId) →
  js_lt (getDeviceId (securityService st)) (deviceId offer) = false →
  onAnswer (onOffer st peerId offer).1 peerId message
    = ((onOffer st peerId offer).1, []).
Proof.
  intros [k Hp] Hge. unfold handleSessionOfferMessage. rewrite Hp, Hge.
  unfold answerOffer.
  destruct (handleSessionOffer (securityService st) peerId offer) as [sec' c].
  unfold handleSessionAnswerMessage, sessionAnswerStart. cbn.
  by rewrite lookup_delete_eq.
Qed.

(** An answer the security service accepts ends the handshake once its
    handler has got past its [await]: run to its end, the handler removes the
    pending offer and asks for the state exchange (the session key being
    there), and an answer that arrives afterwards is ignored.  Until then the
    offer is still pending: the same answer arriving in between is handed to
    [handleSessionAnswer] again, with the same key exchange. *)
Theorem accepted_answer_is_consumed_on_resume (st : State KeyExchange SecurityState)
    (peerId key : string) (message : Answer) (keyExchange : KeyExchange)
    (sec' : SecurityState) :
  pendingSessionOffers st !! peerId = Some keyExchange →
  handleSessionAnswer (securityService st) peerId message keyExchange
    = (sec', Returns tt) →
  getSessionKey sec' peerId = Some key →
  (onAnswer st peerId message).2 = [(peerId, SYNC_REQUEST)] ∧
  pendingSessionOffers (onAnswer st peerId message).1 !! peerId = None ∧
  answerStart (onAnswer st peerId message).1 peerId message
    = ((onAnswer st peerId message).1, None) ∧
  pendingSessionOffers (answerStart st peerId message).1 !! peerId = Some keyExchange ∧
  (answerStart (answerStart st peerId message).1 peerId message).2
    = Some (handleSessionAnswer sec' peerId message keyExchange).2.
Proof.
  intros Hp Hret Hkey.
  unfold handleSessionAnswerMessage, sessionAnswerStart. rewrite Hp, Hret. cbn.
  unfold syncAllFilesToPeer. cbn. rewrite Hkey. cbn.
  rewrite lookup_delete_eq, Hp. split_and!; [done|done|done|done|].
  by destruct (handleSessionAnswer sec' peerId message keyExchange).
Qed.

End Facts.

Lemma offer_guard_witness :
  (initiateSessionStart unit string (list string) exampleCreate noSession "peer-1").2
    = Some (Returns ("offer", tt)) ∧
  (initiateSessionStart unit string (list string) exampleCreate
     (initiateSessionStart unit string (list string) exampleCreate noSession "peer-1").1
     "peer-1").2
    = Some (Returns ("offer", tt)) ∧
  (initiateSession unit string (list string) exampleCreate noSession "peer-1").2
    = [("peer-1", OfferMessage "offer")] ∧
  initiateSessionStart unit string (list string) exampleCreate
    (initiateSession unit string (list string) exampleCreate noSession "peer-1").1
    "peer-1"
  = ((initiateSession unit string (list string) exampleCreate noSession "peer-1").1,
     None).
Proof.
  destruct (offer_is_guarded_only_after_resume exampleCreate noSession "peer-1"
              [] [] "offer" "offer" tt tt eq_refl eq_refl eq_refl)
    as (Hfirst & Hsecond & _ & _ & Hsent & Hguard).
  split; [exact Hfirst|]. split; [exact Hsecond|]. split; [exact Hsent|exact Hguard].
Defined.

Lemma refused_answer_witness :
  (handleSessionAnswerMessage unit string string (list string)
     exampleCreate exampleAnswer exampleKey waiting "peer-1" "bad").2 = [] ∧
  pendingSessionOffers
    (handleSessionAnswerMessage unit string string (list string)
       exampleCreate exampleAnswer exampleKey waiting "peer-1" "bad").1 !! "peer-1"
    = Some tt ∧
  initiateSession unit string (list string) exampleCreate
    (handleSessionAnswerMessage unit string string (list string)
       exampleCreate exampleAnswer exampleKey waiting "peer-1" "bad").1 "peer-1"
  = ((handleSessionAnswerMessage unit string string (list string)
        exampleCreate exampleAnswer exampleKey waiting "peer-1" "bad").1, []).
Proof.
  apply (refused_answer_blocks_new_offers exampleCreate exampleAnswer exampleKey
           waiting "peer-1" "bad" tt []); reflexivity.
Defined.

Lemma crossing_offers_witness :
  (handleSessionOfferMessage unit string string id echoService
     (raceState "dA") "peer-1" (offerFrom "dB") = (raceState "dA", []) ∧
   handleSessionOfferMessage unit string string id echoService
     (raceState "dB") "peer-1" (offerFrom "dA") =
   answerOffer unit string string echoService
     (base.delete "peer-1" (pendingSessionOffers (raceState "dB")))
     (securityService (raceState "dB")) "peer-1" (offerFrom "dA")) ∨
  (handleSessionOfferMessage unit string string id echoService
     (raceState "dB") "peer-1" (offerFrom "dA") = (raceState "dB", []) ∧
   handleSessionOfferMessage unit string string id echoService
     (raceState "dA") "peer-1" (offerFrom "dB") =
   answerOffer unit string string echoService
     (base.delete "peer-1" (pendingSessionOffers (raceState "dA")))
     (securityService (raceState "dA")) "peer-1" (offerFrom "dB")).
Proof.
  apply (crossing_offers_one_yields (KeyExchange:=unit) id echoService
           (raceState "dA") (raceState "dB") "peer-1" "peer-1"
           (offerFrom "dA") (offerFrom "dB"));
    [reflexivity | reflexivity | discriminate | by eexists | by eexists].
Defined.

Lemma answer_to_dropped_offer_witness :
  handleSessionAnswerMessage unit string string string
    (λ sec _, (sec, Throws)) (λ sec _ _ _, (sec, Returns tt)) (λ _ _, None)
    (handleSessionOfferMessage unit string string id echoService
       (raceState "dB") "peer-1" (offerFrom "dA")).1 "peer-1" "answer"
  = ((handleSessionOfferMessage unit string string id echoService
        (raceState "dB") "peer-1" (offerFrom "dA")).1, []).
Proof.
  apply (answer_to_dropped_offer_is_ignored (KeyExchange:=unit) id echoService
           (λ sec _, (sec, Throws)) (λ sec _ _ _, (sec, Returns tt)) (λ _ _, None)
           (raceState "dB") "peer-1" (offerFrom "dA") "answer");
    [by eexists | reflexivity].
Defined.

Lemma accepted_answer_witness :
  (handleSessionAnswerMessage unit string string (list string)
     exampleCreate exampleAnswer exampleKey waiting "peer-1" "ok").2
    = [("peer-1", SYNC_REQUEST)] ∧
  pendingSessionOffers
    (handleSessionAnswerMessage unit string string (list string)
       exampleCreate exampleAnswer exampleKey waiting "peer-1" "ok").1 !! "peer-1"
    = None ∧
  pendingSessionOffers
    (sessionAnswerStart unit string (list string) exampleAnswer waiting "peer-1" "ok").1
    !! "peer-1" = Some tt.
Proof.
  destruct (accepted_answer_is_consumed_on_resume exampleCreate exampleAnswer exampleKey
              waiting "peer-1" "key" "ok" tt ["peer-1"] eq_refl eq_refl eq_refl)
    as (Hsent & Hgone & _ & Hstill & _).
  split; [exact Hsent|]. split; [exact Hgone|exact Hstill].
Defined.

End SessionFacts.

Module PairingMore.
Import Pairing PairingLaws PairingFacts.

Section Facts.
Context `{WasmCrypto}.

(** The life of a pairing code.  A second code replaces the first:
    requests with the first code are refused at once.  The timer of the first
    code leaves the second one active, unless the two codes are the same
    string, in which case that timer ends the second code early.  Once the
    timer of the active code has fired, every request is refused. *)
Theorem pairing_code_life_cycle (st st1 st2 : SecurityService)
    (code1 code2 senderIp : string) (msg : PairingRequest) :
  generatePairingCode st code1 = Some st1 →
  generatePairingCode st1 code2 = Some st2 →
  (pairingCode msg = code1 → code1 ≠ code2 →
   handlePairingRequest st2 msg senderIp = []) ∧
  activePairingCode (codeExpires st2 code1)
    = (if decide (code1 = code2) then None else Some code2) ∧
  handlePairingRequest (codeExpires st2 code2) msg senderIp = [].
Proof.
  unfold generatePairingCode. destruct (wasm st) eqn:Hw; [|done]. intros [= <-].
  simpl. rewrite Hw. intros [= <-]. split_and!.
  - intros Hc Hne. unfold handlePairingRequest. simpl.
    rewrite Hc. rewrite (proj2 (String.eqb_neq code2 code1)) by done.
    by rewrite andb_false_r.
  - unfold codeExpires. simpl. case_decide as Heq.
    + subst. by rewrite String.eqb_refl.
    + by rewrite (proj2 (String.eqb_neq code2 code1)).
  - unfold codeExpires. simpl. by rewrite String.eqb_refl.
Qed.

(** Nothing comes of a pairing request, neither a response nor a
    pairing_success, unless it carries the code that is active, a code that
    is not the empty string. *)
Theorem request_needs_the_active_code (st : SecurityService) (msg : PairingRequest)
    (senderIp : string) :
  handlePairingRequest st msg senderIp ≠ [] →
  activePairingCode st = Some (pairingCode msg) ∧ pairingCode msg ≠ EmptyString.
Proof.
  unfold handlePairingRequest.
  destruct (activePairingCode st) as [code|]; [|done].
  destruct (String.eqb_spec code EmptyString) as [->|Hne]; [done|]. simpl.
  destruct (String.eqb_spec code (pairingCode msg)) as [->|]; [|done].
  done.
Qed.

(** The whole exchange between two honest devices.  The responder answers
    the request that [initiatePairing] sends, when it carries the active
    code, and emits pairing_success for the initiator; the initiator accepts
    that answer: its promise resolves, the request is no longer pending, and
    it emits pairing_success for the responder. *)
Theorem honest_pairing_round_trip (ini resp ini' : SecurityService)
    (me them code requestId targetIp senderIp : string) (addresses : list string)
    (request : PairingRequest) :
  signature_verifies →
  identity ini = Some me → wasm ini = true →
  identity resp = Some them → transport resp = true →
  activePairingCode resp = Some code → code ≠ EmptyString →
  initiatePairing ini addresses code requestId = Some (ini', request, targetIp) →
  ∃ response,
    handlePairingRequest resp request senderIp
      = [SendResponse response senderIp;
         EmitPairingSuccess (deviceId ini) "My Device"] ∧
    handlePairingResponse ini' response
      = (set_pendingRequests (pendingRequests ini' ∖ {[ requestId ]}) ini',
         [Resolve requestId; EmitPairingSuccess (deviceId resp) "My Device"]).
Proof.
  intros Hsig Hme Hwasm Hthem Htr Hcode Hne Hinit.
  unfold initiatePairing in Hinit. rewrite Hme in Hinit.
  destruct (transport ini); [|done].
  destruct addresses as [|ip rest]; [done|].
  destruct (String.eqb ip EmptyString); [done|].
  injection Hinit as <- <- <-.
  eexists. split.
  - unfold handlePairingRequest. rewrite Hcode, Hthem, Htr. simpl.
    rewrite (proj2 (String.eqb_neq code EmptyString)) by done.
    rewrite String.eqb_refl. simpl. reflexivity.
  - unfold handlePairingResponse. simpl.
    rewrite decide_True by (apply elem_of_union; left; by apply elem_of_singleton).
    by rewrite Hwasm, Hme, Hsig.
Qed.

(** A response is consumed by its first handling: the same response
    arriving again changes nothing and has no effect. *)
Theorem replayed_response_is_ignored (st : SecurityService) (msg : PairingResponse) :
  handlePairingResponse (handlePairingResponse st msg).1 msg
    = ((handlePairingResponse st msg).1, []).
Proof.
  unfold handlePairingResponse at 2 3.
  case_decide as Hin; simpl.
  - unfold handlePairingResponse. rewrite decide_False; [done|].
    simpl. intros [_ Hn]%elem_of_difference. apply Hn. by apply elem_of_singleton.
  - unfold handlePairingResponse. by rewrite decide_False.
Qed.

(** Trust on the initiator's side: a pairing_success comes out of a
    response only when it answers a pending request, is accepted, and its
    signature verifies over the request id and the initiator's own public
    key; the device trusted is the one the response names. *)
Theorem trust_needs_pending_request_and_signature (st : SecurityService)
    (msg : PairingResponse) (device name : string) :
  EmitPairingSuccess device name ∈ (handlePairingResponse st msg).2 →
  requestId msg ∈ pendingRequests st ∧ status msg = accepted ∧
  device = responderDeviceId msg ∧
  ∃ me, identity st = Some me ∧
        verify_signature (responderPublicKey msg) (requestId msg +:+ get_public_key me)
                         (signature msg) = true.
Proof.
  unfold handlePairingResponse. case_decide as Hin; simpl;
    [|by intros ?%elem_of_nil].
  destruct (status msg); [|by intros [=]%list_elem_of_singleton].
  destruct (wasm st); [|by intros ?%elem_of_nil].
  destruct (identity st) as [me|]; [|by intros ?%elem_of_nil].
  destruct (verify_signature _ _ _) eqn:Hv;
    [|by intros [=]%list_elem_of_singleton].
  intros [[=]|[= -> ->]%list_elem_of_singleton]%elem_of_cons.
  split_and!; [done|done|done|]. by exists me.
Qed.

End Facts.

Lemma elem_of_addPairedDevice (device x : string) (pairedDevices : list string) :
  x ∈ addPairedDevice device pairedDevices ↔ x = device ∨ x ∈ pairedDevices.
Proof.
  unfold addPairedDevice, isPaired. case_bool_decide as Hin; simpl.
  - split; [by right|]. by intros [->|?].
  - rewrite elem_of_app, list_elem_of_singleton. tauto.
Qed.

(** The list of paired devices under [addPairedDevice]: the device added
    is paired, the others are as before, no device is listed twice, and
    adding it again changes nothing. *)
Theorem paired_devices_list (device other : string) (pairedDevices : list string) :
  NoDup pairedDevices →
  NoDup (addPairedDevice device pairedDevices) ∧
  isPaired other (addPairedDevice device pairedDevices)
    = bool_decide (other = device) || isPaired other pairedDevices ∧
  addPairedDevice device (addPairedDevice device pairedDevices)
    = addPairedDevice device pairedDevices.
Proof.
  intros Hnd. split_and!.
  - unfold addPairedDevice, isPaired. case_bool_decide as Hin; simpl; [done|].
    apply NoDup_app. split_and!; [done| |apply NoDup_singleton].
    by intros x Hx ->%list_elem_of_singleton.
  - unfold isPaired at 1 2. rewrite <- bool_decide_or.
    apply bool_decide_ext, elem_of_addPairedDevice.
  - unfold addPairedDevice at 1. unfold isPaired at 1.
    rewrite bool_decide_eq_true_2; [done|].
    apply elem_of_addPairedDevice. by left.
Qed.

Lemma plainCrypto_verifies : signature_verifies (H:=plainCrypto).
Proof. intros signer m. simpl. apply String.eqb_refl. Qed.

Lemma pairing_code_witness :
  (pairingCode (requestWith "123456") = "123456" → "123456" ≠ "654321" →
   handlePairingRequest (H:=plainCrypto)
     (set_activePairingCode (Some "654321") responder) (requestWith "123456")
     "10.0.0.2" = []) ∧
  activePairingCode (codeExpires (set_activePairingCode (Some "654321") responder)
                       "123456")
    = (if decide ("123456" = "654321") then None else Some "654321") ∧
  handlePairingRequest (H:=plainCrypto)
    (codeExpires (set_activePairingCode (Some "654321") responder) "654321")
    (requestWith "123456") "10.0.0.2" = [].
Proof.
  apply (pairing_code_life_cycle (H:=plainCrypto) responder
           (set_activePairingCode (Some "123456") responder)); reflexivity.
Defined.

Lemma request_needs_code_witness :
  activePairingCode responder = Some (pairingCode (requestWith "123456")) ∧
  pairingCode (requestWith "123456") ≠ EmptyString.
Proof.
  apply (request_needs_the_active_code (H:=plainCrypto) responder
           (requestWith "123456") "10.0.0.2").
  discriminate.
Defined.

Lemma honest_pairing_witness :
  ∃ response,
    handlePairingRequest (H:=plainCrypto) responder (requestWith "123456") "10.0.0.2"
      = [SendResponse response "10.0.0.2"; EmitPairingSuccess "dB" "My Device"] ∧
    handlePairingResponse (H:=plainCrypto)
      (set_pendingRequests ({[ "r1" ]} ∪ ∅) idleInitiator) response
      = (set_pendingRequests (({[ "r1" ]} ∪ ∅) ∖ {[ "r1" ]})
           (set_pendingRequests ({[ "r1" ]} ∪ ∅) idleInitiator),
         [Resolve "r1"; EmitPairingSuccess "dA" "My Device"]).
Proof.
  assert (Hcode : "123456" ≠ EmptyString) by discriminate.
  exact (honest_pairing_round_trip (H:=plainCrypto) idleInitiator responder
           (set_pendingRequests ({[ "r1" ]} ∪ ∅) idleInitiator)
           "key-B" "key-A" "123456" "r1" "10.0.0.1" "10.0.0.2" ["10.0.0.1"]
           (requestWith "123456") plainCrypto_verifies eq_refl eq_refl eq_refl
           eq_refl eq_refl Hcode eq_refl).
Defined.

Lemma trust_witness :
  requestId honestResponse ∈ pendingRequests initiator ∧
  status honestResponse = accepted ∧
  "dA" = responderDeviceId honestResponse ∧
  ∃ me, identity initiator = Some me ∧
        verify_signature (WasmCrypto:=plainCrypto) (responderPublicKey honestResponse)
          (requestId honestResponse +:+ get_public_key (WasmCrypto:=plainCrypto) me)
          (signature honestResponse) = true.
Proof.
  apply (trust_needs_pending_request_and_signature (H:=plainCrypto) initiator
           honestResponse "dA" "My Device").
  replace (handlePairingResponse initiator honestResponse).2
    with [Resolve "r1"; EmitPairingSuccess "dA" "My Device"].
  - right. by left.
  - unfold handlePairingResponse.
    rewrite decide_True by (cbn; by apply (elem_of_singleton_2 (C:=gset string))).
    reflexivity.
Defined.

Lemma paired_devices_witness :
  NoDup (addPairedDevice "dB" ["dA"]) ∧
  isPaired "dA" (addPairedDevice "dB" ["dA"])
    = bool_decide ("dA" = "dB") || isPaired "dA" ["dA"] ∧
  addPairedDevice "dB" (addPairedDevice "dB" ["dA"]) = addPairedDevice "dB" ["dA"].
Proof.
  apply (paired_devices_list "dB" "dA" ["dA"]). apply NoDup_singleton.
Defined.

End PairingMore.

Module DiscoveryMore.
Import Discovery DiscoveryFacts.

Implicit Types (st : DiscoveryService) (p q : string) (t h : nat).

(** Stopping the discovery cancels every TTL timeout and keeps the peer
    table: the peers known then stay listed, and no expiry removes them. *)
Theorem stopped_discovery_keeps_peers_without_expiry st :
  isDiscovering st = true → timeouts_registered st →
  peers (stopDiscovery st).1 = peers st ∧
  ttlTimers (stopDiscovery st).1 = ∅ ∧
  scheduled (stopDiscovery st).1 = ∅ ∧
  ∀ timer, timerFires (stopDiscovery st).1 timer = ((stopDiscovery st).1, []).
Proof.
  intros Hd [Hreg _]. unfold stopDiscovery. rewrite Hd. simpl.
  assert (Hnone : filter (λ kv : nat * string, kv.1 ∉ (map_img (ttlTimers st) : gset nat))
                    (scheduled st) = ∅).
  { apply map_empty. intros h.
    destruct (filter _ _ !! h) as [q|] eqn:Hq; [|done].
    apply map_lookup_filter_Some in Hq as [Hq Hnot]. simpl in Hnot.
    exfalso. apply Hnot, elem_of_map_img. eauto. }
  split_and!; [done|done|done|].
  intros timer. unfold timerFires. simpl. by rewrite Hnone, lookup_empty.
Qed.

Section Facts.
Variable parseAnnouncement : string → option Announcement.

(** An announcement postpones the expiry of its peer: the timeout that
    was pending for the peer is cancelled and does not fire, and a fresh one
    is pending in its place. *)
Theorem announcement_postpones_expiry st (msg senderIp : string) (now : Z)
    (data : Announcement) t :
  node st = true →
  parseAnnouncement msg = Some data →
  timeouts_registered st →
  scheduled st !! t = Some (peer_id data) →
  scheduled (handleDiscoveryMessage parseAnnouncement st msg senderIp now
               (Some true)).1 !! t = None ∧
  scheduled (handleDiscoveryMessage parseAnnouncement st msg senderIp now
               (Some true)).1 !! nextTimer st = Some (peer_id data) ∧
  timerFires (handleDiscoveryMessage parseAnnouncement st msg senderIp now
                (Some true)).1 t
    = ((handleDiscoveryMessage parseAnnouncement st msg senderIp now (Some true)).1, []).
Proof.
  intros Hn Hparse [Hreg Hfresh] Ht.
  pose proof (Hreg _ _ Ht) as Htimer. pose proof (Hfresh _ _ Ht) as Hlt.
  unfold handleDiscoveryMessage. rewrite Hn, Hparse. simpl.
  unfold resetPeerTTL, clearPeerTTLTimer. simpl. rewrite Htimer. simpl.
  assert (Hold : <[nextTimer st := peer_id data]> (base.delete t (scheduled st)) !! t
                 = None).
  { rewrite lookup_insert_ne by lia. apply lookup_delete_eq. }
  split_and!; [done|apply lookup_insert_eq|].
  unfold timerFires. simpl. by rewrite Hold.
Qed.

(** In every state the service reaches, a peer has at most one timeout
    pending. *)
Theorem one_pending_timeout_per_peer (hasNode : bool) (ops : list Op) p (t1 t2 : nat) :
  scheduled (run parseAnnouncement (initial hasNode) ops) !! t1 = Some p →
  scheduled (run parseAnnouncement (initial hasNode) ops) !! t2 = Some p →
  t1 = t2.
Proof.
  destruct (reachable_consistent parseAnnouncement hasNode ops) as [_ [Hreg _]].
  intros H1%Hreg H2%Hreg. congruence.
Qed.

End Facts.

Lemma stopped_discovery_witness :
  peers (stopDiscovery deviceB).1 = peers deviceB ∧
  ttlTimers (stopDiscovery deviceB).1 = ∅ ∧
  scheduled (stopDiscovery deviceB).1 = ∅ ∧
  ∀ timer, timerFires (stopDiscovery deviceB).1 timer = ((stopDiscovery deviceB).1, []).
Proof.
  apply (stopped_discovery_keeps_peers_without_expiry deviceB);
    [reflexivity | apply deviceB_registered].
Defined.

Lemma announcement_postpones_witness :
  scheduled (handleDiscoveryMessage plainParser deviceB "a1" "10.0.0.2" 2000
               (Some true)).1 !! 0%nat = None ∧
  scheduled (handleDiscoveryMessage plainParser deviceB "a1" "10.0.0.2" 2000
               (Some true)).1 !! nextTimer deviceB = Some "a1" ∧
  timerFires (handleDiscoveryMessage plainParser deviceB "a1" "10.0.0.2" 2000
                (Some true)).1 0
    = ((handleDiscoveryMessage plainParser deviceB "a1" "10.0.0.2" 2000 (Some true)).1,
       []).
Proof.
  apply (announcement_postpones_expiry plainParser deviceB "a1" "10.0.0.2" 2000
           {| peer_id := "a1"; ann_device_name := "Laptop"; ann_device_id := "dA";
              ann_service_port := Some 7000 |} 0);
    [reflexivity | reflexivity | apply deviceB_registered | reflexivity].
Defined.

Lemma one_pending_timeout_witness :
  scheduled (run plainParser (initial true)
               [StartDiscovery true;
                OnAnnouncement "a1" "10.0.0.2" 1000 (Some true);
                OnAnnouncement "a1" "10.0.0.2" 2000 (Some true)]) !! 1%nat = Some "a1" ∧
  1%nat = 1%nat.
Proof.
  split; [by vm_compute|].
  apply (one_pending_timeout_per_peer plainParser true
           [StartDiscovery true;
            OnAnnouncement "a1" "10.0.0.2" 1000 (Some true);
            OnAnnouncement "a1" "10.0.0.2" 2000 (Some true)] "a1" 1 1);
    by vm_compute.
Defined.

End DiscoveryMore.

Module ConnectionFacts.
Import Framing Connections.

Implicit Types (m : list (string * nat)) (p q : string) (s socket : nat).

Lemma connGet_connSet m p q s :
  connGet q (connSet p s m) = if String.eqb q p then Some s else connGet q m.
Proof.
  induction m as [|[k s'] m IH]; simpl.
  - by destruct (String.eqb q p).
  - destruct (String.eqb_spec p k) as [->|Hne]; simpl.
    + by destruct (String.eqb q k).
    + rewrite IH. destruct (String.eqb_spec q k) as [->|]; [|done].
      by rewrite (proj2 (String.eqb_neq k p)).
Qed.

Lemma idOfSocket_connSet m p s :
  idOfSocket s m = None → idOfSocket s (connSet p s m) = Some p.
Proof.
  induction m as [|[k s'] m IH]; simpl.
  - by rewrite Nat.eqb_refl.
  - destruct (Nat.eqb_spec s' s) as [->|Hne]; [done|]. intros Hm.
    destruct (String.eqb_spec p k) as [->|]; simpl.
    + by rewrite Nat.eqb_refl.
    + rewrite (proj2 (Nat.eqb_neq s' s)) by done. by apply IH.
Qed.

(** A HANDSHAKE binds its socket to the peer id it names.  From then on
    what is sent to that peer is written to that socket, as one frame, and
    the routes of the other peers are as before.  On an accepted socket,
    which is registered under no id until then, a message is dropped before
    the handshake, and handed on under the handshake's id after it (when that
    id is not the empty string). *)
Theorem handshake_binds_socket_to_peer m socket (remotePeerId : string)
    (knownPeerId : option string) (data : list byte) (message : string) :
  connGet remotePeerId (handleMessage m socket (HANDSHAKE remotePeerId) knownPeerId).1
    = Some socket ∧
  (∀ q, q ≠ remotePeerId →
        connGet q (handleMessage m socket (HANDSHAKE remotePeerId) knownPeerId).1
        = connGet q m) ∧
  (∀ framed, frame data = Some framed →
     ∃ effs, send (handleMessage m socket (HANDSHAKE remotePeerId) knownPeerId).1
                  remotePeerId data = Some effs ∧
             bytesWritten socket effs = framed ∧
             ∀ s, s ≠ socket → bytesWritten s effs = []) ∧
  (idOfSocket socket m = None →
   handleMessage m socket (Payload message) None = (m, []) ∧
   (remotePeerId ≠ EmptyString →
    handleMessage (handleMessage m socket (HANDSHAKE remotePeerId) None).1 socket
                  (Payload message) None
    = ((handleMessage m socket (HANDSHAKE remotePeerId) None).1,
       [EmitMessage message remotePeerId]))).
Proof.
  cbn [handleMessage fst]. split_and!.
  - by rewrite connGet_connSet, String.eqb_refl.
  - intros q Hq. by rewrite connGet_connSet, (proj2 (String.eqb_neq q remotePeerId)).
  - intros framed Hframe. unfold send, sendToSocket.
    rewrite connGet_connSet, String.eqb_refl. unfold frame in Hframe.
    destruct (writeUInt32BE (N.of_nat (length data))) as [lengthBuffer|]; [|done].
    simpl in Hframe. injection Hframe as <-.
    eexists. split; [reflexivity|]. unfold bytesWritten. simpl.
    rewrite Nat.eqb_refl. simpl. split; [by rewrite app_nil_r|].
    intros s Hs. by rewrite (proj2 (Nat.eqb_neq socket s)).
  - intros Hnone. simpl. rewrite Hnone. split; [done|].
    intros Hne. rewrite (idOfSocket_connSet _ _ _ Hnone). simpl.
    by rewrite (proj2 (String.eqb_neq remotePeerId EmptyString)).
Qed.





Lemma handshake_binds_witness :
  send (handleMessage oneConnection 2 (HANDSHAKE "p2") None).1 "p2" [x7b; x7d]%byte
    = Some [SocketWrite 2 [x00; x00; x00; x02]%byte; SocketWrite 2 [x7b; x7d]%byte] ∧
  handleMessage oneConnection 2 (Payload "hello") None = (oneConnection, []) ∧
  handleMessage (handleMessage oneConnection 2 (HANDSHAKE "p2") None).1 2
                (Payload "hello") None
    = ((handleMessage oneConnection 2 (HANDSHAKE "p2") None).1,
       [EmitMessage "hello" "p2"]).
Proof.
  destruct (handshake_binds_socket_to_peer oneConnection 2 "p2" None
              [x7b; x7d]%byte "hello") as (_ & _ & _ & Hmsg).
  destruct (Hmsg eq_refl) as [Hdrop Hkeep].
  split; [by vm_compute|]. split; [exact Hdrop|]. apply Hkeep. discriminate.
Defined.

(** Two connections closed at once: p1 on a socket made by
    [connectToPeer], p2 on an accepted one.  The peer p1 is reported
    disconnected twice. *)
Example disconnectAll_two :
  disconnectAll (connSet "p2" 2 oneConnection)
  = ([], [SocketEnd 1; SocketDestroy 1; EmitDisconnected "p1";
          SocketEnd 2; SocketDestroy 2; EmitDisconnected "p2"]) ∧
  disconnectedPeers (disconnectAllThenClose (connSet "p2" 2 oneConnection) dialledFirst).2
  = ["p1"; "p2"; "p1"].
Proof. by vm_compute. Qed.

End ConnectionFacts.
